(** * Security-intelligence dashboard: the analytics queries, the connection
      pool and the seed generator, embedded in Rocq

    The back end answers every analytics request with one SQL query over
    the table [security_events] (src/backend/app/routes/analytics.py), run
    through a pooled connection (src/backend/app/database.py).  The
    queries are embedded here by their PostgreSQL meaning: a table is the
    list of its rows in the order the executor happens to scan them,
    [GROUP BY] yields one row per distinct key, a window function is
    evaluated partition by partition over the ordered partition with its
    [ROWS] frame taken by position, [ORDER BY] yields a sorted permutation,
    and [NUMERIC] values are rationals whose [ROUND] is half away from
    zero.  For the paginated events, whose pages are separate queries,
    the arrangement each query gives rows of equal sort key is a
    parameter, and a [LIMIT] or [OFFSET] outside the range of [bigint]
    is an error.  The pool is embedded after the library class the code
    instantiates, over a driver of which nothing is assumed.  The seed
    script (src/db/seed.py) is embedded over an explicit source of random
    draws.

    The handlers hand their rows to [serialize_row], which changes
    representations only (decimal to float, instant to ISO text); the rows
    are kept here as typed records.

    Part I holds the definitions, Part II the theorems. *)

From Stdlib Require Import ZArith QArith Qround String Ascii Lia Lqa.
From stdpp Require Import base list strings sorting numbers gmap pretty.

(* ===================================================================== *)
(** * Part I: definitions                                                  *)
(* ===================================================================== *)

(** ** The table [security_events]

    One record per row, one field per column of the INSERT statement of
    the seed script plus the serial [id] (here [row_id]) read back by
    [get_recent_events].  Timestamps are instants counted in microseconds
    from an hour-aligned epoch, as PostgreSQL stores them. *)

Record security_event := {
  row_id : Z;
  event_id : string;
  timestamp : Z;
  source_ip : string;
  destination_ip : string;
  source_port : Z;
  destination_port : Z;
  protocol : string;
  event_type : string;
  severity : string;
  severity_score : Z;
  description : string;
  threat_category : string;
  action_taken : string;
  user_agent : option string;
  geo_country : string;
  raw_log : string
}.

(** ** NUMERIC arithmetic used by the queries *)

Module Numeric.

(** Nearest integer, ties away from zero. *)
Definition round_half_away (x : Q) : Z :=
  if Qle_bool 0 x then Qfloor (x + (1 # 2))%Q
  else (- Qfloor (- x + (1 # 2))%Q)%Z.

(** [ROUND(x, d)]: the result carries scale [d], so its denominator is
    [10^d]. *)
Definition ROUND (x : Q) (d : nat) : Q :=
  Qmake (round_half_away (x * inject_Z (10 ^ Z.of_nat d))%Q)
        (Z.to_pos (10 ^ Z.of_nat d)).

(** [SUM] and [AVG] over the counts of a frame; [AVG] of no row is NULL. *)
Definition SUM (l : list nat) : nat := sum_list l.

Definition AVG (l : list nat) : option Q :=
  match l with
  | [] => None
  | _ => Some (inject_Z (Z.of_nat (SUM l)) / inject_Z (Z.of_nat (length l)))%Q
  end.

(** [MAX] over a column of instants; NULL on no row. *)
Definition MAX (l : list Z) : option Z :=
  match l with
  | [] => None
  | x :: l' => Some (foldr Z.max x l')
  end.

Definition MIN (l : list Z) : option Z :=
  match l with
  | [] => None
  | x :: l' => Some (foldr Z.min x l')
  end.

End Numeric.

(** ** Window frames and ranks over an ordered partition *)

Module Window.

(** [ROWS UNBOUNDED PRECEDING] at the row in position [i] (from 0). *)
Definition rows_unbounded_preceding {A} (part : list A) (i : nat) : list A :=
  take (S i) part.

(** [ROWS BETWEEN n PRECEDING AND CURRENT ROW] at position [i]. *)
Definition rows_preceding {A} (n : nat) (part : list A) (i : nat) : list A :=
  drop (S i - S n) (take (S i) part).

(** [RANK()]: the row number (from 1) of the first peer of the current
    row, peers being the rows with the same ordering key. *)
Definition RANK {A K} `{EqDecision K} (key : A → K) (part : list A) (x : A)
  : nat :=
  match list_find (λ y, key y = key x) part with
  | Some (i, _) => S i
  | None => 0
  end.

(** [PERCENT_RANK()]: (rank - 1) / (rows of the partition - 1), and 0 for
    a partition of one row. *)
Definition PERCENT_RANK {A K} `{EqDecision K} (key : A → K) (part : list A)
    (x : A) : Q :=
  if decide (length part = 1) then 0%Q
  else (inject_Z (Z.of_nat (RANK key part x) - 1)
        / inject_Z (Z.of_nat (length part) - 1))%Q.

End Window.

(** ** Grouping and ordering by a key *)

Module Relational.

(** The rows of one group of [GROUP BY f]. *)
Definition group {A K} `{EqDecision K} (f : A → K) (k : K) (l : list A)
  : list A :=
  filter (λ e, f e = k) l.

(** Ascending order, and strictly ascending order, of an integer key. *)
Definition key_le {A} (zkey : A → Z) : relation A :=
  λ x y, (zkey x ≤ zkey y)%Z.
Definition key_lt {A} (zkey : A → Z) : relation A :=
  λ x y, (zkey x < zkey y)%Z.

End Relational.

(** Byte-wise order on text, the order of a [text] column under the C
    collation. *)
Definition text_le : relation string := λ s1 s2, String.leb s1 s2 = true.

Global Instance text_le_dec : RelDecision text_le.
Proof. intros x y. unfold text_le. apply _. Defined.

(** ** Severity trend: [get_severity_trend] *)

Module Trend.
Import Numeric Window.

Definition HOUR : Z := 3600000000.

(** [date_trunc('hour', timestamp)]. *)
Definition date_trunc_hour (t : Z) : Z := ((t `div` HOUR) * HOUR)%Z.

(** Rows of the CTE [hourly_counts]. *)
Record hourly_count := {
  hc_hour_bucket : Z;
  hc_severity : string;
  hc_event_count : nat
}.

Definition bucket_key (e : security_event) : Z * string :=
  (date_trunc_hour (timestamp e), severity e).

(** [GROUP BY date_trunc('hour', timestamp), severity] with [COUNT( * )]. *)
Definition hourly_counts (events : list security_event) : list hourly_count :=
  (λ k, {| hc_hour_bucket := k.1;
           hc_severity := k.2;
           hc_event_count :=
             length (filter (λ e, bucket_key e = k) events) |})
    <$> remove_dups (bucket_key <$> events).

(** Rows of the CTE [running], which are the rows the endpoint returns. *)
Record trend_row := {
  hour_bucket : Z;
  tr_severity : string;
  event_count : nat;
  running_total : nat;
  moving_avg_7h : option Q
}.

(** [ORDER BY hour_bucket] inside the window. *)
Definition by_hour_bucket : relation hourly_count :=
  λ x y, (hc_hour_bucket x ≤ hc_hour_bucket y)%Z.

Global Instance by_hour_bucket_dec : RelDecision by_hour_bucket.
Proof. intros x y. unfold by_hour_bucket. apply _. Defined.

(** The window functions over one ordered partition. *)
Definition window_partition (part : list hourly_count) : list trend_row :=
  imap (λ i r,
    {| hour_bucket := hc_hour_bucket r;
       tr_severity := hc_severity r;
       event_count := hc_event_count r;
       running_total :=
         SUM (hc_event_count <$> rows_unbounded_preceding part i);
       moving_avg_7h :=
         (λ a, ROUND a 2)
           <$> AVG (hc_event_count <$> rows_preceding 6 part i) |}) part.

(** [PARTITION BY severity ORDER BY hour_bucket]. *)
Definition severity_partition (s : string) (hc : list hourly_count)
  : list hourly_count :=
  merge_sort by_hour_bucket (filter (λ r, hc_severity r = s) hc).

Definition running (hc : list hourly_count) : list trend_row :=
  remove_dups (hc_severity <$> hc)
    ≫= (λ s, window_partition (severity_partition s hc)).

(** [SELECT MAX(hour_bucket) - INTERVAL 'limit hours' FROM hourly_counts];
    NULL when [hourly_counts] is empty. *)
Definition cutoff (hc : list hourly_count) (limit : Z) : option Z :=
  (λ m, (m - limit * HOUR)%Z) <$> MAX (hc_hour_bucket <$> hc).

(** [WHERE hour_bucket >= (...)]: a comparison with NULL keeps no row. *)
Definition at_or_after (c : option Z) (r : trend_row) : Prop :=
  match c with
  | Some c => (c ≤ hour_bucket r)%Z
  | None => False
  end.

Global Instance at_or_after_dec c r : Decision (at_or_after c r).
Proof. destruct c; simpl; apply _. Defined.

(** [ORDER BY hour_bucket ASC, severity].  The order of the column
    [severity] comes with its type and collation, which the schema (not
    among the sources) declares: it is the parameter [sev_le]. *)
Definition trend_order (sev_le : relation string) : relation trend_row :=
  λ x y, (hour_bucket x < hour_bucket y)%Z
         ∨ (hour_bucket x = hour_bucket y ∧ sev_le (tr_severity x) (tr_severity y)).

Global Instance trend_order_dec (sev_le : relation string)
  `{!RelDecision sev_le} : RelDecision (trend_order sev_le).
Proof. intros x y. unfold trend_order. apply _. Defined.

Definition get_severity_trend (sev_le : relation string)
    `{!RelDecision sev_le} (events : list security_event) (limit : Z)
  : list trend_row :=
  let hc := hourly_counts events in
  merge_sort (trend_order sev_le)
    (filter (at_or_after (cutoff hc limit)) (running hc)).

(** *** The window columns in the words of the specification

    The buckets of a severity partition at or before a bucket; the
    cumulative sum of their counts; the trailing window of at most seven
    of them, in ascending order of bucket; the mean of a window rounded
    to two decimals. *)

Definition hc_key (h : hourly_count) : Z * string :=
  (hc_hour_bucket h, hc_severity h).

Definition at_or_before (s : string) (b : Z) (h : hourly_count) : Prop :=
  hc_severity h = s ∧ (hc_hour_bucket h ≤ b)%Z.

Global Instance at_or_before_dec s b h : Decision (at_or_before s b h).
Proof. unfold at_or_before. apply _. Defined.

Definition cumulative_count (hc : list hourly_count) (s : string) (b : Z)
  : nat :=
  sum_list_with hc_event_count (filter (at_or_before s b) hc).

Definition last_rows {A} (n : nat) (l : list A) : list A :=
  drop (length l - n) l.

Definition trailing_window (hc : list hourly_count) (s : string) (b : Z)
  : list hourly_count :=
  last_rows 7 (merge_sort by_hour_bucket (filter (at_or_before s b) hc)).

Definition rounded_mean (w : list hourly_count) : option Q :=
  (λ a, ROUND a 2) <$> AVG (hc_event_count <$> w).

(** The latest bucket of the grouped data. *)
Definition max_bucket (events : list security_event) (m : Z) : Prop :=
  (∃ e, e ∈ events ∧ date_trunc_hour (timestamp e) = m)
  ∧ ∀ e, e ∈ events → (date_trunc_hour (timestamp e) ≤ m)%Z.

(** The key (bucket, severity) of a returned row. *)
Definition tr_key (r : trend_row) : Z * string :=
  (hour_bucket r, tr_severity r).

(** The [WHERE] condition, which only reads the key of a row. *)
Definition key_at_or_after (c : option Z) (k : Z * string) : Prop :=
  match c with
  | Some c => (c ≤ k.1)%Z
  | None => False
  end.

Global Instance key_at_or_after_dec c k : Decision (key_at_or_after c k).
Proof. destruct c; simpl; apply _. Defined.

(** The row of [running] for a row of [hourly_counts]. *)
Definition trend_row_of (hc : list hourly_count) (h : hourly_count)
  : trend_row :=
  {| hour_bucket := hc_hour_bucket h;
     tr_severity := hc_severity h;
     event_count := hc_event_count h;
     running_total := cumulative_count hc (hc_severity h) (hc_hour_bucket h);
     moving_avg_7h :=
       rounded_mean (trailing_window hc (hc_severity h) (hc_hour_bucket h)) |}.

End Trend.

(** ** Top attackers: [get_top_attackers] *)

Module Ranking.
Import Numeric Window.

(** Rows of the CTE [attacker_stats]. *)
Record attacker_stat := {
  st_source_ip : string;
  total_events : nat;
  critical_events : nat;
  high_events : nat;
  unique_attack_types : nat;
  first_seen : option Z;
  last_seen : option Z
}.

(** [GROUP BY source_ip] with its six aggregates. *)
Definition attacker_stats (events : list security_event) : list attacker_stat :=
  (λ ip,
     let g := filter (λ e, source_ip e = ip) events in
     {| st_source_ip := ip;
        total_events := length g;
        critical_events := length (filter (λ e, severity e = "critical") g);
        high_events := length (filter (λ e, severity e = "high") g);
        unique_attack_types := length (remove_dups (event_type <$> g));
        first_seen := MIN (timestamp <$> g);
        last_seen := MAX (timestamp <$> g) |})
    <$> remove_dups (source_ip <$> events).

(** Rows of the CTE [ranked]: [SELECT *] and the three window columns.
    The casts [::FLOAT] and [::NUMERIC] around the quotients change the
    representation, not the value rounded: the columns are the exact
    quotients, rounded to four decimals. *)
Record ranked_row := {
  stat : attacker_stat;
  attack_rank : nat;
  percentile : Q;
  pct_of_total : Q
}.

(** [ORDER BY total_events DESC] and [ORDER BY total_events]. *)
Definition by_total_desc : relation attacker_stat :=
  λ x y, total_events y ≤ total_events x.
Definition by_total_asc : relation attacker_stat :=
  λ x y, total_events x ≤ total_events y.

Global Instance by_total_desc_dec : RelDecision by_total_desc.
Proof. intros x y. unfold by_total_desc. apply _. Defined.
Global Instance by_total_asc_dec : RelDecision by_total_asc.
Proof. intros x y. unfold by_total_asc. apply _. Defined.

Definition ranked (stats : list attacker_stat) : list ranked_row :=
  let desc := merge_sort by_total_desc stats in
  let asc := merge_sort by_total_asc stats in
  let all := SUM (total_events <$> stats) in
  (λ x,
     {| stat := x;
        attack_rank := RANK total_events desc x;
        percentile := ROUND (PERCENT_RANK total_events asc x) 4;
        pct_of_total :=
          ROUND (inject_Z (Z.of_nat (total_events x))
                 / inject_Z (Z.of_nat all) * 100)%Q 4 |})
    <$> stats.

(** [ORDER BY attack_rank]. *)
Definition by_rank : relation ranked_row :=
  λ x y, attack_rank x ≤ attack_rank y.

Global Instance by_rank_dec : RelDecision by_rank.
Proof. intros x y. unfold by_rank. apply _. Defined.

(** [SELECT * FROM ranked WHERE attack_rank <= limit ORDER BY attack_rank]. *)
Definition get_top_attackers (events : list security_event) (limit : Z)
  : list ranked_row :=
  merge_sort by_rank
    (filter (λ r, (Z.of_nat (attack_rank r) ≤ limit)%Z)
            (ranked (attacker_stats events))).

(** *** Counting entities by their total, for the statements *)

Definition higher (stats : list attacker_stat) (t : nat) : nat :=
  length (filter (λ x, t < total_events x) stats).
Definition lower (stats : list attacker_stat) (t : nat) : nat :=
  length (filter (λ x, total_events x < t) stats).
Definition tied (stats : list attacker_stat) (t : nat) : nat :=
  length (filter (λ x, total_events x = t) stats).

(** The row of [ranked] for a row of [attacker_stats]. *)
Definition ranked_row_of (stats : list attacker_stat) (x : attacker_stat)
  : ranked_row :=
  {| stat := x;
     attack_rank := RANK total_events (merge_sort by_total_desc stats) x;
     percentile :=
       ROUND (PERCENT_RANK total_events (merge_sort by_total_asc stats) x) 4;
     pct_of_total :=
       ROUND (inject_Z (Z.of_nat (total_events x))
              / inject_Z (Z.of_nat (SUM (total_events <$> stats))) * 100)%Q 4 |}.

End Ranking.

(** ** Paginated events: [get_recent_events] *)

Module Pagination.



(** [if severity:] and [if event_type:]: a filter is supplied when the
    parameter is neither [None] nor the empty string. *)
Definition supplied (p : option string) : option string :=
  match p with
  | Some s => if decide (s = EmptyString) then None else Some s
  | None => None
  end.

(** One [column = %s] predicate, or no predicate. *)
Definition equals (col : security_event → string) (p : option string)
    (e : security_event) : Prop :=
  match supplied p with
  | Some s => col e = s
  | None => True
  end.

Global Instance equals_dec col p e : Decision (equals col p e).
Proof. unfold equals. destruct (supplied p); apply _. Defined.

(** The [WHERE] clause: the supplied predicates joined by [AND]. *)
Definition where_sql (sev ety : option string) (e : security_event) : Prop :=
  equals severity sev e ∧ equals event_type ety e.

Global Instance where_sql_dec sev ety e : Decision (where_sql sev ety e).
Proof. unfold where_sql. apply _. Defined.

(** [ORDER BY timestamp DESC]. *)
Definition by_timestamp_desc : relation security_event :=
  λ x y, (timestamp y ≤ timestamp x)%Z.

Global Instance by_timestamp_desc_dec : RelDecision by_timestamp_desc.
Proof. intros x y. unfold by_timestamp_desc. apply _. Defined.






(** The bounds FastAPI enforces on the query parameters before the
    handler runs: [page >= 1] and [10 <= page_size <= 200].  [page] is a
    Python integer and has no upper bound. *)
Definition valid_request (pg sz : Z) : Prop :=
  (1 ≤ pg)%Z ∧ (10 ≤ sz ≤ 200)%Z.

Global Instance valid_request_dec pg sz : Decision (valid_request pg sz).
Proof. unfold valid_request. apply _. Defined.

(** [SELECT COUNT( * ) FROM security_events WHERE ...]. *)
Definition count_query (events : list security_event)
    (sev ety : option string) : Z :=
  Z.of_nat (length (filter (where_sql sev ety) events)).




(** *** For the statements *)

(** The matching records in descending order of timestamp, as one
    particular executor (a merge sort) arranges them. *)
Definition matching_desc (events : list security_event)
    (sev ety : option string) : list security_event :=
  merge_sort by_timestamp_desc (filter (where_sql sev ety) events).





End Pagination.

(** ** KPI summary: [get_kpis] *)

Module Kpi.
Import Numeric.

(** The thirteen columns of the summary. *)
Record kpi_summary := {
  total_events : nat;
  critical_events : nat;
  high_events : nat;
  medium_events : nat;
  low_events : nat;
  avg_severity_score : Q;
  unique_source_ips : nat;
  unique_dest_ips : nat;
  unique_event_types : nat;
  unique_threat_categories : nat;
  events_last_24h : nat;
  severe_last_24h : nat;
  avg_events_per_hour : Q
}.

Definition zero_summary : kpi_summary :=
  {| total_events := 0; critical_events := 0; high_events := 0;
     medium_events := 0; low_events := 0; avg_severity_score := 0;
     unique_source_ips := 0; unique_dest_ips := 0;
     unique_event_types := 0; unique_threat_categories := 0;
     events_last_24h := 0; severe_last_24h := 0;
     avg_events_per_hour := 0 |}.

(** The handler, over the rows [SELECT * FROM v_kpi_summary] yields:
    [fetchone] takes the first row, and no row gives the zero record. *)
Definition get_kpis (view : list kpi_summary) : kpi_summary :=
  match head view with
  | None => zero_summary
  | Some result => result
  end.

Definition tier (s : string) (events : list security_event)
  : list security_event :=
  filter (λ e, severity e = s) events.

Definition last_24h (now : Z) (events : list security_event)
  : list security_event :=
  filter (λ e, (now - 24 * 3600000000 ≤ timestamp e)%Z) events.

Definition elapsed_hours (events : list security_event) : Q :=
  match MIN (timestamp <$> events), MAX (timestamp <$> events) with
  | Some lo, Some hi => (inject_Z (hi - lo) / inject_Z 3600000000)%Q
  | _, _ => 0%Q
  end.

(** Modelled from the spec: the view [v_kpi_summary], which the schema
    (not among the sources) defines.  Section 4.5 of the specification
    lists its columns: the global counts, the mean severity score, the
    distinct counts, the counts over the trailing 24 hours before [now],
    and total events over the hours the dataset spans; every numeric
    column is 0 on the empty dataset.  It always has one row. *)
Definition v_kpi_summary (now : Z) (events : list security_event)
  : list kpi_summary :=
  [ {| total_events := length events;
       critical_events := length (tier "critical" events);
       high_events := length (tier "high" events);
       medium_events := length (tier "medium" events);
       low_events := length (tier "low" events);
       avg_severity_score :=
         match events with
         | [] => 0%Q
         | _ => (inject_Z (foldr Z.add 0%Z (severity_score <$> events))
                 / inject_Z (Z.of_nat (length events)))%Q
         end;
       unique_source_ips := length (remove_dups (source_ip <$> events));
       unique_dest_ips := length (remove_dups (destination_ip <$> events));
       unique_event_types := length (remove_dups (event_type <$> events));
       unique_threat_categories :=
         length (remove_dups (threat_category <$> events));
       events_last_24h := length (last_24h now events);
       severe_last_24h :=
         length (tier "high" (last_24h now events))
         + length (tier "critical" (last_24h now events));
       avg_events_per_hour :=
         match events with
         | [] => 0%Q
         | _ => (inject_Z (Z.of_nat (length events)) / elapsed_hours events)%Q
         end |} ].

End Kpi.

(** ** The connection pool and the query helpers (database.py) *)

Module Pool.

Inductive exn :=
| RuntimeError (msg : string)
| PoolError (msg : string)
| TypeError (msg : string)
| KeyError (key : nat)
| ProgrammingError (msg : string)
| DriverError (msg : string).

Inductive value :=
| VNull
| VInt (z : Z)
| VNumeric (q : Q)
| VText (s : string)
| VTimestamp (t : Z).

(** A connection object, by its identity. *)
Definition conn := nat.

Inductive tx_status :=
| STATUS_IDLE
| STATUS_ACTIVE
| STATUS_INTRANS
| STATUS_INERROR
| STATUS_UNKNOWN.

(** What running a statement on a cursor of a connection comes to:
    [conn.cursor()] or [cur.execute] raises, or the statement runs and
    leaves [cur.description] and the rows a fetch will deliver.  The
    description is [None] for a statement that returns no result set;
    fetching from such a cursor raises. *)
Inductive cursor_result :=
| Raises (e : exn)
| Executed (description : option (list string)) (rows : list (list value)).

(** The database driver and server, of which nothing is assumed:
    whether [connect] raises, what a statement comes to, whether a
    connection is closed, its transaction status, and whether
    [conn.rollback()] and [conn.close()] raise. *)
Record driver := {
  connect : conn → option exn;
  execute : conn → string → option (list value) → cursor_result;
  conn_closed : conn → bool;
  transaction_status : conn → tx_status;
  conn_rollback : conn → option exn;
  conn_close : conn → option exn
}.

(** [psycopg2.pool.ThreadedConnectionPool], after the attributes of the
    library class: [_pool] (idle connections), [_used] (key to checked-out
    connection), [_rused] (connection identity to key), [_keys]. *)
Record connection_pool := {
  closed : bool;
  minconn : nat;
  maxconn : nat;
  _pool : list conn;
  _used : gmap nat conn;
  _rused : gmap conn nat;
  _keys : nat
}.

(** The module state: the global [_connection_pool], and the identity the
    next connection object will get. *)
Record state := {
  _connection_pool : option connection_pool;
  next_conn : conn
}.

(** Computations that read and write the module state and may raise. *)
Definition M (A : Type) : Type := state → (exn + A) * state.

Definition ret {A} (a : A) : M A := λ s, (inr a, s).
Definition raise {A} (e : exn) : M A := λ s, (inl e, s).
Definition bind {A B} (m : M A) (f : A → M B) : M B :=
  λ s, match m s with
       | (inl e, s') => (inl e, s')
       | (inr a, s') => f a s'
       end.

(** [try: body finally: fin]: [fin] runs whatever [body] did; an
    exception of [fin] replaces the outcome of [body]. *)
Definition try_finally {A} (body : M A) (fin : M unit) : M A :=
  λ s, let '(r, s1) := body s in
       match fin s1 with
       | (inl e, s2) => (inl e, s2)
       | (inr _, s2) => (r, s2)
       end.

Global Instance M_ret : MRet M := @ret.
Global Instance M_bind : MBind M := λ A B f m, bind m f.

(** [_connect(key)]. *)
Definition _connect (d : driver) (key : option nat) (p : connection_pool)
    (fresh : conn) : (exn + conn) * connection_pool * conn :=
  match connect d fresh with
  | Some e => (inl e, p, fresh)
  | None =>
      let p' :=
        match key with
        | Some k =>
            {| closed := closed p; minconn := minconn p; maxconn := maxconn p;
               _pool := _pool p;
               _used := <[k := fresh]> (_used p);
               _rused := <[fresh := k]> (_rused p);
               _keys := _keys p |}
        | None =>
            {| closed := closed p; minconn := minconn p; maxconn := maxconn p;
               _pool := _pool p ++ [fresh];
               _used := _used p; _rused := _rused p; _keys := _keys p |}
        end in
      (inr fresh, p', S fresh)
  end.

(** [getconn()] with no key: [_getkey] then [_getconn]. *)
Definition getconn (d : driver) (p : connection_pool) (fresh : conn)
  : (exn + conn) * connection_pool * conn :=
  if closed p then (inl (PoolError "connection pool is closed"), p, fresh)
  else
    let key := S (_keys p) in
    let p1 := {| closed := closed p; minconn := minconn p;
                 maxconn := maxconn p; _pool := _pool p; _used := _used p;
                 _rused := _rused p; _keys := key |} in
    match _used p1 !! key with
    | Some c => (inr c, p1, fresh)
    | None =>
        match last (_pool p1) with
        | Some c =>
            (inr c,
             {| closed := closed p1; minconn := minconn p1;
                maxconn := maxconn p1; _pool := removelast (_pool p1);
                _used := <[key := c]> (_used p1);
                _rused := <[c := key]> (_rused p1);
                _keys := _keys p1 |},
             fresh)
        | None =>
            if decide (size (_used p1) = maxconn p1)
            then (inl (PoolError "connection pool exhausted"), p1, fresh)
            else _connect d (Some key) p1 fresh
        end
    end.

(** [putconn(conn)].  The pool first puts the connection away: with
    fewer than [minconn] idle connections, a closed connection is
    discarded, one of unknown status is closed, an idle one goes back to
    [_pool] as it is, and any other is rolled back and then goes back to
    [_pool]; with [minconn] idle connections or more, the connection is
    closed.  Only then does the connection leave [_used] and [_rused]:
    when the rollback or the close raises, [putconn] raises with the
    connection still recorded as checked out. *)
Definition putconn (d : driver) (c : conn) (p : connection_pool)
  : (exn + unit) * connection_pool :=
  if closed p then (inl (PoolError "connection pool is closed"), p)
  else
    match _rused p !! c with
    | None => (inl (PoolError "trying to put unkeyed connection"), p)
    | Some key =>
        let put_away : exn + list conn :=
          if decide (length (_pool p) < minconn p) then
            if conn_closed d c then inr (_pool p)
            else match transaction_status d c with
                 | STATUS_UNKNOWN =>
                     match conn_close d c with
                     | Some e => inl e
                     | None => inr (_pool p)
                     end
                 | STATUS_IDLE => inr (_pool p ++ [c])
                 | _ =>
                     match conn_rollback d c with
                     | Some e => inl e
                     | None => inr (_pool p ++ [c])
                     end
                 end
          else match conn_close d c with
               | Some e => inl e
               | None => inr (_pool p)
               end in
        match put_away with
        | inl e => (inl e, p)
        | inr kept =>
            match _used p !! key with
            | None =>
                (inl (KeyError key),
                 {| closed := closed p; minconn := minconn p;
                    maxconn := maxconn p; _pool := kept;
                    _used := _used p; _rused := _rused p;
                    _keys := _keys p |})
            | Some _ =>
                (inr (),
                 {| closed := closed p; minconn := minconn p;
                    maxconn := maxconn p; _pool := kept;
                    _used := delete key (_used p);
                    _rused := delete c (_rused p);
                    _keys := _keys p |})
            end
        end
    end.

(** [init_pool]: the pool opens [minconn] connections at once. *)
Fixpoint open_connections (d : driver) (n : nat) (p : connection_pool)
    (fresh : conn) : (exn + unit) * connection_pool * conn :=
  match n with
  | 0 => (inr (), p, fresh)
  | S n' =>
      match _connect d None p fresh with
      | (inl e, p', fresh') => (inl e, p', fresh')
      | (inr _, p', fresh') => open_connections d n' p' fresh'
      end
  end.

Definition init_pool (d : driver) (minconn maxconn : nat) : M unit :=
  λ s,
    let p0 := {| closed := false; minconn := minconn; maxconn := maxconn;
                 _pool := []; _used := ∅; _rused := ∅; _keys := 0 |} in
    match open_connections d minconn p0 (next_conn s) with
    | (inl e, _, fresh) =>
        (inl e, {| _connection_pool := _connection_pool s;
                   next_conn := fresh |})
    | (inr _, p, fresh) =>
        (inr (), {| _connection_pool := Some p; next_conn := fresh |})
    end.

(** [close_pool]: [closeall()] raises on a pool that is closed already;
    on an open pool it closes every connection, ignoring what their
    [close()] raises, and marks the pool closed. *)
Definition close_pool : M unit :=
  λ s,
    match _connection_pool s with
    | Some p =>
        if closed p then (inl (PoolError "connection pool is closed"), s)
        else
          (inr (),
           {| _connection_pool :=
                Some {| closed := true; minconn := minconn p;
                        maxconn := maxconn p; _pool := _pool p;
                        _used := _used p; _rused := _rused p;
                        _keys := _keys p |};
              next_conn := next_conn s |})
    | None => (inr (), s)
    end.

Definition get_connection (d : driver) : M conn :=
  λ s,
    match _connection_pool s with
    | None => (inl (RuntimeError "Connection pool not initialized"), s)
    | Some p =>
        let '(r, p', fresh) := getconn d p (next_conn s) in
        (r, {| _connection_pool := Some p'; next_conn := fresh |})
    end.

Definition release_connection (d : driver) (c : conn) : M unit :=
  λ s,
    match _connection_pool s with
    | None => (inr (), s)
    | Some p =>
        let '(r, p') := putconn d c p in
        (r, {| _connection_pool := Some p'; next_conn := next_conn s |})
    end.

(** [dict(zip(columns, row))]: a later column of the same name wins. *)
Definition dict_zip (columns : list string) (row : list value)
  : gmap string value :=
  list_to_map (reverse (zip columns row)).

Inductive query_result :=
| Rows (rows : list (gmap string value))
| Row (row : option (gmap string value)).

(** The body of the [with conn.cursor() as cur:] block of
    [execute_query]. *)
Definition query_body (d : driver) (c : conn) (query : string)
    (params : option (list value)) (fetch_all : bool) : M query_result :=
  match execute d c query params with
  | Raises e => raise e
  | Executed None _ => raise (TypeError "'NoneType' object is not iterable")
  | Executed (Some description) rows =>
      if fetch_all then ret (Rows (dict_zip description <$> rows))
      else match rows with
           | [] => ret (Row None)
           | [] :: _ => ret (Row None)
           | row :: _ => ret (Row (Some (dict_zip description row)))
           end
  end.

Definition execute_query (d : driver) (query : string)
    (params : option (list value)) (fetch_all : bool) : M query_result :=
  c ← get_connection d;
  try_finally (query_body d c query params fetch_all)
              (release_connection d c).

(** The body of the [with] block of [execute_scalar]: [cur.fetchone()]
    raises on a cursor without result set. *)
Definition scalar_body (d : driver) (c : conn) (query : string)
    (params : option (list value)) : M (option value) :=
  match execute d c query params with
  | Raises e => raise e
  | Executed None _ => raise (ProgrammingError "no results to fetch")
  | Executed (Some _) [] => ret None
  | Executed (Some _) ([] :: _) => ret None
  | Executed (Some _) ((v :: _) :: _) => ret (Some v)
  end.

Definition execute_scalar (d : driver) (query : string)
    (params : option (list value)) : M (option value) :=
  c ← get_connection d;
  try_finally (scalar_body d c query params) (release_connection d c).

(** The connections checked out of the pool. *)
Definition checked_out (s : state) : gmap nat conn :=
  match _connection_pool s with
  | Some p => _used p
  | None => ∅
  end.

(** Keys are handed out in increasing order: no key above [_keys] is in
    use. *)
Definition pool_inv (s : state) : Prop :=
  match _connection_pool s with
  | Some p => ∀ k c, _used p !! k = Some c → k ≤ _keys p
  | None => True
  end.

(** A driver and server for the examples: every connection opens, every
    statement returns one row with one column, a connection handed back
    is in a transaction, and rollback and close succeed. *)
Definition sample_driver : driver :=
  {| connect := λ _, None;
     execute := λ _ _ _, Executed (Some ["count"]) [[VInt 25]];
     conn_closed := λ _, false;
     transaction_status := λ _, STATUS_INTRANS;
     conn_rollback := λ _, None;
     conn_close := λ _, None |}.

(** The same, over a connection that is lost by the time the pool rolls
    it back. *)
Definition lossy_driver : driver :=
  {| connect := λ _, None;
     execute := λ _ _ _, Executed (Some ["count"]) [[VInt 25]];
     conn_closed := λ _, false;
     transaction_status := λ _, STATUS_INTRANS;
     conn_rollback :=
       λ _, Some (DriverError "server closed the connection unexpectedly");
     conn_close := λ _, None |}.

Definition empty_state : state :=
  {| _connection_pool := None; next_conn := 0 |}.

(** The module state after [init_pool()] with its default bounds. *)
Definition sample_state : state := (init_pool sample_driver 2 10 empty_state).2.

End Pool.

(** ** The seed generator (seed.py) *)

Module Seed.

Definition EVENT_TYPES : list string :=
  ["intrusion_attempt"; "malware_detected"; "phishing_email";
   "ddos_attack"; "data_exfiltration"; "brute_force";
   "lateral_movement"; "privilege_escalation"; "port_scan";
   "sql_injection"; "xss_attack"; "dns_tunneling";
   "ransomware"; "credential_stuffing"; "insider_threat";
   "unauthorized_access"].

Definition THREAT_CATEGORIES : list string :=
  ["network_intrusion"; "malware"; "social_engineering";
   "denial_of_service"; "data_breach"; "authentication_attack";
   "web_application"; "advanced_persistent_threat";
   "insider_threat"; "reconnaissance"].

Definition SEVERITIES : list (string * Z * Z) :=
  [("low", 1, 3); ("medium", 4, 5); ("high", 6, 8); ("critical", 9, 10)]%Z.

Definition SEVERITY_WEIGHTS : list Q :=
  [30 # 100; 35 # 100; 25 # 100; 10 # 100]%Q.

Definition PROTOCOLS : list string :=
  ["TCP"; "UDP"; "ICMP"; "HTTP"; "HTTPS"; "DNS"; "SSH"; "FTP"].

Definition ACTIONS : list string :=
  ["logged"; "blocked"; "quarantined"; "alerted"; "investigated"].

Definition COUNTRIES : list string :=
  ["US"; "CN"; "RU"; "DE"; "BR"; "IN"; "GB"; "FR"; "KR"; "JP";
   "NL"; "UA"; "IR"; "VN"; "ID"; "NG"; "RO"; "PK"; "TH"; "AR"].

Definition USER_AGENTS : list (option string) :=
  [Some "Mozilla/5.0 (Windows NT 10.0; Win64; x64) AppleWebKit/537.36";
   Some "Mozilla/5.0 (X11; Linux x86_64; rv:102.0) Gecko/20100101 Firefox/102.0";
   Some "python-requests/2.28.1";
   Some "curl/7.85.0";
   Some "Nmap Scripting Engine";
   Some "sqlmap/1.6.12";
   Some "Nikto/2.1.6";
   None].

Definition DESTINATION_PORTS : list Z :=
  [22; 53; 80; 443; 445; 1433; 3306; 3389; 5432; 8080; 8443]%Z.

Definition DESCRIPTIONS : list (string * string) :=
  [("intrusion_attempt", "Unauthorized access attempt detected from {src} targeting port {port}");
   ("malware_detected", "Malicious payload identified in network traffic from {src}");
   ("phishing_email", "Phishing email with malicious link detected from {src}");
   ("ddos_attack", "High-volume traffic flood detected from {src} ({rate} pps)");
   ("data_exfiltration", "Unusual data transfer volume from {src} to external endpoint");
   ("brute_force", "Multiple failed authentication attempts from {src} ({count} attempts)");
   ("lateral_movement", "Suspicious internal network traversal from {src} to {dst}");
   ("privilege_escalation", "Unauthorized privilege elevation attempt detected on {dst}");
   ("port_scan", "Sequential port scanning activity from {src} across {count} ports");
   ("sql_injection", "SQL injection attempt detected in HTTP request from {src}");
   ("xss_attack", "Cross-site scripting payload detected in request from {src}");
   ("dns_tunneling", "Anomalous DNS query patterns from {src} suggesting data exfiltration");
   ("ransomware", "Ransomware encryption behavior detected on {dst}");
   ("credential_stuffing", "Credential reuse attack from {src} using {count} unique credentials");
   ("insider_threat", "Anomalous user behavior detected from internal host {src}");
   ("unauthorized_access", "Access to restricted resource from {src} without valid credentials")].

(** [dict.get(key, default)]. *)
Fixpoint dict_get (d : list (string * string)) (key default : string)
  : string :=
  match d with
  | [] => default
  | (k, v) :: d' => if decide (k = key) then v else dict_get d' key default
  end.

(** The state of the module [random]: the raw draws to come. *)
Record rng := {
  entropy : nat → N;
  cursor : nat
}.

(** Computations that draw from [random] and may raise. *)
Definition G (A : Type) : Type := rng → option (A * rng).

Global Instance G_ret : MRet G := λ A a g, Some (a, g).
Global Instance G_bind : MBind G :=
  λ A B f m g, match m g with
               | Some (a, g') => f a g'
               | None => None
               end.
Definition fail {A} : G A := λ _, None.

Definition draw : G N :=
  λ g, Some (entropy g (cursor g),
             {| entropy := entropy g; cursor := S (cursor g) |}).

(** [random()]: a multiple of 2^-53 in [0, 1). *)
Definition random : G Q :=
  n ← draw; mret (Z.of_N (n `mod` 2 ^ 53) # 2 ^ 53)%Q.

(** [_randbelow(n)]: an integer in [0, n). *)
Definition _randbelow (n : Z) : G Z :=
  x ← draw; mret (Z.of_N x `mod` n)%Z.

(** [randint(a, b)]; the empty range raises [ValueError]. *)
Definition randint (a b : Z) : G Z :=
  if decide (b < a)%Z then fail
  else r ← _randbelow (b - a + 1)%Z; mret (a + r)%Z.

(** [choice(seq)]; the empty sequence raises [IndexError]. *)
Definition choice {A} (l : list A) : G A :=
  match l with
  | [] => fail
  | _ =>
      i ← _randbelow (Z.of_nat (length l));
      match l !! Z.to_nat i with
      | Some x => mret x
      | None => fail
      end
  end.

(** [itertools.accumulate]. *)
Fixpoint accumulate_from (acc : Q) (l : list Q) : list Q :=
  match l with
  | [] => []
  | x :: l' => (acc + x)%Q :: accumulate_from (acc + x)%Q l'
  end.

Definition accumulate (l : list Q) : list Q :=
  match l with
  | [] => []
  | x :: l' => x :: accumulate_from x l'
  end.

(** [bisect.bisect_right(a, x, lo, hi)], the loop unrolled [fuel] times;
    [hi - lo] turns are enough, each one shrinking the interval. *)
Fixpoint bisect_loop (fuel : nat) (a : list Q) (x : Q) (lo hi : nat)
  : option nat :=
  if decide (lo < hi) then
    match fuel with
    | 0 => None
    | S fuel' =>
        let mid := (lo + hi) `div` 2 in
        match a !! mid with
        | None => None
        | Some am =>
            if Qle_bool am x then bisect_loop fuel' a x (S mid) hi
            else bisect_loop fuel' a x lo mid
        end
    end
  else Some lo.

Definition bisect (a : list Q) (x : Q) (lo hi : nat) : option nat :=
  bisect_loop (hi - lo) a x lo hi.

(** [choices(population, weights, k=1)[0]]. *)
Definition choices1 {A} (population : list A) (weights : list Q) : G A :=
  let n := length population in
  let cum_weights := accumulate weights in
  if decide (length cum_weights = n) then
    match last cum_weights with
    | None => fail
    | Some total =>
        if Qle_bool total 0 then fail
        else
          u ← random;
          match bisect cum_weights (u * total)%Q 0 (n - 1) with
          | None => fail
          | Some i =>
              match population !! i with
              | Some x => mret x
              | None => fail
              end
          end
    end
  else fail.

(** [str.format] with keyword arguments; [None] stands for the
    [KeyError] of an unknown field and the [ValueError] of an unclosed
    one. *)
Fixpoint format_go (tpl : string) (field : option string)
    (kwargs : list (string * string)) : option string :=
  match tpl with
  | EmptyString =>
      match field with
      | None => Some EmptyString
      | Some _ => None
      end
  | String c tpl' =>
      match field with
      | None =>
          if decide (c = "{"%char) then format_go tpl' (Some EmptyString) kwargs
          else String c <$> format_go tpl' None kwargs
      | Some name =>
          if decide (c = "}"%char) then
            match list_find (λ kv, kv.1 = name) kwargs with
            | Some (_, (_, v)) => (λ rest, v +:+ rest) <$> format_go tpl' None kwargs
            | None => None
            end
          else format_go tpl' (Some (name +:+ String c EmptyString)) kwargs
      end
  end.

Definition format (tpl : string) (kwargs : list (string * string))
  : option string :=
  format_go tpl None kwargs.

Inductive json := JString (s : string) | JNumber (n : Z).

(** The tuple [generate_event] returns, one field per position. *)
Record generated_event := {
  g_event_id : string;
  g_timestamp : Z;
  g_source_ip : string;
  g_destination_ip : string;
  g_source_port : Z;
  g_destination_port : Z;
  g_protocol : string;
  g_event_type : string;
  g_severity : string;
  g_severity_score : Z;
  g_description : string;
  g_threat_category : string;
  g_action_taken : string;
  g_user_agent : option string;
  g_geo_country : string;
  g_raw_log : list (string * json)
}.

(** [generate_event(base_time, time_range_seconds)].  The pools
    [EXTERNAL_IPS] and [INTERNAL_IPS] are drawn when the module is loaded
    and [uuid4] reads the system's entropy: they are arguments here.
    Instants are in microseconds. *)
Definition generate_event (EXTERNAL_IPS INTERNAL_IPS : list string)
    (uuid4 : string) (base_time time_range_seconds : Z)
  : G generated_event :=
  sev_choice ← choices1 SEVERITIES SEVERITY_WEIGHTS;
  let '(severity_label, score_min, score_max) := sev_choice in
  severity_score ← randint score_min score_max;
  event_type ← choice EVENT_TYPES;
  src_ip ← choice EXTERNAL_IPS;
  dst_ip ← choice INTERNAL_IPS;
  src_port ← randint 1024 65535;
  dst_port ← choice DESTINATION_PORTS;
  protocol ← choice PROTOCOLS;
  secs ← randint 0 time_range_seconds;
  let ts := (base_time + secs * 1000000)%Z in
  let desc_template :=
    dict_get DESCRIPTIONS event_type "Security event detected from {src}" in
  rate ← randint 1000 100000;
  count ← randint 5 5000;
  match format desc_template
          [("src", src_ip); ("dst", dst_ip); ("port", pretty dst_port);
           ("rate", pretty rate); ("count", pretty count)] with
  | None => fail
  | Some description =>
      threat_category ← choice THREAT_CATEGORIES;
      action_taken ← choice ACTIONS;
      user_agent ← choice USER_AGENTS;
      geo_country ← choice COUNTRIES;
      mret {| g_event_id := uuid4;
              g_timestamp := ts;
              g_source_ip := src_ip;
              g_destination_ip := dst_ip;
              g_source_port := src_port;
              g_destination_port := dst_port;
              g_protocol := protocol;
              g_event_type := event_type;
              g_severity := severity_label;
              g_severity_score := severity_score;
              g_description := description;
              g_threat_category := threat_category;
              g_action_taken := action_taken;
              g_user_agent := user_agent;
              g_geo_country := geo_country;
              g_raw_log := [("src", JString src_ip); ("dst", JString dst_ip);
                            ("type", JString event_type);
                            ("sev", JNumber severity_score)] |}
  end.

(** The data-model invariant: the score lies in the sub-range of its
    tier. *)
Definition score_in_tier (sev : string) (score : Z) : Prop :=
  (sev = "low" ∧ 1 ≤ score ≤ 3)%Z
  ∨ (sev = "medium" ∧ 4 ≤ score ≤ 5)%Z
  ∨ (sev = "high" ∧ 6 ≤ score ≤ 8)%Z
  ∨ (sev = "critical" ∧ 9 ≤ score ≤ 10)%Z.

(** The names of the keyword arguments [generate_event] passes to
    [format]. *)
Definition kwarg_names : list string :=
  ["src"; "dst"; "port"; "rate"; "count"].

(** Whether [format] succeeds on a template, given the names of the
    keyword arguments. *)
Fixpoint formattable (tpl : string) (field : option string)
    (names : list string) : bool :=
  match tpl with
  | EmptyString =>
      match field with
      | None => true
      | Some _ => false
      end
  | String c tpl' =>
      match field with
      | None =>
          if decide (c = "{"%char) then formattable tpl' (Some EmptyString) names
          else formattable tpl' None names
      | Some name =>
          if decide (c = "}"%char) then
            bool_decide (name ∈ names) && formattable tpl' None names
          else formattable tpl' (Some (name +:+ String c EmptyString)) names
      end
  end.

(** A source of draws for the examples. *)
Definition sample_rng : rng :=
  {| entropy := λ i, (N.of_nat i * 7919 + 12345678901234567)%N;
     cursor := 0 |}.

End Seed.




(** ** Sample data for the examples *)

Module Samples.

(** Event number [i], half an hour after event [i - 1]. *)
Definition sample_event (i : nat) (ip sev ety : string) : security_event :=
  {| row_id := Z.of_nat i;
     event_id := pretty i;
     timestamp := (Z.of_nat i * 1800000000)%Z;
     source_ip := ip;
     destination_ip := "10.0.0.1";
     source_port := 40000;
     destination_port := 443;
     protocol := "TCP";
     event_type := ety;
     severity := sev;
     severity_score := 5;
     description := "sample";
     threat_category := "reconnaissance";
     action_taken := "logged";
     user_agent := None;
     geo_country := "US";
     raw_log := "{}" |}.

(** Twenty-five events from three source addresses, with totals 10, 10
    and 5, and pairwise distinct timestamps. *)
Definition sample_events : list security_event :=
  ((λ i, sample_event i "203.0.113.7" "low" "port_scan") <$> seq 0 10)
  ++ ((λ i, sample_event i "198.51.100.4" "high" "brute_force") <$> seq 10 10)
  ++ ((λ i, sample_event i "192.0.2.9" "critical" "ransomware") <$> seq 20 5).

(** The trend over the last five hours returns this row, the first
    bucket of the critical partition, and this one, its last bucket. *)
Definition sample_first_row : Trend.trend_row :=
  {| Trend.hour_bucket := 36000000000;
     Trend.tr_severity := "critical";
     Trend.event_count := 2;
     Trend.running_total := 2;
     Trend.moving_avg_7h := Some (200 # 100)%Q |}.

Definition sample_last_row : Trend.trend_row :=
  {| Trend.hour_bucket := 43200000000;
     Trend.tr_severity := "critical";
     Trend.event_count := 1;
     Trend.running_total := 5;
     Trend.moving_avg_7h := Some (167 # 100)%Q |}.

(** The ranked rows of the first and of the third source address. *)
Definition sample_top_row : Ranking.ranked_row :=
  {| Ranking.stat :=
       {| Ranking.st_source_ip := "203.0.113.7";
          Ranking.total_events := 10;
          Ranking.critical_events := 0;
          Ranking.high_events := 0;
          Ranking.unique_attack_types := 1;
          Ranking.first_seen := Some 0%Z;
          Ranking.last_seen := Some 16200000000%Z |};
     Ranking.attack_rank := 1;
     Ranking.percentile := (5000 # 10000)%Q;
     Ranking.pct_of_total := (400000 # 10000)%Q |}.

Definition sample_third_row : Ranking.ranked_row :=
  {| Ranking.stat :=
       {| Ranking.st_source_ip := "192.0.2.9";
          Ranking.total_events := 5;
          Ranking.critical_events := 5;
          Ranking.high_events := 0;
          Ranking.unique_attack_types := 1;
          Ranking.first_seen := Some 36000000000%Z;
          Ranking.last_seen := Some 43200000000%Z |};
     Ranking.attack_rank := 3;
     Ranking.percentile := (0 # 10000)%Q;
     Ranking.pct_of_total := (200000 # 10000)%Q |}.

(** Ten events within one hour, four of severity high and six low. *)
Definition one_hour_events : list security_event :=
  ((λ i, sample_event i "203.0.113.7" "high" "port_scan") <$> [0; 1; 0; 1])
  ++ ((λ i, sample_event i "198.51.100.4" "low" "brute_force")
        <$> [0; 1; 0; 1; 0; 1]).


End Samples.

(** ** Severity distribution: [get_severity_distribution] *)

Module Distribution.
Import Numeric.

(** Rows of [GROUP BY severity] with [COUNT( * )]. *)
Record severity_count := {
  sc_severity : string;
  sc_count : nat
}.

Definition severity_counts (events : list security_event)
  : list severity_count :=
  (λ s, {| sc_severity := s;
           sc_count := length (filter (λ e, severity e = s) events) |})
    <$> remove_dups (severity <$> events).

(** The rows the endpoint returns. *)
Record distribution_row := {
  d_severity : string;
  count : nat;
  percentage : Q
}.

(** The select list.  [SUM(COUNT( * )) OVER ()] is the sum of the counts
    of all the groups; as for [pct_of_total], the casts change the
    representation of the quotient, not the value rounded. *)
Definition select_list (groups : list severity_count)
  : list distribution_row :=
  let all := SUM (sc_count <$> groups) in
  (λ g,
     {| d_severity := sc_severity g;
        count := sc_count g;
        percentage :=
          ROUND (inject_Z (Z.of_nat (sc_count g))
                 / inject_Z (Z.of_nat all) * 100)%Q 2 |})
    <$> groups.

(** [CASE severity WHEN 'critical' THEN 1 ... END]: NULL for any other
    label. *)
Definition case_severity (s : string) : option nat :=
  if decide (s = "critical") then Some 1
  else if decide (s = "high") then Some 2
  else if decide (s = "medium") then Some 3
  else if decide (s = "low") then Some 4
  else None.

(** Ascending order of a nullable key: NULLs sort last. *)
Definition nulls_last : relation (option nat) :=
  λ x y, match x, y with
         | Some a, Some b => a ≤ b
         | _, None => True
         | None, Some _ => False
         end.

Global Instance nulls_last_dec : RelDecision nulls_last.
Proof. intros [a|] [b|]; simpl; apply _. Defined.

(** [ORDER BY CASE severity ... END]. *)
Definition by_case : relation distribution_row :=
  λ x y, nulls_last (case_severity (d_severity x))
                    (case_severity (d_severity y)).

Global Instance by_case_dec : RelDecision by_case.
Proof. intros x y. unfold by_case. apply _. Defined.

Definition get_severity_distribution (events : list security_event)
  : list distribution_row :=
  merge_sort by_case (select_list (severity_counts events)).

(** The labels the [CASE] expression knows, in its order. *)
Definition known_severities : list string :=
  ["critical"; "high"; "medium"; "low"].

(** The order of the labels the [CASE] expression induces. *)
Definition label_order : relation string :=
  λ s t, nulls_last (case_severity s) (case_severity t).

End Distribution.

(** ** The lifespan of the application (main.py) *)

Module Main.
Import Pool.

(** [lifespan]: the code before [yield] runs once before the application
    serves, the code after it once the application has stopped; [serve]
    stands for the serving in between. *)
Definition lifespan {A} (d : driver) (serve : M A) : M A :=
  _ ← init_pool d 2 10; a ← serve; _ ← close_pool; mret a.

(** The module state once the only connection of a pool of at most one
    connection is checked out. *)
Definition exhausted_state : state :=
  (get_connection sample_driver (init_pool sample_driver 0 1 empty_state).2).2.

End Main.

(** ** The seed script: address pools, batches, waiting for the database *)

Module Seeding.
Import Seed.

Definition TOTAL_EVENTS : Z := 1000000.
Definition BATCH_SIZE : Z := 50000.

(** Four numbers joined by dots, as the f-strings of [generate_ip_pool]
    write them. *)
Definition dotted (a b c d : Z) : string :=
  pretty a +:+ "." +:+ pretty b +:+ "." +:+ pretty c +:+ "." +:+ pretty d.

(** The loop of [generate_ip_pool], [count] turns to go. *)
Fixpoint ip_pool_loop (count : nat) (internal : bool) (ips : list string)
  : G (list string) :=
  match count with
  | 0 => mret ips
  | S count' =>
      if internal then
        b ← randint 0 255;
        c ← randint 0 255;
        d ← randint 1 254;
        ip_pool_loop count' internal
          (ips ++ ["10." +:+ pretty b +:+ "." +:+ pretty c +:+ "."
                   +:+ pretty d])
      else
        a ← randint 1 223;
        b ← randint 0 255;
        c ← randint 0 255;
        d ← randint 1 254;
        ip_pool_loop count' internal
          (ips ++ [pretty a +:+ "." +:+ pretty b +:+ "." +:+ pretty c
                   +:+ "." +:+ pretty d])
  end.

(** [generate_ip_pool(count, internal)]; [range(count)] is empty for a
    negative [count]. *)
Definition generate_ip_pool (count : Z) (internal : bool) : G (list string) :=
  ip_pool_loop (Z.to_nat count) internal [].

(** An address [generate_ip_pool] may write. *)
Definition pool_address (internal : bool) (ip : string) : Prop :=
  ∃ a b c d : Z,
    ip = dotted a b c d
    ∧ (if internal then a = 10 else 1 ≤ a ≤ 223)%Z
    ∧ (0 ≤ b ≤ 255)%Z ∧ (0 ≤ c ≤ 255)%Z ∧ (1 ≤ d ≤ 254)%Z.

(** [[generate_event(base_time, time_range) for _ in range(batch_count)]].
    [uuid4 n] is the identifier [uuid.uuid4()] returns at the call of
    [generate_event] number [n] of the run. *)
Fixpoint generate_batch (EXTERNAL_IPS INTERNAL_IPS : list string)
    (uuid4 : nat → string) (base_time time_range : Z)
    (first batch_count : nat) : G (list generated_event) :=
  match batch_count with
  | 0 => mret []
  | S batch_count' =>
      e ← generate_event EXTERNAL_IPS INTERNAL_IPS (uuid4 first)
            base_time time_range;
      batch ← generate_batch EXTERNAL_IPS INTERNAL_IPS uuid4 base_time
                time_range (S first) batch_count';
      mret (e :: batch)
  end.

(** [range(start, stop, step)]; a zero step raises [ValueError]. *)
Definition range (start stop step : Z) : option (list Z) :=
  if decide (step = 0)%Z then None
  else
    let n := if decide (0 < step)%Z
             then ((stop - start + step - 1) `div` step)%Z
             else ((start - stop - step - 1) `div` (- step))%Z in
    Some ((λ k : nat, (start + Z.of_nat k * step)%Z) <$> seq 0 (Z.to_nat n)).

(** The loop over the batches of [seed_database], for the totals
    [total_events] and [batch_size]: [table] holds the rows inserted and
    committed so far, after those the table held before.  The statements
    sent to the database are taken to succeed. *)
Fixpoint seed_loop (EXTERNAL_IPS INTERNAL_IPS : list string)
    (uuid4 : nat → string) (base_time time_range : Z)
    (total_events batch_size : Z) (batch_nums : list Z)
    (table : list generated_event) (total_inserted : Z)
  : G (list generated_event * Z) :=
  match batch_nums with
  | [] => mret (table, total_inserted)
  | batch_num :: batch_nums' =>
      let batch_count := (batch_size `min` (total_events - batch_num))%Z in
      batch ← generate_batch EXTERNAL_IPS INTERNAL_IPS uuid4 base_time
                time_range (Z.to_nat total_inserted) (Z.to_nat batch_count);
      seed_loop EXTERNAL_IPS INTERNAL_IPS uuid4 base_time time_range
        total_events batch_size batch_nums' (table ++ batch)
        (total_inserted + batch_count)%Z
  end.

(** What one turn of the loop of [wait_for_db] meets: the connection
    opens and closes, or [psycopg2.OperationalError] is raised, or
    another exception is. *)
Inductive connect_outcome :=
| Connected
| OperationalError
| OtherError (e : string).

(** The loop of [wait_for_db] from turn [attempt], [retries] turns to
    go: the value returned or the exception raised, and the seconds
    slept. *)
Fixpoint wait_loop (connect : nat → connect_outcome) (delay : nat)
    (attempt retries slept : nat) : (string + bool) * nat :=
  match retries with
  | 0 => (inr false, slept)
  | S retries' =>
      match connect attempt with
      | Connected => (inr true, slept)
      | OperationalError =>
          wait_loop connect delay (S attempt) retries' (slept + delay)
      | OtherError e => (inl e, slept)
      end
  end.

Definition wait_for_db (connect : nat → connect_outcome)
    (max_retries delay : nat) : (string + bool) * nat :=
  wait_loop connect delay 0 max_retries 0.

(** [check_already_seeded]: [count] is the count the query returns, or
    [None] when connecting or querying raises. *)
Definition check_already_seeded (count : option Z) : bool :=
  match count with
  | Some count => bool_decide (TOTAL_EVENTS ≤ count)%Z
  | None => false
  end.

Inductive seed_outcome :=
| Raised (e : string)
| Exit (code : Z)
| Skipped
| Seeded (table : list generated_event) (total_inserted : Z).

Definition DAY : Z := 86400.

(** [seed_database], run at the instant [now] (in microseconds) on a
    table holding [table], of which the counting query reports
    [count]. *)
Definition seed_database (connect : nat → connect_outcome)
    (count : option Z) (EXTERNAL_IPS INTERNAL_IPS : list string)
    (uuid4 : nat → string) (now : Z) (table : list generated_event)
  : G seed_outcome :=
  match (wait_for_db connect 30 2).1 with
  | inl e => mret (Raised e)
  | inr false => mret (Exit 1)
  | inr true =>
      if check_already_seeded count then mret Skipped
      else
        let base_time := (now - 30 * DAY * 1000000)%Z in
        let time_range := (30 * DAY)%Z in
        match range 0 TOTAL_EVENTS BATCH_SIZE with
        | None => fail
        | Some batch_nums =>
            r ← seed_loop EXTERNAL_IPS INTERNAL_IPS uuid4 base_time
                  time_range TOTAL_EVENTS BATCH_SIZE batch_nums table 0;
            mret (Seeded r.1 r.2)
        end
  end.

(** What [generate_event] guarantees of an event, given the pools, the
    identifier and the window of time. *)
Definition well_formed_event (EXTERNAL_IPS INTERNAL_IPS : list string)
    (base_time time_range : Z) (e : generated_event) : Prop :=
  g_source_ip e ∈ EXTERNAL_IPS
  ∧ g_destination_ip e ∈ INTERNAL_IPS
  ∧ (1024 ≤ g_source_port e ≤ 65535)%Z
  ∧ g_destination_port e ∈ DESTINATION_PORTS
  ∧ g_protocol e ∈ PROTOCOLS
  ∧ g_event_type e ∈ EVENT_TYPES
  ∧ score_in_tier (g_severity e) (g_severity_score e)
  ∧ (∃ secs, (0 ≤ secs ≤ time_range)%Z
             ∧ g_timestamp e = (base_time + secs * 1000000)%Z)
  ∧ g_threat_category e ∈ THREAT_CATEGORIES
  ∧ g_action_taken e ∈ ACTIONS
  ∧ g_user_agent e ∈ USER_AGENTS
  ∧ g_geo_country e ∈ COUNTRIES
  ∧ g_raw_log e
    = [("src", JString (g_source_ip e)); ("dst", JString (g_destination_ip e));
       ("type", JString (g_event_type e));
       ("sev", JNumber (g_severity_score e))]
  ∧ ∃ template rate count,
      (g_event_type e, template) ∈ DESCRIPTIONS
      ∧ (1000 ≤ rate ≤ 100000)%Z ∧ (5 ≤ count ≤ 5000)%Z
      ∧ format template
          [("src", g_source_ip e); ("dst", g_destination_ip e);
           ("port", pretty (g_destination_port e));
           ("rate", pretty rate); ("count", pretty count)]
        = Some (g_description e).

(** The row the [INSERT] statement of [seed_database] stores for a tuple
    of [generate_event]: the columns of the statement take the positions
    of the tuple in their order; [id] is what the sequence of the table
    gives; [raw_log] is the text [json.dumps] wrote, as [dumps] gives
    it. *)
Definition inserted_row (dumps : list (string * json) → string) (id : Z)
    (e : generated_event) : security_event :=
  {| row_id := id;
     event_id := g_event_id e;
     timestamp := g_timestamp e;
     source_ip := g_source_ip e;
     destination_ip := g_destination_ip e;
     source_port := g_source_port e;
     destination_port := g_destination_port e;
     protocol := g_protocol e;
     event_type := g_event_type e;
     severity := g_severity e;
     severity_score := g_severity_score e;
     description := g_description e;
     threat_category := g_threat_category e;
     action_taken := g_action_taken e;
     user_agent := g_user_agent e;
     geo_country := g_geo_country e;
     raw_log := dumps (g_raw_log e) |}.

(** [execute_values(cur, insert_sql, batch)] and [commit]: the rows of
    the batch follow those of the table; [nextval n] is the [id] the
    sequence gives to row number [n] of the table. *)
Definition execute_values (dumps : list (string * json) → string)
    (nextval : nat → Z) (table : list security_event)
    (batch : list generated_event) : list security_event :=
  table ++ imap (λ i e, inserted_row dumps (nextval (length table + i)) e)
             batch.

(** A database that accepts connections from the third attempt on. *)
Definition late_database (attempt : nat) : connect_outcome :=
  if decide (attempt < 2) then OperationalError else Connected.

End Seeding.

(** ** Making a row serializable: [serialize_row] *)

Module Serialize.

(** The values a row may hold, by the classes [serialize_row] tells
    apart: the JSON-native ones, [datetime], [Decimal], an address object
    (anything with an attribute [packed]), a list, and any other
    object. *)
#[warnings="-register-all"] Inductive pyvalue :=
| PNone
| PBool (b : bool)
| PInt (z : Z)
| PFloat (x : Q)
| PStr (s : string)
| PDatetime (t : Z)
| PDecimal (q : Q)
| PAddress (packed : list Z)
| PList (l : list pyvalue)
| PObject (name : string).

(** [isinstance(v, (str, int, float, bool, type(None)))]. *)
Definition is_primitive (v : pyvalue) : bool :=
  match v with
  | PStr _ | PInt _ | PFloat _ | PBool _ | PNone => true
  | _ => false
  end.

Section builtins.

(** [datetime.isoformat], [float] of a [Decimal] and [str], which the
    function calls and which are Python's. *)
Variable isoformat : Z → string.
Variable float : Q → Q.
Variable str : pyvalue → string.

(** One turn of the chain of tests on a value. *)
Definition serialize_value (value : pyvalue) : pyvalue :=
  match value with
  | PDatetime t => PStr (isoformat t)
  | PDecimal q => PFloat (float q)
  | PAddress _ => PStr (str value)
  | PList l => PList ((λ v, if is_primitive v then v else PStr (str v)) <$> l)
  | _ => value
  end.

(** [serialize_row]: the loop over [row.items()] that fills [result]. *)
Definition serialize_row (row : gmap string pyvalue) : gmap string pyvalue :=
  map_fold (λ key value result, <[key := serialize_value value]> result)
           ∅ row.

End builtins.

(** What [serialize_row] leaves in a row: no [datetime], [Decimal] or
    address, and lists of JSON-native values only. *)
Definition converted (v : pyvalue) : Prop :=
  match v with
  | PDatetime _ | PDecimal _ | PAddress _ => False
  | PList l => Forall (λ x, is_primitive x = true) l
  | _ => True
  end.

End Serialize.

(** ** Sums of rounded shares, for the statements *)

Module Shares.

Definition Qsum (l : list Q) : Q := foldr Qplus 0%Q l.

(** Three events of three severities: each is a third of the table. *)
Definition three_events : list security_event :=
  [Samples.sample_event 0 "203.0.113.7" "low" "port_scan";
   Samples.sample_event 1 "198.51.100.4" "high" "brute_force";
   Samples.sample_event 2 "192.0.2.9" "critical" "ransomware"].

End Shares.

(* ===================================================================== *)
(** * Part II: theorems                                                    *)
(* ===================================================================== *)

(** ** NUMERIC rounding *)

Module NumericFacts.
Import Numeric.

Lemma pow10_pos (d : nat) : (0 < 10 ^ Z.of_nat d)%Z.
Proof. apply Z.pow_pos_nonneg; lia. Qed.

Lemma Qfloor_add_half (z : Z) : Qfloor (inject_Z z + (1 # 2)) = z.
Proof.
  unfold Qfloor, Qplus, inject_Z. simpl.
  rewrite Z.mul_1_r. symmetry.
  apply (Z.div_unique _ _ _ 1); lia.
Qed.

Lemma round_half_away_nonneg (x : Q) :
  (0 <= x)%Q → round_half_away x = Qfloor (x + (1 # 2)).
Proof.
  intros Hx. unfold round_half_away.
  apply Qle_bool_iff in Hx. by rewrite Hx.
Qed.

Lemma round_half_away_comp (x y : Q) :
  (x == y)%Q → round_half_away x = round_half_away y.
Proof.
  intros Hxy. unfold round_half_away.
  assert (Qle_bool 0 x = Qle_bool 0 y) as ->.
  { destruct (Qle_bool 0 y) eqn:Hy.
    - apply Qle_bool_iff. rewrite Hxy. by apply Qle_bool_iff.
    - apply not_true_is_false. intros Hx%Qle_bool_iff.
      rewrite Hxy in Hx. apply Qle_bool_iff in Hx. congruence. }
  destruct (Qle_bool 0 y).
  - apply Qfloor_comp. by rewrite Hxy.
  - f_equal. apply Qfloor_comp. by rewrite Hxy.
Qed.

Lemma round_half_away_Z (z : Z) : (0 ≤ z)%Z → round_half_away (inject_Z z) = z.
Proof.
  intros Hz. rewrite round_half_away_nonneg.
  - apply Qfloor_add_half.
  - unfold Qle. simpl. lia.
Qed.

Lemma round_half_away_bounds (x : Q) (m : Z) :
  (0 <= x)%Q → (x <= inject_Z m)%Q →
  (0 ≤ round_half_away x ≤ m)%Z.
Proof.
  intros H0 Hm. rewrite round_half_away_nonneg by done. split.
  - rewrite <- (Qfloor_add_half 0). apply Qfloor_resp_le.
    apply Qplus_le_l. exact H0.
  - rewrite <- (Qfloor_add_half m). apply Qfloor_resp_le.
    apply Qplus_le_l. exact Hm.
Qed.

(** [ROUND] of equal rationals is the same decimal. *)
Lemma ROUND_comp (x y : Q) (d : nat) : (x == y)%Q → ROUND x d = ROUND y d.
Proof.
  intros Hxy. unfold ROUND. f_equal.
  apply round_half_away_comp. by rewrite Hxy.
Qed.

Lemma Qmake_pow10 (z : Z) (d : nat) :
  (Qmake z (Z.to_pos (10 ^ Z.of_nat d))
   == inject_Z z / inject_Z (10 ^ Z.of_nat d))%Q.
Proof.
  pose proof (pow10_pos d) as Hp.
  rewrite Qmake_Qdiv. rewrite Z2Pos.id by done. reflexivity.
Qed.

(** An integer is its own rounding. *)
Lemma ROUND_Z (x : Q) (z : Z) (d : nat) :
  (0 ≤ z)%Z → (x == inject_Z z)%Q → (ROUND x d == inject_Z z)%Q.
Proof.
  intros Hz Hx. pose proof (pow10_pos d) as Hp.
  unfold ROUND.
  rewrite (round_half_away_comp _ (inject_Z (z * 10 ^ Z.of_nat d))).
  - rewrite round_half_away_Z by lia.
    unfold Qeq. simpl. rewrite Z2Pos.id by done. ring.
  - rewrite Hx, inject_Z_mult. reflexivity.
Qed.

(** Rounding keeps a value between 0 and an integer bound there. *)
Lemma ROUND_bounds (x : Q) (m : Z) (d : nat) :
  (0 <= x)%Q → (x <= inject_Z m)%Q →
  (0 <= ROUND x d)%Q ∧ (ROUND x d <= inject_Z m)%Q.
Proof.
  intros H0 Hm. pose proof (pow10_pos d) as Hp.
  assert (0 <= inject_Z (10 ^ Z.of_nat d))%Q as Hp'.
  { unfold Qle. simpl. lia. }
  destruct (round_half_away_bounds (x * inject_Z (10 ^ Z.of_nat d))
              (m * 10 ^ Z.of_nat d)) as [Hlo Hhi].
  - by apply Qmult_le_0_compat.
  - rewrite inject_Z_mult. by apply Qmult_le_compat_r.
  - unfold ROUND, Qle. simpl. rewrite Z2Pos.id by done.
    rewrite !Z.mul_1_r. split; done.
Qed.

(** The mean of counts lies between 0 and any bound on the counts. *)
Lemma AVG_bounds (l : list nat) (m : nat) (a : Q) :
  AVG l = Some a → (∀ x, x ∈ l → x ≤ m) →
  (0 <= a)%Q ∧ (a <= inject_Z (Z.of_nat m))%Q.
Proof.
  intros Ha Hm. destruct l as [|x l]; [done|].
  injection Ha as <-.
  assert (SUM (x :: l) ≤ length (x :: l) * m) as Hs.
  { unfold SUM. clear -Hm. induction (x :: l) as [|y k IH]; simpl; [lia|].
    assert (y ≤ m) by (apply Hm; left).
    assert (sum_list k ≤ length k * m).
    { apply IH. intros z Hz. apply Hm. by right. }
    lia. }
  assert (0 < inject_Z (Z.of_nat (length (x :: l))))%Q as Hlen.
  { change 0%Q with (inject_Z 0). rewrite <- Zlt_Qlt. simpl length. lia. }
  split.
  - apply Qle_shift_div_l; [done|]. rewrite Qmult_0_l.
    change 0%Q with (inject_Z 0). rewrite <- Zle_Qle. apply Nat2Z.is_nonneg.
  - apply Qle_shift_div_r; [done|].
    rewrite <- inject_Z_mult. rewrite <- Zle_Qle.
    rewrite <- Nat2Z.inj_mul. apply Nat2Z.inj_le.
    change (SUM (x :: l)) with (x + SUM l) in Hs. simpl length in Hs. lia.
Qed.

Lemma AVG_singleton (n : nat) :
  ∃ a, AVG [n] = Some a ∧ (a == inject_Z (Z.of_nat n))%Q.
Proof.
  eexists. split; [reflexivity|].
  unfold SUM. simpl. rewrite Nat.add_0_r.
  unfold Qdiv, Qeq. simpl. lia.
Qed.

Lemma MAX_Some (l : list Z) (m : Z) :
  MAX l = Some m ↔ m ∈ l ∧ ∀ x, x ∈ l → (x ≤ m)%Z.
Proof.
  destruct l as [|a l]; simpl.
  { split; [done|]. intros [H _]. by apply elem_of_nil in H. }
  assert (foldr Z.max a l ∈ a :: l ∧ ∀ x, x ∈ a :: l → (x ≤ foldr Z.max a l)%Z)
    as [Hin Hub].
  { induction l as [|b l [IHin IHub]]; simpl.
    - split; [left|]. intros x ->%list_elem_of_singleton. lia.
    - split.
      + destruct (Z.max_spec b (foldr Z.max a l)) as [[_ ->]|[_ ->]].
        * apply elem_of_cons in IHin as [->|?]; [left|right; by right].
        * right; left.
      + intros x Hx.
        assert (x = b ∨ x ∈ a :: l) as [->|Hx'].
        { apply elem_of_cons in Hx as [->|Hx]; [right; left|].
          apply elem_of_cons in Hx as [->|Hx]; [by left|right; by right]. }
        * lia.
        * specialize (IHub x Hx'). lia. }
  split.
  - by intros [= <-].
  - intros [Hm Hall]. f_equal.
    specialize (Hub m Hm). specialize (Hall _ Hin). lia.
Qed.

Lemma MAX_None (l : list Z) : MAX l = None ↔ l = [].
Proof. by destruct l. Qed.

End NumericFacts.

(** ** Sorted lists, frames and ranks *)

Module SortFacts.
Import Window Relational.

(** Membership in a list given by its elements. *)
Ltac elem_of_computed :=
  vm_compute; repeat first [apply list_elem_of_here | apply list_elem_of_further].

(** The byte-wise order on text is a total preorder. *)
Lemma compare_not_Gt_trans (s1 s2 s3 : string) :
  String.compare s1 s2 ≠ Gt → String.compare s2 s3 ≠ Gt →
  String.compare s1 s3 ≠ Gt.
Proof.
  revert s2 s3. induction s1 as [|c1 s1 IH]; intros [|c2 s2] [|c3 s3];
    simpl; try done.
  unfold Ascii.compare.
  destruct (N.compare_spec (N_of_ascii c1) (N_of_ascii c2)) as [H12|H12|H12];
    destruct (N.compare_spec (N_of_ascii c2) (N_of_ascii c3)) as [H23|H23|H23];
    try done.
  - rewrite H12, H23, N.compare_refl. apply IH.
  - intros _ _. rewrite H12. by apply N.compare_lt_iff in H23 as ->.
  - intros _ _. rewrite <- H23. by apply N.compare_lt_iff in H12 as ->.
  - intros _ _.
    assert (N_of_ascii c1 < N_of_ascii c3)%N as ->%N.compare_lt_iff by lia.
    done.
Qed.

Global Instance text_le_trans : Transitive text_le.
Proof.
  intros s1 s2 s3. unfold text_le, String.leb.
  pose proof (compare_not_Gt_trans s1 s2 s3) as H.
  destruct (String.compare s1 s2), (String.compare s2 s3),
    (String.compare s1 s3); try done; intros _ _; exfalso; by apply H.
Qed.

Global Instance text_le_total : Total text_le.
Proof. intros s1 s2. apply String.leb_total. Qed.

Lemma filter_none {A} (P : A → Prop) `{∀ x, Decision (P x)} (l : list A) :
  (∀ y, y ∈ l → ¬ P y) → filter P l = [].
Proof.
  induction l as [|a l IH]; intros Hl; [done|].
  rewrite filter_cons_False by (apply Hl; left).
  apply IH. intros y Hy. apply Hl. by right.
Qed.

Lemma filter_all {A} (P : A → Prop) `{∀ x, Decision (P x)} (l : list A) :
  (∀ y, y ∈ l → P y) → filter P l = l.
Proof.
  induction l as [|a l IH]; intros Hl; [done|].
  rewrite filter_cons_True by (apply Hl; left).
  f_equal. apply IH. intros y Hy. apply Hl. by right.
Qed.

(** Two predicates that agree on the rows of a list select the same
    rows. *)
Lemma filter_ext_in {A} (P1 P2 : A → Prop) `{∀ x, Decision (P1 x)}
    `{∀ x, Decision (P2 x)} (l : list A) :
  (∀ y, y ∈ l → P1 y ↔ P2 y) → filter P1 l = filter P2 l.
Proof.
  induction l as [|a l IH]; intros Hl; [done|].
  rewrite !filter_cons.
  assert (P1 a ↔ P2 a) as Ha by (apply Hl; left).
  rewrite IH by (intros y Hy; apply Hl; by right).
  destruct (decide (P1 a)), (decide (P2 a)); tauto.
Qed.

Lemma length_filter_mono {A} (P1 P2 : A → Prop) `{∀ x, Decision (P1 x)}
    `{∀ x, Decision (P2 x)} (l : list A) :
  (∀ x, x ∈ l → P1 x → P2 x) → length (filter P1 l) ≤ length (filter P2 l).
Proof.
  induction l as [|a l IH]; intros HP; [done|].
  assert (length (filter P1 l) ≤ length (filter P2 l)) as IH'.
  { apply IH. intros x Hx. apply HP. by right. }
  rewrite !filter_cons.
  destruct (decide (P1 a)) as [H1|H1].
  - rewrite decide_True by (apply HP; [left|done]). simpl. lia.
  - destruct (decide (P2 a)); simpl; lia.
Qed.

Section by_key.
Context {A : Type} (zkey : A → Z).

Lemma strongly_sorted_filter (R : relation A) (P : A → Prop)
    `{∀ x, Decision (P x)} (l : list A) :
  StronglySorted R l → StronglySorted R (filter P l).
Proof.
  induction 1 as [|x l Hl IH Hx]; [constructor|].
  rewrite filter_cons. destruct (decide (P x)); [|done].
  constructor; [done|].
  apply Forall_forall. intros y [_ Hy]%list_elem_of_filter.
  by eapply Forall_forall in Hx.
Qed.

(** Without equal keys a sorted list is strictly sorted. *)
Lemma strictly_sorted (l : list A) :
  StronglySorted (key_le zkey) l → NoDup (zkey <$> l) → StronglySorted (key_lt zkey) l.
Proof.
  induction 1 as [|x l Hl IH Hx]; intros Hnd; [constructor|].
  rewrite fmap_cons in Hnd. apply NoDup_cons in Hnd as [Hx' Hnd].
  constructor; [by apply IH|].
  apply Forall_forall. intros y Hy.
  pose proof (proj1 (Forall_forall _ _) Hx y Hy) as Hle.
  unfold key_le, key_lt in *.
  destruct (decide (zkey x = zkey y)) as [Heq|]; [|lia].
  exfalso. apply Hx'. rewrite Heq. by apply list_elem_of_fmap_2.
Qed.

(** In a strictly sorted list the rows up to position [i] are the rows
    whose key is at most the key at [i]. *)
Lemma take_strictly_sorted (l : list A) (i : nat) (x : A) :
  StronglySorted (key_lt zkey) l → l !! i = Some x →
  take (S i) l = filter (λ y, (zkey y ≤ zkey x)%Z) l.
Proof.
  intros Hl. revert i. induction Hl as [|a l Hl IH Ha]; intros i Hi.
  { by rewrite lookup_nil in Hi. }
  destruct i as [|i]; simpl in Hi.
  - injection Hi as ->. rewrite filter_cons_True by lia.
    simpl. rewrite take_0. f_equal. symmetry.
    apply filter_none.
    intros y Hy. pose proof (proj1 (Forall_forall _ _) Ha y Hy) as Hlt.
    unfold key_lt in Hlt. lia.
  - assert (key_lt zkey a x) as Hax.
    { eapply Forall_forall in Ha; [done|]. by eapply list_elem_of_lookup_2. }
    unfold key_lt in Hax. rewrite filter_cons_True by lia.
    simpl. f_equal. by apply IH.
Qed.

(** In a sorted list the first row with the key of [x] comes right
    after the rows of strictly smaller key. *)
Lemma RANK_sorted {K} `{EqDecision K} (key : A → K) (l : list A) (x : A) :
  (∀ a b, key a = key b ↔ zkey a = zkey b) →
  StronglySorted (key_le zkey) l → x ∈ l →
  RANK key l x = S (length (filter (λ y, (zkey y < zkey x)%Z) l)).
Proof.
  intros Hk Hl Hx. unfold RANK.
  induction Hl as [|a l Hl IH Ha]; [by apply elem_of_nil in Hx|].
  cbn [list_find].
  destruct (decide (key a = key x)) as [Heq|Hne].
  - simpl. apply Hk in Heq. rewrite filter_cons_False by lia.
    f_equal. rewrite filter_none; [done|].
    intros y Hy. pose proof (proj1 (Forall_forall _ _) Ha y Hy) as Hle.
    unfold key_le in Hle. lia.
  - apply elem_of_cons in Hx as [->|Hx]; [done|].
    specialize (IH Hx).
    pose proof (proj1 (Forall_forall _ _) Ha x Hx) as Hle.
    unfold key_le in Hle.
    assert (zkey a ≠ zkey x) by (intros ?%Hk; done).
    rewrite filter_cons_True by lia. simpl.
    destruct (list_find _ l) as [[i y]|] eqn:Hf; simpl in *; [lia|done].
Qed.
End by_key.

End SortFacts.

(** ** Grouping *)

Module GroupFacts.
Import Numeric Relational.

Lemma filter_fmap {A B} (g : A → B) (P : B → Prop) `{∀ y, Decision (P y)}
    (l : list A) :
  filter P (g <$> l) = g <$> filter (λ x, P (g x)) l.
Proof.
  induction l as [|a l IH]; [done|].
  rewrite fmap_cons, !filter_cons, IH. by destruct (decide (P (g a))).
Qed.

Lemma SUM_fmap {A} (f : A → nat) (l : list A) :
  SUM (f <$> l) = sum_list_with f l.
Proof.
  unfold SUM. induction l as [|a l IH]; [done|].
  rewrite fmap_cons. simpl. f_equal. exact IH.
Qed.

Lemma sum_list_with_fmap {A B} (f : B → nat) (g : A → B) (l : list A) :
  sum_list_with f (g <$> l) = sum_list_with (λ x, f (g x)) l.
Proof.
  induction l as [|a l IH]; [done|].
  rewrite fmap_cons. simpl. f_equal. exact IH.
Qed.

Lemma sum_list_with_ext {A} (f g : A → nat) (l : list A) :
  (∀ x, f x = g x) → sum_list_with f l = sum_list_with g l.
Proof.
  intros Hfg. induction l as [|a l IH]; [done|].
  simpl. rewrite Hfg. f_equal. exact IH.
Qed.

Lemma NoDup_fmap_inj_in {A B} (f : A → B) (l : list A) (x y : A) :
  NoDup (f <$> l) → x ∈ l → y ∈ l → f x = f y → x = y.
Proof.
  induction l as [|a l IH]; intros Hnd Hx Hy Hxy; [by apply elem_of_nil in Hx|].
  rewrite fmap_cons in Hnd. apply NoDup_cons in Hnd as [Ha Hnd].
  apply elem_of_cons in Hx as [->|Hx]; apply elem_of_cons in Hy as [->|Hy].
  - done.
  - exfalso. apply Ha. rewrite Hxy. by apply list_elem_of_fmap_2.
  - exfalso. apply Ha. rewrite <- Hxy. by apply list_elem_of_fmap_2.
  - by apply IH.
Qed.

Lemma filter_disjoint_app {A} (P1 P2 : A → Prop) `{∀ x, Decision (P1 x)}
    `{∀ x, Decision (P2 x)} (l : list A) :
  (∀ x, P1 x → P2 x → False) →
  filter P1 l ++ filter P2 l ≡ₚ filter (λ x, P1 x ∨ P2 x) l.
Proof.
  intros Hdis. induction l as [|a l IH]; [done|].
  rewrite !filter_cons.
  destruct (decide (P1 a)) as [H1|H1], (decide (P2 a)) as [H2|H2].
  - by destruct (Hdis a).
  - rewrite decide_True by (by left). simpl. by rewrite IH.
  - rewrite decide_True by (by right).
    rewrite <- Permutation_middle. by rewrite IH.
  - rewrite decide_False by tauto. done.
Qed.

Section group_by.
Context {A K : Type} `{EqDecision K} (f : A → K).

Lemma length_filter_key_cons (k : K) (ks : list K) (l : list A) :
  k ∉ ks →
  length (filter (λ e, f e ∈ k :: ks) l)
  = length (group f k l) + length (filter (λ e, f e ∈ ks) l).
Proof.
  intros Hk. unfold group. induction l as [|a l IH]; [done|].
  rewrite !filter_cons.
  destruct (decide (f a = k)) as [->|Hne].
  - rewrite decide_True by left.
    rewrite decide_False by done. simpl. lia.
  - destruct (decide (f a ∈ ks)) as [Hin|Hnin].
    + rewrite decide_True by (by right). simpl. lia.
    + rewrite decide_False; [done|].
      intros [?|?]%elem_of_cons; done.
Qed.

(** Over distinct keys, the group sizes add up to the number of rows
    whose key is one of them. *)
Lemma sum_group_sizes (ks : list K) (l : list A) :
  NoDup ks →
  sum_list_with (λ k, length (group f k l)) ks
  = length (filter (λ e, f e ∈ ks) l).
Proof.
  induction 1 as [|k ks Hk Hnd IH]; simpl.
  - rewrite SortFacts.filter_none; [done|]. intros y _ Hy. by apply elem_of_nil in Hy.
  - rewrite IH. symmetry. by apply length_filter_key_cons.
Qed.

(** [GROUP BY]: over the distinct keys of the table that satisfy [Q],
    the group sizes add up to the number of rows whose key satisfies
    [Q]. *)
Lemma sum_selected_groups (Q : K → Prop) `{∀ k, Decision (Q k)}
    (l : list A) :
  sum_list_with (λ k, length (group f k l)) (filter Q (remove_dups (f <$> l)))
  = length (filter (λ e, Q (f e)) l).
Proof.
  rewrite sum_group_sizes by apply NoDup_filter, NoDup_remove_dups.
  f_equal. apply SortFacts.filter_ext_in. intros y Hy.
  rewrite list_elem_of_filter, elem_of_remove_dups.
  split; [tauto|]. intros HQ. split; [done|]. by apply list_elem_of_fmap_2.
Qed.

(** The groups of distinct keys, one after the other, are the rows
    whose key is one of them. *)
Lemma bind_groups (ks : list K) (l : list A) :
  NoDup ks → ks ≫= (λ k, group f k l) ≡ₚ filter (λ e, f e ∈ ks) l.
Proof.
  induction 1 as [|k ks Hk Hnd IH].
  - rewrite SortFacts.filter_none; [done|].
    intros y _ Hy. by apply elem_of_nil in Hy.
  - rewrite bind_cons, IH. unfold group.
    rewrite filter_disjoint_app by (intros x -> ?; done).
    erewrite list_filter_iff; [done|].
    intros x. rewrite elem_of_cons. naive_solver.
Qed.

Lemma bind_all_groups (l : list A) :
  remove_dups (f <$> l) ≫= (λ k, group f k l) ≡ₚ l.
Proof.
  rewrite bind_groups by apply NoDup_remove_dups.
  rewrite SortFacts.filter_all; [done|].
  intros y Hy. apply elem_of_remove_dups. by apply list_elem_of_fmap_2.
Qed.

End group_by.

End GroupFacts.

(** ** Severity trend *)

Module TrendFacts.
Import Numeric Window Relational Trend Samples SortFacts GroupFacts.

Global Instance by_hour_bucket_trans : Transitive by_hour_bucket.
Proof. intros x y z. unfold by_hour_bucket. lia. Qed.

Global Instance by_hour_bucket_total : Total by_hour_bucket.
Proof. intros x y. unfold by_hour_bucket. lia. Qed.

(** *** The CTE [hourly_counts] *)

Lemma hourly_counts_keys (events : list security_event) :
  hc_key <$> hourly_counts events = remove_dups (bucket_key <$> events).
Proof.
  unfold hourly_counts. rewrite <- list_fmap_compose.
  rewrite <- (list_fmap_id (remove_dups _)) at 2.
  apply list_fmap_ext. by intros i [b s] _.
Qed.

Lemma hourly_counts_NoDup (events : list security_event) :
  NoDup (hc_key <$> hourly_counts events).
Proof. rewrite hourly_counts_keys. apply NoDup_remove_dups. Qed.

Lemma hourly_counts_elem (events : list security_event) (h : hourly_count) :
  h ∈ hourly_counts events →
  hc_key h ∈ bucket_key <$> events
  ∧ hc_event_count h = length (group bucket_key (hc_key h) events).
Proof.
  intros ([b s] & -> & Hk)%list_elem_of_fmap.
  rewrite elem_of_remove_dups in Hk. split; [exact Hk|reflexivity].
Qed.

Lemma hourly_counts_key_elem (events : list security_event) (k : Z * string) :
  k ∈ hc_key <$> hourly_counts events ↔ k ∈ bucket_key <$> events.
Proof. rewrite hourly_counts_keys. apply elem_of_remove_dups. Qed.

(** The counts of the grouped rows whose key satisfies [Q] add up to the
    number of events whose key satisfies [Q]. *)
Lemma hourly_counts_sum (Q : Z * string → Prop) `{∀ k, Decision (Q k)}
    (events : list security_event) :
  sum_list_with hc_event_count
    (filter (λ h, Q (hc_key h)) (hourly_counts events))
  = length (filter (λ e, Q (bucket_key e)) events).
Proof.
  rewrite <- (sum_selected_groups bucket_key Q events).
  unfold hourly_counts. rewrite filter_fmap, sum_list_with_fmap.
  rewrite (list_filter_iff _ Q); [done|]. by intros [b s].
Qed.

(** *** One severity partition and its window *)

Section partition.
Context (hc : list hourly_count) (Hnd : NoDup (hc_key <$> hc)) (s : string).

Lemma partition_perm :
  severity_partition s hc ≡ₚ filter (λ r, hc_severity r = s) hc.
Proof. apply merge_sort_Permutation. Qed.

Lemma partition_elem (h : hourly_count) :
  h ∈ severity_partition s hc ↔ hc_severity h = s ∧ h ∈ hc.
Proof. by rewrite partition_perm, list_elem_of_filter. Qed.

Lemma same_bucket_same_row (x y : hourly_count) :
  x ∈ hc → y ∈ hc → hc_severity x = s → hc_severity y = s →
  hc_hour_bucket x = hc_hour_bucket y → x = y.
Proof.
  intros Hx Hy Hsx Hsy Hb.
  apply (NoDup_fmap_inj_in hc_key hc); [done..|].
  unfold hc_key. congruence.
Qed.

Lemma partition_buckets_NoDup :
  NoDup (hc_hour_bucket <$> severity_partition s hc).
Proof.
  apply NoDup_fmap_2_strong.
  - intros x y [??]%partition_elem [??]%partition_elem.
    by apply same_bucket_same_row.
  - rewrite partition_perm. apply NoDup_filter.
    by eapply NoDup_fmap_1.
Qed.

Lemma partition_sorted :
  StronglySorted (key_lt hc_hour_bucket) (severity_partition s hc).
Proof.
  apply strictly_sorted; [|apply partition_buckets_NoDup].
  apply (StronglySorted_merge_sort by_hour_bucket).
Qed.

(** The frame [ROWS UNBOUNDED PRECEDING] of the row at position [i] is
    the list of the buckets of the partition at or before its bucket,
    in ascending order. *)
Lemma partition_take (i : nat) (h : hourly_count) :
  severity_partition s hc !! i = Some h →
  take (S i) (severity_partition s hc)
  = merge_sort by_hour_bucket
      (filter (at_or_before s (hc_hour_bucket h)) hc).
Proof.
  intros Hi.
  rewrite (take_strictly_sorted hc_hour_bucket _ i h partition_sorted Hi).
  apply (StronglySorted_unique_strong by_hour_bucket).
  - intros x1 x2 [_ Hx1]%list_elem_of_filter Hx2 H12 H21.
    apply partition_elem in Hx1 as [Hs1 Hx1].
    rewrite merge_sort_Permutation in Hx2.
    apply list_elem_of_filter in Hx2 as [[Hs2 _] Hx2].
    apply same_bucket_same_row; [done..|].
    unfold by_hour_bucket in *. lia.
  - apply strongly_sorted_filter.
    apply (StronglySorted_merge_sort by_hour_bucket).
  - apply (StronglySorted_merge_sort by_hour_bucket).
  - rewrite merge_sort_Permutation, partition_perm, list_filter_filter.
    erewrite list_filter_iff; [done|].
    intros x. unfold at_or_before. tauto.
Qed.

Lemma partition_running_total (i : nat) (h : hourly_count) :
  severity_partition s hc !! i = Some h →
  SUM (hc_event_count
         <$> rows_unbounded_preceding (severity_partition s hc) i)
  = cumulative_count hc s (hc_hour_bucket h).
Proof.
  intros Hi. unfold rows_unbounded_preceding, cumulative_count.
  rewrite SUM_fmap, (partition_take i h Hi).
  by rewrite merge_sort_Permutation.
Qed.

Lemma partition_window (i : nat) (h : hourly_count) :
  severity_partition s hc !! i = Some h →
  rows_preceding 6 (severity_partition s hc) i
  = trailing_window hc s (hc_hour_bucket h).
Proof.
  intros Hi. unfold rows_preceding, trailing_window, last_rows.
  rewrite <- (partition_take i h Hi).
  rewrite length_take_le; [done|].
  apply lookup_lt_Some in Hi. lia.
Qed.

Lemma window_partition_elem (r : trend_row) :
  r ∈ window_partition (severity_partition s hc)
  ↔ ∃ h, h ∈ hc ∧ hc_severity h = s ∧ r = trend_row_of hc h.
Proof.
  unfold window_partition. rewrite elem_of_lookup_imap. split.
  - intros (i & h & -> & Hi). exists h.
    pose proof (list_elem_of_lookup_2 _ _ _ Hi) as [Hs Hh]%partition_elem.
    split; [done|]. split; [done|].
    unfold trend_row_of, rounded_mean.
    rewrite (partition_running_total i h Hi), (partition_window i h Hi).
    by rewrite Hs.
  - intros (h & Hh & Hs & ->).
    assert (h ∈ severity_partition s hc) as [i Hi]%list_elem_of_lookup_1
      by (by apply partition_elem).
    exists i, h. split; [|done].
    unfold trend_row_of, rounded_mean.
    rewrite (partition_running_total i h Hi), (partition_window i h Hi).
    by rewrite Hs.
Qed.
End partition.

(** The rows of the CTE [running] are the rows of [hourly_counts], each
    with its cumulative count and the rounded mean of its trailing
    window. *)
Lemma running_elem (hc : list hourly_count) (r : trend_row) :
  NoDup (hc_key <$> hc) →
  r ∈ running hc ↔ ∃ h, h ∈ hc ∧ r = trend_row_of hc h.
Proof.
  intros Hnd. unfold running. rewrite list_elem_of_bind. split.
  - intros (s & (h & Hh & _ & ->)%window_partition_elem & _); [|done].
    by exists h.
  - intros (h & Hh & ->). exists (hc_severity h). split.
    + apply window_partition_elem; [done|]. by exists h.
    + apply elem_of_remove_dups. by apply list_elem_of_fmap_2.
Qed.

Lemma window_partition_keys (part : list hourly_count) :
  tr_key <$> window_partition part = hc_key <$> part.
Proof.
  apply list_eq. intros i. unfold window_partition.
  rewrite !list_lookup_fmap, list_lookup_imap.
  by destruct (part !! i).
Qed.

(** The keys of [running] are the keys of [hourly_counts], each once. *)
Lemma running_keys (hc : list hourly_count) :
  tr_key <$> running hc ≡ₚ hc_key <$> hc.
Proof.
  rewrite <- (bind_all_groups hc_severity hc) at 2. unfold running.
  induction (remove_dups (hc_severity <$> hc)) as [|s ks IH]; [done|].
  rewrite !bind_cons, !fmap_app, IH, window_partition_keys.
  unfold severity_partition, group. by rewrite merge_sort_Permutation.
Qed.

(** *** The rows the endpoint returns *)

Section endpoint.
Context (sev_le : relation string) `{!RelDecision sev_le}.
Context (events : list security_event) (limit : Z).

Lemma trend_elem (r : trend_row) :
  r ∈ get_severity_trend sev_le events limit
  ↔ ∃ h, h ∈ hourly_counts events
         ∧ r = trend_row_of (hourly_counts events) h
         ∧ at_or_after (cutoff (hourly_counts events) limit) r.
Proof.
  unfold get_severity_trend. cbv zeta.
  rewrite merge_sort_Permutation, list_elem_of_filter.
  rewrite running_elem by apply hourly_counts_NoDup.
  split.
  - intros [Hc (h & Hh & ->)]. by exists h.
  - intros (h & Hh & -> & Hc). split; [done|]. by exists h.
Qed.

(** A later bucket of a returned partition is returned too. *)
Lemma trend_upward_closed (r : trend_row) (h : hourly_count) :
  r ∈ get_severity_trend sev_le events limit →
  h ∈ hourly_counts events →
  (hour_bucket r ≤ hc_hour_bucket h)%Z →
  trend_row_of (hourly_counts events) h
    ∈ get_severity_trend sev_le events limit.
Proof.
  intros (h0 & _ & _ & Hc)%trend_elem Hh Hle.
  apply trend_elem. exists h. split; [done|]. split; [done|].
  destruct (cutoff _ _) as [c|]; simpl in *; [lia|done].
Qed.
End endpoint.

(** The cumulative count counts events. *)
Lemma cumulative_count_events (events : list security_event) (s : string)
    (b : Z) :
  cumulative_count (hourly_counts events) s b
  = length (filter (λ e, severity e = s
                         ∧ (date_trunc_hour (timestamp e) ≤ b)%Z) events).
Proof.
  unfold cumulative_count.
  pose proof (hourly_counts_sum (λ k, k.2 = s ∧ (k.1 ≤ b)%Z) events) as Hsum.
  etrans; [|etrans; [exact Hsum|]];
    (f_equal; try done; by apply list_filter_iff).
Qed.

(** C3.  For every row the severity trend returns: its running total is
    the cumulative sum of the per-bucket counts over the buckets of its
    severity partition (of the whole grouped data) at or before its
    bucket, which is the number of events of that severity up to that
    bucket; running totals do not decrease along ascending buckets of a
    partition; and the running total of the last returned bucket of a
    partition is the number of events of that severity. *)
Theorem running_total_cumulative (sev_le : relation string)
    `{!RelDecision sev_le} (events : list security_event) (limit : Z)
    (r : trend_row) :
  r ∈ get_severity_trend sev_le events limit →
  running_total r
    = cumulative_count (hourly_counts events) (tr_severity r) (hour_bucket r)
  ∧ running_total r
    = length (filter (λ e, severity e = tr_severity r
                           ∧ (date_trunc_hour (timestamp e) ≤ hour_bucket r)%Z)
                     events)
  ∧ (∀ r', r' ∈ get_severity_trend sev_le events limit →
           tr_severity r' = tr_severity r →
           (hour_bucket r ≤ hour_bucket r')%Z →
           running_total r ≤ running_total r')
  ∧ ((∀ r', r' ∈ get_severity_trend sev_le events limit →
            tr_severity r' = tr_severity r →
            (hour_bucket r' ≤ hour_bucket r)%Z) →
     running_total r
     = length (filter (λ e, severity e = tr_severity r) events)).
Proof.
  intros Hr.
  assert (∀ x, x ∈ get_severity_trend sev_le events limit →
               running_total x
               = length (filter (λ e, severity e = tr_severity x
                   ∧ (date_trunc_hour (timestamp e) ≤ hour_bucket x)%Z)
                   events)) as Hcount.
  { intros x (h & _ & -> & _)%trend_elem. simpl.
    apply cumulative_count_events. }
  split; [|split; [|split]].
  - apply trend_elem in Hr as (h & _ & -> & _). done.
  - by apply Hcount.
  - intros r' Hr' Hs Hb. rewrite (Hcount r Hr), (Hcount r' Hr'), Hs.
    apply length_filter_mono. intros e _ [? ?]. split; [done|lia].
  - intros Hlast. rewrite (Hcount r Hr). f_equal.
    apply filter_ext_in. intros e He. split; [tauto|].
    intros Hs. split; [done|].
    assert (bucket_key e ∈ hc_key <$> hourly_counts events) as Hk.
    { apply hourly_counts_key_elem. by apply list_elem_of_fmap_2. }
    apply list_elem_of_fmap in Hk as (h & Hkey & Hh).
    injection Hkey as Hb Hsev.
    destruct (decide (date_trunc_hour (timestamp e) ≤ hour_bucket r)%Z)
      as [|Hgt]; [done|].
    assert (trend_row_of (hourly_counts events) h
              ∈ get_severity_trend sev_le events limit) as Hin.
    { apply (trend_upward_closed sev_le events limit r); [done..|lia]. }
    apply Hlast in Hin; simpl in *; [lia|congruence].
Qed.

(** The theorem at the last critical bucket of the sample trend: its
    running total 5 counts the five critical events. *)
Lemma running_total_cumulative_witness :
  sample_last_row ∈ get_severity_trend text_le sample_events 5
  ∧ running_total sample_last_row
    = length (filter (λ e, severity e = "critical"
                           ∧ (date_trunc_hour (timestamp e) ≤ 43200000000)%Z)
                     sample_events).
Proof.
  assert (sample_last_row ∈ get_severity_trend text_le sample_events 5)
    as Hin by elem_of_computed.
  split; [exact Hin|].
  exact (proj1 (proj2 (running_total_cumulative text_le sample_events 5
                         sample_last_row Hin))).
Defined.

Lemma max_list_with_elem {A} (f : A → nat) (l : list A) (x : A) :
  x ∈ l → f x ≤ max_list_with f l.
Proof.
  induction 1 as [x l|x y l Hx IH]; simpl; lia.
Qed.

Lemma NoDup_all_equal {A} (l : list A) (x : A) :
  NoDup l → x ∈ l → (∀ y, y ∈ l → y = x) → l = [x].
Proof.
  intros Hnd Hx Hall. destruct l as [|a l]; [by apply elem_of_nil in Hx|].
  assert (a = x) as -> by (apply Hall; left).
  f_equal. destruct l as [|b l]; [done|].
  assert (b = x) as -> by (apply Hall; right; left).
  apply NoDup_cons in Hnd as [Hnin _]. exfalso. apply Hnin. left.
Qed.

Lemma length_last_rows {A} (n : nat) (l : list A) :
  length (last_rows n l) = n `min` length l.
Proof. unfold last_rows. rewrite length_drop. lia. Qed.

Lemma trailing_window_length (hc : list hourly_count) (s : string) (b : Z) :
  length (trailing_window hc s b)
  = 7 `min` length (filter (at_or_before s b) hc).
Proof.
  unfold trailing_window. rewrite length_last_rows.
  by rewrite merge_sort_Permutation.
Qed.

Lemma trailing_window_elem (hc : list hourly_count) (s : string) (b : Z)
    (h : hourly_count) :
  h ∈ trailing_window hc s b → h ∈ hc ∧ hc_severity h = s.
Proof.
  unfold trailing_window, last_rows. intros Hh%subseteq_drop.
  rewrite merge_sort_Permutation in Hh.
  apply list_elem_of_filter in Hh as [[? ?] ?]. done.
Qed.

(** Ten events of one hour, four high and six low, give two rows: high
    with count, running total and moving average 4, low with 6. *)
Example trend_of_one_bucket :
  get_severity_trend text_le one_hour_events 168
  = [ {| hour_bucket := 0; tr_severity := "high"; event_count := 4;
         running_total := 4; moving_avg_7h := Some (400 # 100)%Q |};
      {| hour_bucket := 0; tr_severity := "low"; event_count := 6;
         running_total := 6; moving_avg_7h := Some (600 # 100)%Q |} ].
Proof. by vm_compute. Qed.

(** The window functions run over the whole partition before the cutoff
    applies: over the sample events and a lookback of five hours, the
    first row returned for the severity high has count 2 and running
    total 6, the buckets before the cutoff included. *)
Example running_total_spans_the_cutoff :
  head (get_severity_trend text_le sample_events 5)
  = Some {| hour_bucket := 25200000000; tr_severity := "high";
            event_count := 2; running_total := 6;
            moving_avg_7h := Some (200 # 100)%Q |}.
Proof. by vm_compute. Qed.

(** C4.  For every row the severity trend returns: its moving average is
    the arithmetic mean, rounded to two decimals, of the counts over the
    trailing window of its severity partition (of the whole grouped
    data), which holds the last seven buckets at or before its bucket, or
    all of them when they are fewer; at the first bucket of a partition
    the moving average is the bucket's own count; and every moving
    average lies between 0 and the largest bucket count of the
    partition. *)
Theorem moving_avg_trailing_mean (sev_le : relation string)
    `{!RelDecision sev_le} (events : list security_event) (limit : Z)
    (r : trend_row) :
  r ∈ get_severity_trend sev_le events limit →
  let hc := hourly_counts events in
  let w := trailing_window hc (tr_severity r) (hour_bucket r) in
  moving_avg_7h r = rounded_mean w
  ∧ length w
    = 7 `min` length (filter (at_or_before (tr_severity r) (hour_bucket r)) hc)
  ∧ ((∀ h, h ∈ hc → hc_severity h = tr_severity r →
           (hour_bucket r ≤ hc_hour_bucket h)%Z) →
     ∃ q, moving_avg_7h r = Some q
          ∧ (q == inject_Z (Z.of_nat (event_count r)))%Q)
  ∧ ∃ q, moving_avg_7h r = Some q
         ∧ (0 <= q)%Q
         ∧ (q <= inject_Z (Z.of_nat
                 (max_list_with hc_event_count
                    (filter (λ h, hc_severity h = tr_severity r) hc))))%Q.
Proof.
  intros (h & Hh & -> & _)%trend_elem hc w. subst w hc. simpl.
  pose proof (hourly_counts_NoDup events) as Hnd.
  set (hc := hourly_counts events) in *.
  set (w := trailing_window hc (hc_severity h) (hc_hour_bucket h)).
  assert (h ∈ filter (at_or_before (hc_severity h) (hc_hour_bucket h)) hc)
    as Hself.
  { apply list_elem_of_filter. split; [|done]. split; [done|lia]. }
  split; [done|]. split; [apply trailing_window_length|]. split.
  - intros Hfirst.
    assert (filter (at_or_before (hc_severity h) (hc_hour_bucket h)) hc = [h])
      as Hone.
    { apply NoDup_all_equal; [|done|].
      - apply NoDup_filter. by eapply NoDup_fmap_1.
      - intros y [[Hs Hb] Hy]%list_elem_of_filter.
        apply (same_bucket_same_row hc Hnd (hc_severity h)); [done..|].
        specialize (Hfirst y Hy Hs). lia. }
    assert (w = [h]) as ->.
    { unfold w, trailing_window. rewrite Hone.
      assert (merge_sort by_hour_bucket [h] = [h]) as ->; [|done].
      apply Permutation_singleton_r, merge_sort_Permutation. }
    unfold rounded_mean.
    change (hc_event_count <$> [h]) with [hc_event_count h].
    destruct (NumericFacts.AVG_singleton (hc_event_count h)) as (a & -> & Ha).
    eexists. split; [reflexivity|].
    apply NumericFacts.ROUND_Z; [lia|done].
  - pose proof (trailing_window_length hc (hc_severity h) (hc_hour_bucket h))
      as Hlen.
    fold w in Hlen.
    assert (∀ y, y ∈ w → y ∈ hc ∧ hc_severity y = hc_severity h) as Hsub.
    { intros y. apply trailing_window_elem. }
    destruct w as [|x w'].
    { destruct (filter _ hc); [by apply elem_of_nil in Hself|simpl in Hlen; lia]. }
    unfold rounded_mean.
    destruct (AVG (hc_event_count <$> x :: w')) as [a|] eqn:Ha; [|done].
    exists (ROUND a 2). split; [done|].
    eapply NumericFacts.AVG_bounds in Ha as [H0 Hm].
    + apply NumericFacts.ROUND_bounds; done.
    + intros n (y & -> & Hy)%list_elem_of_fmap.
      apply max_list_with_elem.
      apply Hsub in Hy as [? ?].
      by apply list_elem_of_filter.
Qed.

(** The theorem at the first critical bucket of the sample trend. *)
Lemma moving_avg_trailing_mean_witness :
  sample_first_row ∈ get_severity_trend text_le sample_events 5
  ∧ moving_avg_7h sample_first_row
    = rounded_mean (trailing_window (hourly_counts sample_events)
                      "critical" 36000000000).
Proof.
  assert (sample_first_row ∈ get_severity_trend text_le sample_events 5)
    as Hin by elem_of_computed.
  split; [exact Hin|].
  exact (proj1 (moving_avg_trailing_mean text_le sample_events 5
                  sample_first_row Hin)).
Defined.

(** *** The cutoff and the order of the result *)

Lemma hc_bucket_elem (events : list security_event) (b : Z) :
  b ∈ hc_hour_bucket <$> hourly_counts events
  ↔ ∃ e, e ∈ events ∧ date_trunc_hour (timestamp e) = b.
Proof.
  rewrite list_elem_of_fmap. split.
  - intros (h & -> & Hh).
    assert (hc_key h ∈ bucket_key <$> events) as (e & Hk & He)%list_elem_of_fmap.
    { apply hourly_counts_key_elem. by apply list_elem_of_fmap_2. }
    exists e. split; [done|]. by injection Hk as -> _.
  - intros (e & He & <-).
    assert (bucket_key e ∈ hc_key <$> hourly_counts events)
      as (h & Hk & Hh)%list_elem_of_fmap.
    { apply hourly_counts_key_elem. by apply list_elem_of_fmap_2. }
    exists h. split; [|done]. by injection Hk as -> _.
Qed.

Lemma MAX_max_bucket (events : list security_event) (m : Z) :
  MAX (hc_hour_bucket <$> hourly_counts events) = Some m
  ↔ max_bucket events m.
Proof.
  rewrite NumericFacts.MAX_Some, hc_bucket_elem. unfold max_bucket.
  split; intros [Hm Hall]; (split; [done|]).
  - intros e He. apply Hall, hc_bucket_elem. by exists e.
  - intros x (e & He & <-)%hc_bucket_elem. by apply Hall.
Qed.

Lemma key_at_or_after_cutoff (events : list security_event) (limit : Z)
    (k : Z * string) :
  key_at_or_after (cutoff (hourly_counts events) limit) k
  ↔ ∃ m, max_bucket events m ∧ (m - limit * HOUR ≤ k.1)%Z.
Proof.
  unfold cutoff.
  destruct (MAX (hc_hour_bucket <$> hourly_counts events)) as [m|] eqn:Hm;
    simpl.
  - apply MAX_max_bucket in Hm. split; [by exists m|].
    intros (m' & Hm' & Hle).
    apply MAX_max_bucket in Hm, Hm'. congruence.
  - split; [done|]. intros (m' & Hm' & _).
    apply MAX_max_bucket in Hm'. congruence.
Qed.

Lemma trend_keys (sev_le : relation string) `{!RelDecision sev_le}
    (events : list security_event) (limit : Z) :
  tr_key <$> get_severity_trend sev_le events limit
  ≡ₚ filter (key_at_or_after (cutoff (hourly_counts events) limit))
       (remove_dups (bucket_key <$> events)).
Proof.
  unfold get_severity_trend. cbv zeta.
  rewrite merge_sort_Permutation.
  rewrite <- hourly_counts_keys, <- running_keys, filter_fmap.
  apply Permutation_refl'. f_equal.
Qed.

Section order.
Context (sev_le : relation string).
Context `{!RelDecision sev_le, !Total sev_le, !Transitive sev_le}.

Global Instance trend_order_total : Total (trend_order sev_le).
Proof.
  intros x y. unfold trend_order.
  destruct (Z.lt_trichotomy (hour_bucket x) (hour_bucket y))
    as [?|[Heq|?]]; [by left; left| |by right; left].
  destruct (total sev_le (tr_severity x) (tr_severity y)).
  - left. by right.
  - right. by right.
Qed.

Global Instance trend_order_trans : Transitive (trend_order sev_le).
Proof.
  intros x y z. unfold trend_order.
  intros [?|[? ?]] [?|[? ?]]; [left; lia..|].
  right. split; [congruence|]. by etrans.
Qed.
End order.

(** C5.  For every event set and lookback [limit], the severity trend
    returns, each once, the (bucket, severity) groups of the events whose
    bucket is at or after the latest bucket of the whole grouped data
    minus [limit] hours, each with the count of its events, in ascending
    order of bucket and then of severity; and it returns the empty list
    for the empty event set. *)
Theorem trend_rows_from_cutoff (sev_le : relation string)
    `{!RelDecision sev_le, !Total sev_le, !Transitive sev_le}
    (events : list security_event) (limit : Z) :
  (∀ b s, (b, s) ∈ tr_key <$> get_severity_trend sev_le events limit
          ↔ (b, s) ∈ bucket_key <$> events
            ∧ ∃ m, max_bucket events m ∧ (m - limit * HOUR ≤ b)%Z)
  ∧ NoDup (tr_key <$> get_severity_trend sev_le events limit)
  ∧ (∀ r, r ∈ get_severity_trend sev_le events limit →
          event_count r
          = length (filter (λ e, bucket_key e = tr_key r) events))
  ∧ StronglySorted (trend_order sev_le)
      (get_severity_trend sev_le events limit)
  ∧ get_severity_trend sev_le [] limit = [].
Proof.
  split; [|split; [|split; [|split]]].
  - intros b s. rewrite trend_keys, list_elem_of_filter.
    rewrite elem_of_remove_dups, key_at_or_after_cutoff. simpl. tauto.
  - rewrite trend_keys. apply NoDup_filter, NoDup_remove_dups.
  - intros r (h & Hh & -> & _)%trend_elem. simpl.
    by apply hourly_counts_elem in Hh as [_ ->].
  - apply StronglySorted_merge_sort; apply _.
  - reflexivity.
Qed.

(** The theorem at the sample events, over the byte-wise order of the
    severity labels. *)
Lemma trend_rows_from_cutoff_witness :
  Total text_le ∧ Transitive text_le
  ∧ NoDup (tr_key <$> get_severity_trend text_le sample_events 5)
  ∧ StronglySorted (trend_order text_le)
      (get_severity_trend text_le sample_events 5).
Proof.
  split; [exact text_le_total|]. split; [exact text_le_trans|].
  pose proof (@trend_rows_from_cutoff text_le text_le_dec text_le_total
                text_le_trans sample_events 5) as (_ & Hnd & _ & Hs & _).
  split; [exact Hnd|exact Hs].
Defined.
End TrendFacts.

(** ** Top attackers *)

Module RankingFacts.
Import Numeric Window Relational Ranking Samples SortFacts GroupFacts.

Global Instance by_total_desc_trans : Transitive by_total_desc.
Proof. intros x y z. unfold by_total_desc. lia. Qed.
Global Instance by_total_desc_total : Total by_total_desc.
Proof. intros x y. unfold by_total_desc. lia. Qed.
Global Instance by_total_asc_trans : Transitive by_total_asc.
Proof. intros x y z. unfold by_total_asc. lia. Qed.
Global Instance by_total_asc_total : Total by_total_asc.
Proof. intros x y. unfold by_total_asc. lia. Qed.
Global Instance by_rank_trans : Transitive by_rank.
Proof. intros x y z. unfold by_rank. lia. Qed.
Global Instance by_rank_total : Total by_rank.
Proof. intros x y. unfold by_rank. lia. Qed.

Lemma StronglySorted_impl {A} (R1 R2 : relation A) (l : list A) :
  (∀ x y, R1 x y → R2 x y) → StronglySorted R1 l → StronglySorted R2 l.
Proof.
  intros HR. induction 1 as [|x l Hl IH Hx]; constructor; [done|].
  eapply Forall_impl; [exact Hx|]. intros y. apply HR.
Qed.

(** *** The CTE [attacker_stats] *)

Lemma attacker_stats_ips (events : list security_event) :
  st_source_ip <$> attacker_stats events
  = remove_dups (source_ip <$> events).
Proof.
  unfold attacker_stats. rewrite <- list_fmap_compose.
  rewrite <- (list_fmap_id (remove_dups _)) at 2.
  by apply list_fmap_ext.
Qed.

Lemma attacker_stats_total (events : list security_event) (x : attacker_stat) :
  x ∈ attacker_stats events →
  total_events x = length (group source_ip (st_source_ip x) events)
  ∧ st_source_ip x ∈ source_ip <$> events.
Proof.
  intros (ip & -> & Hip)%list_elem_of_fmap.
  rewrite elem_of_remove_dups in Hip. done.
Qed.

(** *** The window columns of [ranked] *)

Lemma ranked_fmap (stats : list attacker_stat) :
  ranked stats = ranked_row_of stats <$> stats.
Proof. reflexivity. Qed.

Lemma ranked_elem (stats : list attacker_stat) (r : ranked_row) :
  r ∈ ranked stats ↔ ∃ x, x ∈ stats ∧ r = ranked_row_of stats x.
Proof.
  rewrite ranked_fmap, list_elem_of_fmap.
  split; intros (x & ? & ?); by exists x.
Qed.

(** [RANK() OVER (ORDER BY total_events DESC)] is one more than the
    number of rows with a strictly greater total. *)
Lemma RANK_desc (stats : list attacker_stat) (x : attacker_stat) :
  x ∈ stats →
  RANK total_events (merge_sort by_total_desc stats) x
  = S (higher stats (total_events x)).
Proof.
  intros Hx.
  rewrite (RANK_sorted (λ y, (- Z.of_nat (total_events y))%Z)).
  - f_equal. unfold higher. rewrite merge_sort_Permutation.
    f_equal. apply list_filter_iff. intros y. lia.
  - intros a b. lia.
  - eapply StronglySorted_impl;
      [|apply (StronglySorted_merge_sort by_total_desc)].
    intros a b. unfold by_total_desc, key_le. lia.
  - by rewrite merge_sort_Permutation.
Qed.

(** [RANK() OVER (ORDER BY total_events)], the rank [PERCENT_RANK] uses,
    is one more than the number of rows with a strictly smaller total. *)
Lemma RANK_asc (stats : list attacker_stat) (x : attacker_stat) :
  x ∈ stats →
  RANK total_events (merge_sort by_total_asc stats) x
  = S (lower stats (total_events x)).
Proof.
  intros Hx.
  rewrite (RANK_sorted (λ y, Z.of_nat (total_events y))).
  - f_equal. unfold lower. rewrite merge_sort_Permutation.
    f_equal. apply list_filter_iff. intros y. lia.
  - intros a b. lia.
  - eapply StronglySorted_impl;
      [|apply (StronglySorted_merge_sort by_total_asc)].
    intros a b. unfold by_total_asc, key_le. lia.
  - by rewrite merge_sort_Permutation.
Qed.

Lemma attack_rank_higher (stats : list attacker_stat) (r : ranked_row) :
  r ∈ ranked stats →
  attack_rank r = S (higher stats (total_events (stat r))).
Proof. intros (x & Hx & ->)%ranked_elem. simpl. by apply RANK_desc. Qed.

Lemma higher_split (stats : list attacker_stat) (t t' : nat) :
  t' < t →
  (∀ x, x ∈ stats → ¬ (t' < total_events x < t)) →
  higher stats t' = higher stats t + tied stats t.
Proof.
  intros Hlt Hgap. unfold higher, tied.
  rewrite <- length_app, filter_disjoint_app by (cbv beta; intros; lia).
  f_equal. apply filter_ext_in. intros y Hy. specialize (Hgap y Hy). lia.
Qed.

Lemma higher_antitone (stats : list attacker_stat) (t t' : nat) :
  t' ≤ t → higher stats t ≤ higher stats t'.
Proof.
  intros Hle. unfold higher.
  apply length_filter_mono. intros y _. lia.
Qed.

Lemma ranked_stat_elem (stats : list attacker_stat) (r : ranked_row) :
  r ∈ ranked stats → stat r ∈ stats.
Proof. by intros (x & Hx & ->)%ranked_elem. Qed.

Lemma ranked_of_stat (stats : list attacker_stat) (x : attacker_stat) :
  x ∈ stats → ∃ r, r ∈ ranked stats ∧ stat r = x.
Proof.
  intros Hx. exists (ranked_row_of stats x). split; [|done].
  apply ranked_elem. by exists x.
Qed.

Lemma top_attackers_elem (events : list security_event) (limit : Z)
    (r : ranked_row) :
  r ∈ get_top_attackers events limit
  ↔ r ∈ ranked (attacker_stats events)
    ∧ (Z.of_nat (attack_rank r) ≤ limit)%Z.
Proof.
  unfold get_top_attackers.
  rewrite merge_sort_Permutation, list_elem_of_filter. tauto.
Qed.

Lemma higher_totals (stats : list attacker_stat) (t : nat) :
  higher stats t = length (filter (λ n, t < n) (total_events <$> stats)).
Proof. unfold higher. by rewrite filter_fmap, length_fmap. Qed.

(** C1.  The rank of the top-attackers query is the competition rank
    over the per-source totals: the rank of an entity is one more than
    the number of entities with a strictly greater total; so rank 1 goes
    to exactly the entities with the maximum total, entities with equal
    totals have equal ranks, and the rank of the next distinct total is
    the rank of the tie group plus its size.  Three source addresses
    with totals 10, 10, 5 get the ranks 1, 1, 3. *)
Theorem rank_is_competition_rank (events : list security_event) :
  let stats := attacker_stats events in
  (∀ limit r, r ∈ get_top_attackers events limit → r ∈ ranked stats)
  ∧ (∀ r, r ∈ ranked stats →
          attack_rank r = S (higher stats (total_events (stat r))))
  ∧ (∀ r, r ∈ ranked stats →
          attack_rank r = 1
          ↔ ∀ r', r' ∈ ranked stats →
                  total_events (stat r') ≤ total_events (stat r))
  ∧ (∀ r r', r ∈ ranked stats → r' ∈ ranked stats →
             total_events (stat r) = total_events (stat r') →
             attack_rank r = attack_rank r')
  ∧ (∀ r r', r ∈ ranked stats → r' ∈ ranked stats →
             total_events (stat r') < total_events (stat r) →
             (∀ r'', r'' ∈ ranked stats →
                     ¬ (total_events (stat r') < total_events (stat r'')
                        < total_events (stat r))) →
             attack_rank r'
             = attack_rank r + tied stats (total_events (stat r)))
  ∧ (total_events <$> stats ≡ₚ [10; 10; 5] →
     attack_rank <$> ranked stats ≡ₚ [1; 1; 3]
     ∧ ∀ r, r ∈ ranked stats →
            (total_events (stat r) = 10 ∧ attack_rank r = 1)
            ∨ (total_events (stat r) = 5 ∧ attack_rank r = 3)).
Proof.
  intros stats. split; [|split; [|split; [|split; [|split]]]].
  - by intros limit r [? _]%top_attackers_elem.
  - apply attack_rank_higher.
  - intros r Hr. rewrite (attack_rank_higher stats r Hr). split.
    + intros Hrank r' Hr'.
      destruct (decide (total_events (stat r') ≤ total_events (stat r)))
        as [|Hgt]; [done|].
      assert (higher stats (total_events (stat r)) = 0) as Hz by lia.
      apply nil_length_inv in Hz.
      apply ranked_stat_elem in Hr'.
      exfalso. revert Hr'.
      apply (filter_nil_not_elem_of _ _ _ Hz). lia.
    + intros Hmax. f_equal. unfold higher.
      rewrite filter_none; [done|].
      intros y (r' & Hr' & <-)%ranked_of_stat. specialize (Hmax r' Hr'). lia.
  - intros r r' Hr Hr' Heq.
    by rewrite (attack_rank_higher stats r Hr),
               (attack_rank_higher stats r' Hr'), Heq.
  - intros r r' Hr Hr' Hlt Hgap.
    rewrite (attack_rank_higher stats r Hr),
            (attack_rank_higher stats r' Hr').
    rewrite (higher_split stats (total_events (stat r))
               (total_events (stat r'))); [lia|done|].
    intros y (r'' & Hr'' & <-)%ranked_of_stat. by apply Hgap.
  - intros Hperm. split.
    { assert (attack_rank <$> ranked stats
              = (λ t, S (length (filter (λ n, t < n) [10; 10; 5])))
                  <$> (total_events <$> stats)) as ->.
      { rewrite ranked_fmap, <- !list_fmap_compose.
        apply list_fmap_ext. intros i x Hx. simpl.
        rewrite RANK_desc by (by eapply list_elem_of_lookup_2).
        by rewrite higher_totals, Hperm. }
      by rewrite Hperm. }
    intros r Hr.
    rewrite (attack_rank_higher stats r Hr), higher_totals, Hperm.
    apply ranked_stat_elem in Hr.
    assert (total_events (stat r) ∈ [10; 10; 5]) as Hin.
    { rewrite <- Hperm. by apply list_elem_of_fmap_2. }
    set_unfold in Hin. destruct Hin as [->|[->|[->|[]]]]; auto.
Qed.

(** The theorem at the sample events, whose three source addresses have
    the totals 10, 10 and 5: the third one gets rank 3. *)
Lemma rank_is_competition_rank_witness :
  total_events <$> attacker_stats sample_events ≡ₚ [10; 10; 5]
  ∧ sample_third_row ∈ ranked (attacker_stats sample_events)
  ∧ attack_rank <$> ranked (attacker_stats sample_events) ≡ₚ [1; 1; 3]
  ∧ ((total_events (stat sample_third_row) = 10
      ∧ attack_rank sample_third_row = 1)
     ∨ (total_events (stat sample_third_row) = 5
        ∧ attack_rank sample_third_row = 3)).
Proof.
  assert (total_events <$> attacker_stats sample_events ≡ₚ [10; 10; 5])
    as Hperm by (apply Permutation_refl'; vm_compute; reflexivity).
  assert (sample_third_row ∈ ranked (attacker_stats sample_events))
    as Hin by elem_of_computed.
  split; [exact Hperm|]. split; [exact Hin|].
  destruct (proj2 (proj2 (proj2 (proj2 (proj2
              (rank_is_competition_rank sample_events))))) Hperm)
    as [Hranks Hrow].
  split; [exact Hranks|exact (Hrow sample_third_row Hin)].
Defined.

Lemma PERCENT_RANK_lower (stats : list attacker_stat) (x : attacker_stat) :
  x ∈ stats →
  PERCENT_RANK total_events (merge_sort by_total_asc stats) x
  = if decide (length stats = 1) then 0%Q
    else (inject_Z (Z.of_nat (S (lower stats (total_events x))) - 1)
          / inject_Z (Z.of_nat (length stats) - 1))%Q.
Proof.
  intros Hx. unfold PERCENT_RANK. rewrite (RANK_asc stats x Hx).
  assert (length (merge_sort by_total_asc stats) = length stats) as ->
    by (by rewrite merge_sort_Permutation).
  done.
Qed.

(** C2.  The percentile of every entity is the percent rank of its
    total: with [n] the number of entities, which is the number of
    distinct source addresses, and [pos] the rank of the total in
    ascending order (one more than the number of entities with a strictly
    smaller total), it is (pos - 1) / (n - 1) rounded to four decimals,
    and 0 when [n] is 1; entities with equal totals have the same
    percentile. *)
Theorem percentile_is_percent_rank (events : list security_event) :
  let stats := attacker_stats events in
  let n := length stats in
  n = length (remove_dups (source_ip <$> events))
  ∧ (∀ r, r ∈ ranked stats →
          let pos := S (lower stats (total_events (stat r))) in
          (n = 1 → (percentile r == 0)%Q)
          ∧ (n ≠ 1 →
             percentile r
             = ROUND (inject_Z (Z.of_nat pos - 1)
                      / inject_Z (Z.of_nat n - 1)) 4))
  ∧ (∀ r r', r ∈ ranked stats → r' ∈ ranked stats →
             total_events (stat r) = total_events (stat r') →
             percentile r = percentile r').
Proof.
  intros stats n. split; [|split].
  - unfold n, stats. by rewrite <- attacker_stats_ips, length_fmap.
  - intros r (x & Hx & ->)%ranked_elem pos. simpl in *.
    rewrite (PERCENT_RANK_lower stats x Hx). fold n.
    destruct (decide (n = 1)) as [Hn|Hn]; split; try done.
  - intros r r' (x & Hx & ->)%ranked_elem (x' & Hx' & ->)%ranked_elem Heq.
    simpl in *.
    by rewrite (PERCENT_RANK_lower stats x Hx),
               (PERCENT_RANK_lower stats x' Hx'), Heq.
Qed.

(** The theorem at the sample events: the third source address, with
    the smallest total among three, has percentile (1 - 1) / (3 - 1). *)
Lemma percentile_is_percent_rank_witness :
  sample_third_row ∈ ranked (attacker_stats sample_events)
  ∧ length (attacker_stats sample_events) ≠ 1
  ∧ percentile sample_third_row
    = ROUND (inject_Z (Z.of_nat
               (S (lower (attacker_stats sample_events)
                     (total_events (stat sample_third_row)))) - 1)
             / inject_Z (Z.of_nat (length (attacker_stats sample_events)) - 1))
            4.
Proof.
  assert (sample_third_row ∈ ranked (attacker_stats sample_events))
    as Hin by elem_of_computed.
  assert (length (attacker_stats sample_events) ≠ 1)
    as Hn by (vm_compute; discriminate).
  split; [exact Hin|]. split; [exact Hn|].
  exact (proj2 (proj1 (proj2 (percentile_is_percent_rank sample_events))
                  sample_third_row Hin) Hn).
Defined.

Lemma NoDup_fmap_filter {A B} (f : A → B) (P : A → Prop)
    `{∀ x, Decision (P x)} (l : list A) :
  NoDup (f <$> l) → NoDup (f <$> filter P l).
Proof.
  induction l as [|a l IH]; [done|].
  rewrite fmap_cons, filter_cons. intros [Ha Hnd]%NoDup_cons.
  destruct (decide (P a)); [|by apply IH].
  rewrite fmap_cons. apply NoDup_cons. split; [|by apply IH].
  intros (y & Hy & [_ Hin]%list_elem_of_filter)%list_elem_of_fmap.
  apply Ha. rewrite Hy. by apply list_elem_of_fmap_2.
Qed.

Lemma ranked_ips (stats : list attacker_stat) :
  (λ r, st_source_ip (stat r)) <$> ranked stats = st_source_ip <$> stats.
Proof. rewrite ranked_fmap, <- list_fmap_compose. done. Qed.

(** The rows of a total at least [t] are the rows above [t] and the rows
    tied at [t]. *)
Lemma at_least_split (stats : list attacker_stat) (t : nat) :
  length (filter (λ x, t ≤ total_events x) stats)
  = higher stats t + tied stats t.
Proof.
  unfold higher, tied.
  rewrite <- length_app, filter_disjoint_app by (cbv beta; intros; lia).
  f_equal. apply list_filter_iff. intros y. lia.
Qed.

(** C6.  For every event set and limit, the top-attackers query returns
    exactly the ranked entities of rank at most [limit], each entity
    once, in ascending order of rank; entities with equal totals are
    returned together or not at all; and when the tie group of a
    returned entity reaches beyond position [limit], more than [limit]
    entities are returned. *)
Theorem top_attackers_within_limit (events : list security_event)
    (limit : Z) :
  let stats := attacker_stats events in
  let out := get_top_attackers events limit in
  (∀ r, r ∈ out ↔ r ∈ ranked stats ∧ (Z.of_nat (attack_rank r) ≤ limit)%Z)
  ∧ NoDup ((λ r, st_source_ip (stat r)) <$> out)
  ∧ StronglySorted by_rank out
  ∧ (∀ r r', r ∈ ranked stats → r' ∈ ranked stats →
             total_events (stat r) = total_events (stat r') →
             r ∈ out ↔ r' ∈ out)
  ∧ (∀ r, r ∈ ranked stats →
          (Z.of_nat (attack_rank r) ≤ limit)%Z →
          (limit < Z.of_nat (attack_rank r
                             + tied stats (total_events (stat r)) - 1))%Z →
          (limit < Z.of_nat (length out))%Z).
Proof.
  intros stats out.
  assert (∀ r r', r ∈ ranked stats → r' ∈ ranked stats →
            total_events (stat r) ≤ total_events (stat r') →
            attack_rank r' ≤ attack_rank r) as Hmono.
  { intros r r' Hr Hr' Hle.
    rewrite (attack_rank_higher stats r Hr),
            (attack_rank_higher stats r' Hr').
    apply le_n_S. by apply higher_antitone. }
  split; [|split; [|split; [|split]]].
  - apply top_attackers_elem.
  - unfold out, get_top_attackers. rewrite merge_sort_Permutation.
    apply NoDup_fmap_filter. fold stats.
    rewrite ranked_ips. unfold stats. rewrite attacker_stats_ips.
    apply NoDup_remove_dups.
  - apply StronglySorted_merge_sort; apply _.
  - intros r r' Hr Hr' Heq. unfold out.
    rewrite !top_attackers_elem. fold stats.
    assert (attack_rank r = attack_rank r') as ->; [|tauto].
    apply Nat.le_antisymm; apply Hmono; (done || lia).
  - intros r Hr Hle Hlt.
    assert (higher stats (total_events (stat r))
            + tied stats (total_events (stat r)) ≤ length out) as Hlen.
    { rewrite <- at_least_split.
      unfold out, get_top_attackers. rewrite merge_sort_Permutation.
      fold stats. rewrite ranked_fmap, filter_fmap, length_fmap.
      apply length_filter_mono. intros y Hin Hy. simpl.
      destruct (ranked_of_stat stats y Hin) as (ry & Hry & <-).
      specialize (Hmono r ry Hr Hry Hy).
      replace (RANK _ _ _) with (attack_rank ry); [lia|].
      apply ranked_elem in Hry as (x & Hx & ->). done. }
    rewrite (attack_rank_higher stats r Hr) in Hlt. lia.
Qed.

(** The theorem at the sample events and limit 1: the two source
    addresses tied at rank 1 are both returned. *)
Lemma top_attackers_within_limit_witness :
  sample_top_row ∈ ranked (attacker_stats sample_events)
  ∧ (Z.of_nat (attack_rank sample_top_row) ≤ 1)%Z
  ∧ (1 < Z.of_nat (attack_rank sample_top_row
                   + tied (attacker_stats sample_events)
                       (total_events (stat sample_top_row)) - 1))%Z
  ∧ (1 < Z.of_nat (length (get_top_attackers sample_events 1)))%Z.
Proof.
  assert (sample_top_row ∈ ranked (attacker_stats sample_events))
    as Hin by elem_of_computed.
  assert (Z.of_nat (attack_rank sample_top_row) ≤ 1)%Z
    as Hle by (vm_compute; discriminate).
  assert (1 < Z.of_nat (attack_rank sample_top_row
                        + tied (attacker_stats sample_events)
                            (total_events (stat sample_top_row)) - 1))%Z
    as Hlt by (vm_compute; reflexivity).
  split; [exact Hin|]. split; [exact Hle|]. split; [exact Hlt|].
  exact (proj2 (proj2 (proj2 (proj2
           (top_attackers_within_limit sample_events 1))))
           sample_top_row Hin Hle Hlt).
Defined.
End RankingFacts.

(** ** Paginated events *)

Module PaginationFacts.
Import Pagination Samples SortFacts.

Global Instance by_timestamp_desc_trans : Transitive by_timestamp_desc.
Proof. intros x y z. unfold by_timestamp_desc. lia. Qed.
Global Instance by_timestamp_desc_total : Total by_timestamp_desc.
Proof. intros x y. unfold by_timestamp_desc. lia. Qed.






(** *** The metadata *)

Lemma count_query_perm (l1 l2 : list security_event) (sev ety : option string) :
  l1 ≡ₚ l2 → count_query l1 sev ety = count_query l2 sev ety.
Proof. intros Hp. unfold count_query. by rewrite Hp. Qed.


(** *** The outcomes of a request *)





(** *** The pages *)


Lemma matching_desc_sorted (events : list security_event)
    (sev ety : option string) :
  StronglySorted by_timestamp_desc (matching_desc events sev ety).
Proof. apply StronglySorted_merge_sort; apply _. Qed.










End PaginationFacts.

(** ** KPI summary *)

Module KpiFacts.
Import Kpi.

(** The guard of the handler: no row from the view gives the zero
    record. *)
Lemma get_kpis_no_row : get_kpis [] = zero_summary.
Proof. reflexivity. Qed.

Lemma get_kpis_row (row : kpi_summary) (rest : list kpi_summary) :
  get_kpis (row :: rest) = row.
Proof. reflexivity. Qed.

(** C8.  On the empty event set the KPI summary is one record whose
    thirteen numeric fields are all 0. *)
Theorem kpis_of_empty_dataset (now : Z) :
  let k := get_kpis (v_kpi_summary now []) in
  k = zero_summary
  ∧ total_events k = 0 ∧ critical_events k = 0 ∧ high_events k = 0
  ∧ medium_events k = 0 ∧ low_events k = 0
  ∧ avg_severity_score k = 0%Q
  ∧ unique_source_ips k = 0 ∧ unique_dest_ips k = 0
  ∧ unique_event_types k = 0 ∧ unique_threat_categories k = 0
  ∧ events_last_24h k = 0 ∧ severe_last_24h k = 0
  ∧ avg_events_per_hour k = 0%Q.
Proof. repeat split. Qed.

End KpiFacts.

(** ** The connection pool *)

Module PoolFacts.
Import Pool.

(** *** The library pool *)

Lemma getconn_used (d : driver) (p p' : connection_pool) (fresh fresh' : conn)
    (r : exn + conn) :
  (∀ k c, _used p !! k = Some c → k ≤ _keys p) →
  getconn d p fresh = (r, p', fresh') →
  _keys p ≤ _keys p'
  ∧ match r with
    | inl _ => _used p' = _used p
    | inr c =>
        closed p' = false
        ∧ _used p !! S (_keys p) = None
        ∧ _used p' = <[S (_keys p) := c]> (_used p)
        ∧ _rused p' !! c = Some (S (_keys p))
        ∧ _keys p' = S (_keys p)
    end.
Proof.
  intros Hinv. unfold getconn.
  assert (_used p !! S (_keys p) = None) as Hfree.
  { destruct (_used p !! S (_keys p)) as [c|] eqn:Hk; [|done].
    apply Hinv in Hk. lia. }
  destruct (closed p) eqn:Hclosed.
  { intros [= <- <- <-]. done. }
  simpl. rewrite Hfree.
  destruct (last (_pool p)) as [c|].
  { intros [= <- <- <-]. simpl. rewrite lookup_insert_eq. split; [lia|done]. }
  destruct (decide (size (_used p) = maxconn p)).
  { intros [= <- <- <-]. simpl. split; [lia|done]. }
  unfold _connect. simpl. destruct (connect d fresh).
  { intros [= <- <- <-]. simpl. split; [lia|done]. }
  intros [= <- <- <-]. simpl. rewrite lookup_insert_eq. split; [lia|done].
Qed.

Lemma putconn_used (d : driver) (c c' : conn) (p : connection_pool)
    (key : nat) :
  closed p = false → _rused p !! c = Some key → _used p !! key = Some c' →
  conn_rollback d c = None → conn_close d c = None →
  ∃ p', putconn d c p = (inr (), p')
        ∧ _used p' = delete key (_used p)
        ∧ _keys p' = _keys p.
Proof.
  intros Hopen Hkey Hused Hrollback Hclose. unfold putconn.
  rewrite Hopen, Hkey, Hrollback, Hclose, Hused.
  destruct (decide (length (_pool p) < minconn p));
    [destruct (conn_closed d c); [|destruct (transaction_status d c)]|];
    eexists; (split; [reflexivity|done]).
Qed.

(** When [putconn] raises, the connections checked out stay as they
    were. *)
Lemma putconn_raises (d : driver) (c : conn) (p p' : connection_pool)
    (e : exn) :
  putconn d c p = (inl e, p') →
  _used p' = _used p ∧ _keys p' = _keys p.
Proof.
  unfold putconn. destruct (closed p); [by intros [= _ <-]|].
  destruct (_rused p !! c) as [key|]; [|by intros [= _ <-]].
  match goal with
  | |- context [match ?x with inl _ => _ | inr _ => _ end] =>
      destruct x as [e'|kept]
  end; [by intros [= _ <-]|].
  destruct (_used p !! key); [done|]. by intros [= _ <-].
Qed.

(** *** The bodies of the helpers leave the pool alone *)

Lemma query_body_state (d : driver) (c : conn) (query : string)
    (params : option (list value)) (fetch_all : bool) (s : state) :
  (query_body d c query params fetch_all s).2 = s.
Proof.
  unfold query_body.
  destruct (execute d c query params) as [e|[description|] rows]; [done| |done].
  destruct fetch_all; [done|]. by destruct rows as [|[|v row] rows].
Qed.

Lemma scalar_body_state (d : driver) (c : conn) (query : string)
    (params : option (list value)) (s : state) :
  (scalar_body d c query params s).2 = s.
Proof.
  unfold scalar_body.
  destruct (execute d c query params) as [e|[description|] rows];
    [done| |done].
  by destruct rows as [|[|v row] rows].
Qed.

(** *** Acquire, run, release *)

(** A connection handed out is checked out under a new key. *)
Lemma get_connection_used (d : driver) (s s1 : state) (c : conn) :
  pool_inv s → get_connection d s = (inr c, s1) →
  ∃ p p1, _connection_pool s = Some p
          ∧ _connection_pool s1 = Some p1
          ∧ closed p1 = false
          ∧ _used p !! S (_keys p) = None
          ∧ _used p1 = <[S (_keys p) := c]> (_used p)
          ∧ _rused p1 !! c = Some (S (_keys p))
          ∧ _keys p1 = S (_keys p).
Proof.
  intros Hinv. unfold get_connection, pool_inv in *.
  destruct (_connection_pool s) as [p|]; [|done].
  destruct (getconn d p (next_conn s)) as [[r p'] fresh] eqn:Hget.
  intros [= -> <-].
  apply getconn_used in Hget as [_ (Hopen & Hfree & Hused & Hrused & Hk)];
    [|done].
  exists p, p'. done.
Qed.

(** When no connection is handed out, none is checked out. *)
Lemma get_connection_raises (d : driver) (s s1 : state) (e : exn) :
  pool_inv s → get_connection d s = (inl e, s1) →
  checked_out s1 = checked_out s ∧ pool_inv s1.
Proof.
  intros Hinv. unfold get_connection, checked_out, pool_inv in *.
  destruct (_connection_pool s) as [p|] eqn:Hp.
  2:{ intros [= _ <-]. by rewrite Hp. }
  destruct (getconn d p (next_conn s)) as [[r p'] fresh] eqn:Hget.
  intros [= -> <-]. simpl.
  apply getconn_used in Hget as [Hkeys Hget]; [|done].
  rewrite Hget. split; [done|]. intros k c Hk. apply Hinv in Hk. lia.
Qed.

(** A connection handed out whose rollback and close do not raise goes
    back. *)
Lemma release_after_get (d : driver) (s s1 : state) (c : conn) :
  pool_inv s → get_connection d s = (inr c, s1) →
  conn_rollback d c = None → conn_close d c = None →
  ∃ s2, release_connection d c s1 = (inr (), s2)
        ∧ checked_out s2 = checked_out s
        ∧ pool_inv s2.
Proof.
  intros Hinv Hget Hrollback Hclose.
  destruct (get_connection_used d s s1 c Hinv Hget)
    as (p & p1 & Hp & Hp1 & Hopen & Hfree & Hused & Hrused & Hk).
  unfold release_connection, checked_out, pool_inv in *.
  rewrite Hp in *. rewrite Hp1.
  destruct (putconn_used d c c p1 (S (_keys p)) Hopen Hrused)
    as (p2 & -> & Hused2 & Hk2); [by rewrite Hused, lookup_insert_eq|done..|].
  eexists. split; [reflexivity|]. simpl.
  rewrite Hused2, Hused, delete_insert_eq, delete_id by done.
  split; [done|]. intros k c' Hc'. apply Hinv in Hc'. lia.
Qed.

(** Whatever the body does short of touching the pool, the connection
    acquired for it is back in the pool when the helper returns or
    raises, provided its rollback and its close do not raise. *)
Lemma acquire_release {A} (d : driver) (body : conn → M A) (s : state) :
  pool_inv s →
  (∀ c s', (body c s').2 = s') →
  (∀ c s1, get_connection d s = (inr c, s1) →
           conn_rollback d c = None ∧ conn_close d c = None) →
  let s'' := ((c ← get_connection d; try_finally (body c) (release_connection d c)) s).2 in
  checked_out s'' = checked_out s ∧ pool_inv s''.
Proof.
  intros Hinv Hbody Hput. unfold mbind, M_bind, bind.
  destruct (get_connection d s) as [[e|c] s1] eqn:Hget; simpl.
  { by apply (get_connection_raises d s s1 e). }
  destruct (Hput c s1 eq_refl) as [Hrollback Hclose].
  destruct (release_after_get d s s1 c Hinv Hget Hrollback Hclose)
    as (s2 & Hrel & Hout & Hinv2).
  unfold try_finally. pose proof (Hbody c s1) as Hs.
  destruct (body c s1) as [r s1'] eqn:Hb. simpl in Hs. subst s1'.
  by rewrite Hrel.
Qed.

(** [init_pool] establishes the invariant. *)
Lemma open_connections_used (d : driver) (n : nat) (p p' : connection_pool)
    (fresh fresh' : conn) (r : exn + unit) :
  open_connections d n p fresh = (r, p', fresh') → _used p' = _used p.
Proof.
  revert p fresh. induction n as [|n IH]; intros p fresh; simpl.
  { by intros [= <- <- <-]. }
  unfold _connect. destruct (connect d fresh).
  { by intros [= <- <- <-]. }
  intros H%IH. done.
Qed.

Lemma init_pool_inv (d : driver) (minconn maxconn : nat) (s s' : state) :
  init_pool d minconn maxconn s = (inr (), s') →
  pool_inv s' ∧ checked_out s' = ∅.
Proof.
  unfold init_pool.
  destruct (open_connections _ _ _ _) as [[[e|[]] p] fresh] eqn:Hopen;
    [done|].
  intros [= <-]. apply open_connections_used in Hopen.
  unfold pool_inv, checked_out. simpl in *. rewrite Hopen.
  split; [|done]. intros k c Hk. by rewrite lookup_empty in Hk.
Qed.

(** [close_pool] keeps the invariant and the checked-out connections. *)
Lemma close_pool_inv (s : state) :
  pool_inv s →
  pool_inv (close_pool s).2 ∧ checked_out (close_pool s).2 = checked_out s.
Proof.
  unfold close_pool, pool_inv, checked_out.
  destruct (_connection_pool s) as [p|] eqn:Hp; simpl.
  - destruct (closed p); simpl; rewrite ?Hp; intros Hinv;
      (split; [exact Hinv|reflexivity]).
  - rewrite Hp. intros _. split; [exact I|reflexivity].
Qed.

(** C9, amended.  Whatever the query and its parameters, and whether
    the helper returns or raises, provided the rollback and the close of
    the connection the pool hands out do not raise: the connections
    checked out of the pool after [execute_query] and after
    [execute_scalar] are those checked out before the call; when the
    pool hands out a connection, it is checked out while the body runs,
    and releasing it succeeds. *)
Theorem helpers_release_connection (d : driver) (s : state) (query : string)
    (params : option (list value)) (fetch_all : bool) :
  pool_inv s →
  (∀ c s1, get_connection d s = (inr c, s1) →
           conn_rollback d c = None ∧ conn_close d c = None) →
  checked_out (execute_query d query params fetch_all s).2 = checked_out s
  ∧ pool_inv (execute_query d query params fetch_all s).2
  ∧ checked_out (execute_scalar d query params s).2 = checked_out s
  ∧ pool_inv (execute_scalar d query params s).2
  ∧ (∀ c s1, get_connection d s = (inr c, s1) →
             ∃ key, checked_out s !! key = None
                    ∧ checked_out s1 = <[key := c]> (checked_out s)
                    ∧ (release_connection d c s1).1 = inr ()
                    ∧ checked_out (release_connection d c s1).2
                      = checked_out s).
Proof.
  intros Hinv Hput.
  destruct (acquire_release d
              (λ c, query_body d c query params fetch_all) s Hinv)
    as [Hq Hqi]; [intros; apply query_body_state|done|].
  destruct (acquire_release d (λ c, scalar_body d c query params) s Hinv)
    as [Hs Hsi]; [intros; apply scalar_body_state|done|].
  split; [exact Hq|]. split; [exact Hqi|].
  split; [exact Hs|]. split; [exact Hsi|].
  intros c s1 Hget.
  destruct (Hput c s1 Hget) as [Hrollback Hclose].
  destruct (get_connection_used d s s1 c Hinv Hget)
    as (p & p1 & Hp & Hp1 & _ & Hfree & Hused & _).
  destruct (release_after_get d s s1 c Hinv Hget Hrollback Hclose)
    as (s2 & Hrel & Hout & _).
  exists (S (_keys p)). rewrite Hrel. unfold checked_out in *.
  rewrite Hp in *. rewrite Hp1. done.
Qed.

(** The theorem at the pool [init_pool()] leaves, for a counting query
    over the sample driver, whose rollback and close succeed. *)
Lemma helpers_release_connection_witness :
  pool_inv sample_state
  ∧ (∀ c s1, get_connection sample_driver sample_state = (inr c, s1) →
             conn_rollback sample_driver c = None
             ∧ conn_close sample_driver c = None)
  ∧ checked_out
      (execute_query sample_driver "SELECT COUNT(1) FROM security_events"
         None true sample_state).2
    = checked_out sample_state
  ∧ checked_out
      (execute_scalar sample_driver "SELECT COUNT(1) FROM security_events"
         None sample_state).2
    = checked_out sample_state.
Proof.
  assert (pool_inv sample_state) as Hinv.
  { unfold sample_state, pool_inv. simpl.
    intros k c Hk. rewrite lookup_empty in Hk. discriminate. }
  assert (∀ c s1, get_connection sample_driver sample_state = (inr c, s1) →
                  conn_rollback sample_driver c = None
                  ∧ conn_close sample_driver c = None) as Hput.
  { intros c s1 _. split; reflexivity. }
  pose proof (helpers_release_connection sample_driver sample_state
                "SELECT COUNT(1) FROM security_events" None true Hinv Hput)
    as (Hq & _ & Hs & _).
  split; [exact Hinv|]. split; [exact Hput|]. split; [exact Hq|exact Hs].
Defined.

(** C9 as first stated, for every behaviour of the driver, fails: over
    the pool [init_pool()] leaves and a driver whose rollback raises,
    the pool hands out the connection it opened second, under its first
    key; the statement runs, and putting the connection away raises
    before the pool forgets it; both helpers raise that error, and the
    connection is still checked out after the call, where none was
    before. *)
Lemma rollback_failure_keeps_connection :
  pool_inv (init_pool lossy_driver 2 10 empty_state).2
  ∧ checked_out (init_pool lossy_driver 2 10 empty_state).2 = ∅
  ∧ (execute_query lossy_driver "SELECT COUNT(1) FROM security_events"
       None true (init_pool lossy_driver 2 10 empty_state).2).1
    = inl (DriverError "server closed the connection unexpectedly")
  ∧ checked_out
      (execute_query lossy_driver "SELECT COUNT(1) FROM security_events"
         None true (init_pool lossy_driver 2 10 empty_state).2).2
    = {[1 := 1]}
  ∧ checked_out
      (execute_query lossy_driver "SELECT COUNT(1) FROM security_events"
         None true (init_pool lossy_driver 2 10 empty_state).2).2
    ≠ checked_out (init_pool lossy_driver 2 10 empty_state).2
  ∧ (execute_scalar lossy_driver "SELECT COUNT(1) FROM security_events"
       None (init_pool lossy_driver 2 10 empty_state).2).1
    = inl (DriverError "server closed the connection unexpectedly")
  ∧ checked_out
      (execute_scalar lossy_driver "SELECT COUNT(1) FROM security_events"
         None (init_pool lossy_driver 2 10 empty_state).2).2
    ≠ checked_out (init_pool lossy_driver 2 10 empty_state).2.
Proof.
  assert (∀ m : gmap nat conn, m !! 1 = Some 1 → m ≠ ∅) as Hne.
  { intros m Hm ->. by rewrite lookup_empty in Hm. }
  split.
  { by apply (init_pool_inv lossy_driver 2 10 empty_state). }
  split; [reflexivity|]. split; [reflexivity|].
  split; [by vm_compute|].
  split; [apply Hne; by vm_compute|].
  split; [reflexivity|].
  apply Hne. by vm_compute.
Qed.

End PoolFacts.

(** ** The seed generator *)

Module SeedFacts.
Import Seed.

(** *** The draws *)

Lemma bind_Some {A B} (m : G A) (f : A → G B) (g g'' : rng) (b : B) :
  (m ≫= f) g = Some (b, g'')
  ↔ ∃ a g', m g = Some (a, g') ∧ f a g' = Some (b, g'').
Proof.
  unfold mbind, G_bind. destruct (m g) as [[a g']|]; split.
  - intros H. by exists a, g'.
  - by intros (a' & g1 & [= <- <-] & H).
  - done.
  - by intros (a' & g1 & [=] & _).
Qed.

Lemma draw_Some (g : rng) : ∃ n g', draw g = Some (n, g').
Proof. unfold draw. eauto. Qed.

Lemma randint_range (a b r : Z) (g g' : rng) :
  randint a b g = Some (r, g') → (a ≤ r ≤ b)%Z.
Proof.
  unfold randint. destruct (decide (b < a)%Z) as [|Hab]; [done|].
  intros (x & g1 & Hx & [= <- _])%bind_Some.
  unfold _randbelow in Hx.
  apply bind_Some in Hx as (raw & g2 & _ & [= <- _]).
  pose proof (Z.mod_pos_bound (Z.of_N raw) (b - a + 1)). lia.
Qed.

Lemma randint_Some (a b : Z) (g : rng) :
  (a ≤ b)%Z → ∃ r g', randint a b g = Some (r, g').
Proof.
  intros Hab. unfold randint. rewrite decide_False by lia.
  unfold _randbelow, mbind, G_bind, draw, mret, G_ret. eauto.
Qed.

Lemma choice_elem {A} (l : list A) (x : A) (g g' : rng) :
  choice l g = Some (x, g') → x ∈ l.
Proof.
  unfold choice. destruct l as [|a l]; [done|].
  intros (i & g1 & _ & Hx)%bind_Some.
  destruct ((a :: l) !! Z.to_nat i) as [y|] eqn:Hy; [|done].
  injection Hx as <- _. by eapply list_elem_of_lookup_2.
Qed.

Lemma choice_Some {A} (l : list A) (g : rng) :
  l ≠ [] → ∃ x g', choice l g = Some (x, g').
Proof.
  intros Hl. unfold choice. destruct l as [|a l]; [done|].
  unfold _randbelow, mbind, G_bind, draw, mret, G_ret.
  set (i := (Z.of_N (entropy g (cursor g)) `mod` Z.of_nat (length (a :: l)))%Z).
  assert (is_Some ((a :: l) !! Z.to_nat i)) as [x Hx].
  { apply lookup_lt_is_Some.
    pose proof (Z.mod_pos_bound (Z.of_N (entropy g (cursor g)))
                  (Z.of_nat (length (a :: l)))) as Hb.
    fold i in Hb. simpl length in *. lia. }
  rewrite Hx. eauto.
Qed.

(** *** [bisect] and [choices] *)

Lemma bisect_loop_range (fuel : nat) (a : list Q) (x : Q) (lo hi i : nat) :
  lo ≤ hi → bisect_loop fuel a x lo hi = Some i → lo ≤ i ≤ hi.
Proof.
  revert lo hi. induction fuel as [|fuel IH]; intros lo hi Hle;
    cbn [bisect_loop].
  - destruct (decide (lo < hi)); [done|]. intros [= <-]. lia.
  - destruct (decide (lo < hi)) as [Hlt|]; [|intros [= <-]; lia].
    destruct (a !! _) as [am|]; [|done].
    pose proof (Nat.div_mod (lo + hi) 2 ltac:(lia)) as Hdm.
    pose proof (Nat.mod_upper_bound (lo + hi) 2 ltac:(lia)) as Hmod.
    destruct (Qle_bool am x); intros Hi; apply IH in Hi; lia.
Qed.

(** [hi - lo] turns are enough when the slice lies within the list. *)
Lemma bisect_loop_Some (fuel : nat) (a : list Q) (x : Q) (lo hi : nat) :
  hi ≤ length a → hi - lo ≤ fuel → is_Some (bisect_loop fuel a x lo hi).
Proof.
  revert lo hi. induction fuel as [|fuel IH]; intros lo hi Hhi Hfuel;
    cbn [bisect_loop].
  - rewrite decide_False by lia. eauto.
  - destruct (decide (lo < hi)) as [Hlt|]; [|eauto].
    pose proof (Nat.div_mod (lo + hi) 2 ltac:(lia)) as Hdm.
    pose proof (Nat.mod_upper_bound (lo + hi) 2 ltac:(lia)) as Hmod.
    destruct (lookup_lt_is_Some_2 a ((lo + hi) `div` 2) ltac:(lia))
      as [am ->].
    destruct (Qle_bool am x); apply IH; lia.
Qed.

Lemma choices1_elem {A} (population : list A) (weights : list Q) (x : A)
    (g g' : rng) :
  choices1 population weights g = Some (x, g') → x ∈ population.
Proof.
  unfold choices1. destruct (decide _); [|done].
  destruct (last _) as [total|]; [|done].
  destruct (Qle_bool total 0); [done|].
  intros (u & g1 & _ & Hx)%bind_Some.
  destruct (bisect _ _ _ _) as [i|]; [|done].
  destruct (population !! i) as [y|] eqn:Hy; [|done].
  injection Hx as <- _. by eapply list_elem_of_lookup_2.
Qed.

Lemma choices1_severity_Some (g : rng) :
  ∃ x g', choices1 SEVERITIES SEVERITY_WEIGHTS g = Some (x, g').
Proof.
  unfold choices1. rewrite decide_True by done.
  destruct (last (accumulate SEVERITY_WEIGHTS)) as [total|] eqn:Ht;
    [|by vm_compute in Ht].
  assert (Qle_bool total 0 = false) as ->.
  { vm_compute in Ht. injection Ht as <-. reflexivity. }
  unfold random, mbind, G_bind, draw, mret, G_ret.
  set (u := (_ * _)%Q).
  destruct (bisect_loop_Some 3 (accumulate SEVERITY_WEIGHTS) u 0 3)
    as [i Hi]; [vm_compute; lia..|].
  pose proof (bisect_loop_range 3 _ u 0 3 i ltac:(lia) Hi) as Hr.
  unfold bisect. change (length SEVERITIES - 1 - 0) with 3.
  change (length SEVERITIES - 1) with 3. rewrite Hi.
  destruct (lookup_lt_is_Some_2 SEVERITIES i ltac:(simpl; lia)) as [x ->].
  eauto.
Qed.

(** *** [format] *)

Lemma format_go_Some (tpl : string) (field : option string)
    (kwargs : list (string * string)) :
  formattable tpl field (kwargs.*1) = true →
  is_Some (format_go tpl field kwargs).
Proof.
  revert field. induction tpl as [|c tpl IH]; intros field; simpl.
  { destruct field; [done|eauto]. }
  destruct field as [name|].
  - destruct (decide (c = "}"%char)); [|apply IH].
    intros [Hname Hrest]%andb_prop.
    apply bool_decide_eq_true_1 in Hname.
    apply list_elem_of_fmap in Hname as ([k v] & -> & Hkv).
    destruct (list_find_elem_of (λ kv : string * string, kv.1 = (k, v).1)
                kwargs (k, v) Hkv eq_refl) as [[i [k' v']] ->].
    apply fmap_is_Some. by apply IH.
  - destruct (decide (c = "{"%char)); [apply IH|].
    intros H. apply fmap_is_Some. by apply IH.
Qed.

Lemma descriptions_formattable (event_type : string) :
  event_type ∈ EVENT_TYPES →
  formattable
    (dict_get DESCRIPTIONS event_type "Security event detected from {src}")
    None kwarg_names = true.
Proof.
  revert event_type. apply Forall_forall.
  repeat constructor.
Qed.

(** *** [generate_event] *)

Lemma bind_eq {A B} (m : G A) (f : A → G B) (g g' : rng) (a : A) :
  m g = Some (a, g') → (m ≫= f) g = f a g'.
Proof. intros H. unfold mbind, G_bind. by rewrite H. Qed.

Lemma severities_in_tier (label : string) (lo hi score : Z) :
  (label, lo, hi) ∈ SEVERITIES → (lo ≤ score ≤ hi)%Z →
  score_in_tier label score.
Proof.
  unfold SEVERITIES, score_in_tier. intros Hin Hscore.
  set_unfold in Hin.
  destruct Hin as [[= -> -> ->]|[[= -> -> ->]|[[= -> -> ->]|[[= -> -> ->]|[]]]]];
    tauto.
Qed.

(** C10.  Every event [generate_event] produces has its severity score
    within the sub-range of its severity tier: low in [1,3], medium in
    [4,5], high in [6,8], critical in [9,10]; and with non-empty address
    pools and a non-negative time range the generator does produce an
    event. *)
Theorem generated_score_in_tier (EXTERNAL_IPS INTERNAL_IPS : list string)
    (uuid4 : string) (base_time time_range_seconds : Z) (g : rng) :
  (∀ e g',
     generate_event EXTERNAL_IPS INTERNAL_IPS uuid4 base_time
       time_range_seconds g = Some (e, g') →
     score_in_tier (g_severity e) (g_severity_score e))
  ∧ (EXTERNAL_IPS ≠ [] → INTERNAL_IPS ≠ [] → (0 ≤ time_range_seconds)%Z →
     is_Some (generate_event EXTERNAL_IPS INTERNAL_IPS uuid4 base_time
                time_range_seconds g)).
Proof.
  split.
  - intros e g' H. unfold generate_event in H.
    apply bind_Some in H as ([[label lo] hi] & g1 & Hsev & H).
    apply bind_Some in H as (score & g2 & Hscore & H).
    apply choices1_elem in Hsev. apply randint_range in Hscore.
    repeat (apply bind_Some in H as (? & ? & _ & H)).
    destruct (format _ _) as [description|]; [|done].
    repeat (apply bind_Some in H as (? & ? & _ & H)).
    injection H as <- _. simpl.
    by apply (severities_in_tier label lo hi).
  - intros Hext Hint Hrange. unfold generate_event.
    destruct (choices1_severity_Some g) as ([[label lo] hi] & g1 & H1).
    rewrite (bind_eq _ _ _ _ _ H1).
    pose proof (choices1_elem _ _ _ _ _ H1) as Hin.
    assert (lo ≤ hi)%Z as Hlohi.
    { unfold SEVERITIES in Hin. set_unfold in Hin.
      destruct Hin as [[= -> -> ->]|[[= -> -> ->]|[[= -> -> ->]|[[= -> -> ->]|[]]]]];
        lia. }
    destruct (randint_Some lo hi g1 Hlohi) as (score & g2 & H2).
    rewrite (bind_eq _ _ _ _ _ H2).
    destruct (choice_Some EVENT_TYPES g2 ltac:(done)) as (ety & g3 & H3).
    rewrite (bind_eq _ _ _ _ _ H3).
    destruct (choice_Some EXTERNAL_IPS g3 Hext) as (src & g4 & H4).
    rewrite (bind_eq _ _ _ _ _ H4).
    destruct (choice_Some INTERNAL_IPS g4 Hint) as (dst & g5 & H5).
    rewrite (bind_eq _ _ _ _ _ H5).
    destruct (randint_Some 1024 65535 g5 ltac:(lia)) as (sport & g6 & H6).
    rewrite (bind_eq _ _ _ _ _ H6).
    destruct (choice_Some DESTINATION_PORTS g6 ltac:(done)) as (dport & g7 & H7).
    rewrite (bind_eq _ _ _ _ _ H7).
    destruct (choice_Some PROTOCOLS g7 ltac:(done)) as (proto & g8 & H8).
    rewrite (bind_eq _ _ _ _ _ H8).
    destruct (randint_Some 0 time_range_seconds g8 Hrange) as (secs & g9 & H9).
    rewrite (bind_eq _ _ _ _ _ H9). cbv zeta.
    destruct (randint_Some 1000 100000 g9 ltac:(lia)) as (rate & g10 & H10).
    rewrite (bind_eq _ _ _ _ _ H10).
    destruct (randint_Some 5 5000 g10 ltac:(lia)) as (count & g11 & H11).
    rewrite (bind_eq _ _ _ _ _ H11).
    destruct (format_go_Some
                (dict_get DESCRIPTIONS ety "Security event detected from {src}")
                None
                [("src", src); ("dst", dst); ("port", pretty dport);
                 ("rate", pretty rate); ("count", pretty count)])
      as [description Hd].
    { apply descriptions_formattable. by eapply choice_elem. }
    unfold format. rewrite Hd.
    destruct (choice_Some THREAT_CATEGORIES g11 ltac:(done)) as (cat & g12 & H12).
    rewrite (bind_eq _ _ _ _ _ H12).
    destruct (choice_Some ACTIONS g12 ltac:(done)) as (act & g13 & H13).
    rewrite (bind_eq _ _ _ _ _ H13).
    destruct (choice_Some USER_AGENTS g13 ltac:(done)) as (ua & g14 & H14).
    rewrite (bind_eq _ _ _ _ _ H14).
    destruct (choice_Some COUNTRIES g14 ltac:(done)) as (country & g15 & H15).
    rewrite (bind_eq _ _ _ _ _ H15).
    eauto.
Qed.

(** The theorem at two small address pools, a time range of 100
    seconds and the sample draws. *)
Lemma generated_score_in_tier_witness :
  ["8.8.8.8"; "9.9.9.9"] ≠ [] ∧ ["10.0.0.1"] ≠ [] ∧ (0 ≤ 100)%Z
  ∧ ∃ e g',
      generate_event ["8.8.8.8"; "9.9.9.9"] ["10.0.0.1"] "uuid" 0 100
        sample_rng = Some (e, g')
      ∧ score_in_tier (g_severity e) (g_severity_score e).
Proof.
  assert (["8.8.8.8"; "9.9.9.9"] ≠ @nil string) as Hext by discriminate.
  assert (["10.0.0.1"] ≠ @nil string) as Hint by discriminate.
  assert (0 ≤ 100)%Z as Hrange by lia.
  split; [exact Hext|]. split; [exact Hint|]. split; [exact Hrange|].
  destruct (generated_score_in_tier ["8.8.8.8"; "9.9.9.9"] ["10.0.0.1"]
              "uuid" 0 100 sample_rng) as [Hscore Hsome].
  destruct (Hsome Hext Hint Hrange) as [[e g'] Heq].
  exists e, g'. split; [exact Heq|]. exact (Hscore e g' Heq).
Defined.
End SeedFacts.

(** ** Severity distribution *)

Module DistributionFacts.
Import Numeric Relational Distribution Samples NumericFacts SortFacts GroupFacts.

Global Instance nulls_last_trans : Transitive nulls_last.
Proof. intros [a|] [b|] [c|]; simpl; try done. lia. Qed.

Global Instance nulls_last_total : Total nulls_last.
Proof. intros [a|] [b|]; simpl; try tauto. lia. Qed.

Global Instance by_case_trans : Transitive by_case.
Proof. intros x y z. unfold by_case. apply nulls_last_trans. Qed.

Global Instance by_case_total : Total by_case.
Proof. intros x y. unfold by_case. apply nulls_last_total. Qed.

(** A share of a whole, as a percentage, lies between 0 and 100. *)
Lemma share_bounds (n all : nat) :
  n ≤ all →
  (0 <= inject_Z (Z.of_nat n) / inject_Z (Z.of_nat all) * 100)%Q
  ∧ (inject_Z (Z.of_nat n) / inject_Z (Z.of_nat all) * 100 <= inject_Z 100)%Q.
Proof.
  intros Hn. destruct all as [|a].
  - assert (n = 0) as -> by lia. by vm_compute.
  - assert (0 < inject_Z (Z.of_nat (S a)))%Q as Hpos.
    { unfold Qlt. simpl. lia. }
    assert (0 <= inject_Z (Z.of_nat n) / inject_Z (Z.of_nat (S a)))%Q as H0.
    { apply Qle_shift_div_l; [done|]. rewrite Qmult_0_l.
      unfold Qle. simpl. lia. }
    assert (inject_Z (Z.of_nat n) / inject_Z (Z.of_nat (S a)) <= 1)%Q as H1.
    { apply Qle_shift_div_r; [done|]. rewrite Qmult_1_l.
      rewrite <- Zle_Qle. lia. }
    split.
    + apply Qmult_le_0_compat; [done|]. by vm_compute.
    + change (inject_Z 100) with (1 * 100)%Q.
      apply Qmult_le_compat_r; [done|]. by vm_compute.
Qed.

Lemma severity_counts_labels (events : list security_event) :
  sc_severity <$> severity_counts events = remove_dups (severity <$> events).
Proof.
  unfold severity_counts. rewrite <- list_fmap_compose.
  rewrite <- (list_fmap_id (remove_dups _)) at 2. by apply list_fmap_ext.
Qed.

Lemma severity_counts_sum (events : list security_event) :
  SUM (sc_count <$> severity_counts events) = length events.
Proof.
  unfold severity_counts. rewrite <- list_fmap_compose, SUM_fmap.
  etrans; [|etrans; [apply (sum_selected_groups severity (λ _, True) events)|]].
  - rewrite filter_all by done. by apply sum_list_with_ext.
  - by rewrite filter_all.
Qed.

Lemma distribution_perm (events : list security_event) :
  get_severity_distribution events ≡ₚ select_list (severity_counts events).
Proof. apply merge_sort_Permutation. Qed.

Lemma distribution_elem (events : list security_event) (r : distribution_row) :
  r ∈ get_severity_distribution events
  ↔ d_severity r ∈ severity <$> events
    ∧ count r = length (filter (λ e, severity e = d_severity r) events)
    ∧ percentage r
      = ROUND (inject_Z (Z.of_nat (count r))
               / inject_Z (Z.of_nat (length events)) * 100)%Q 2.
Proof.
  rewrite distribution_perm. unfold select_list.
  rewrite severity_counts_sum. unfold severity_counts.
  rewrite <- list_fmap_compose, list_elem_of_fmap. split.
  - intros (s & -> & Hs). simpl. by rewrite elem_of_remove_dups in Hs.
  - intros (Hs & Hc & Hp). exists (d_severity r). split.
    + destruct r as [s c p]. simpl in *. by rewrite <- Hc, <- Hp.
    + by rewrite elem_of_remove_dups.
Qed.

Lemma distribution_labels (events : list security_event) :
  d_severity <$> get_severity_distribution events
  ≡ₚ remove_dups (severity <$> events).
Proof.
  rewrite distribution_perm, <- severity_counts_labels. unfold select_list.
  by rewrite <- list_fmap_compose.
Qed.

Lemma distribution_count_sum (events : list security_event) :
  sum_list (count <$> get_severity_distribution events) = length events.
Proof.
  rewrite distribution_perm. unfold select_list.
  rewrite <- list_fmap_compose.
  change (sum_list ((count ∘ _) <$> ?l)) with (SUM (sc_count <$> l)).
  apply severity_counts_sum.
Qed.

(** X1 ([get_severity_distribution], grouping): the endpoint returns one
    row per severity label present in the table; the row's count is the
    number of events carrying the label, which is at least one; the counts
    add up to the number of events; the percentage is the share of the
    count in the whole table, rounded to two decimals, and lies between 0
    and 100; the rows are in the order of the [CASE] expression, labels it
    does not know last; and an empty table gives no row. *)
Theorem severity_distribution_counts (events : list security_event) :
  let out := get_severity_distribution events in
  d_severity <$> out ≡ₚ remove_dups (severity <$> events)
  ∧ NoDup (d_severity <$> out)
  ∧ (∀ r, r ∈ out →
          count r = length (filter (λ e, severity e = d_severity r) events)
          ∧ 1 ≤ count r
          ∧ percentage r
            = ROUND (inject_Z (Z.of_nat (count r))
                     / inject_Z (Z.of_nat (length events)) * 100)%Q 2
          ∧ (0 <= percentage r)%Q ∧ (percentage r <= inject_Z 100)%Q)
  ∧ sum_list (count <$> out) = length events
  ∧ StronglySorted by_case out
  ∧ get_severity_distribution [] = [].
Proof.
  intros out. subst out. split; [apply distribution_labels|].
  split; [rewrite distribution_labels; apply NoDup_remove_dups|].
  split; [|split; [|split; [|done]]].
  - intros r (Hs & Hc & Hp)%distribution_elem.
    assert (count r ≤ length events) as Hle.
    { rewrite Hc. apply length_filter. }
    split; [done|]. split; [|split; [done|]].
    + apply list_elem_of_fmap in Hs as (e & He & Hin). rewrite Hc.
      apply list_elem_of_In, in_split in Hin as (l1 & l2 & ->).
      rewrite filter_app, filter_cons, decide_True by done.
      rewrite length_app. simpl. lia.
    + rewrite Hp. apply ROUND_bounds; by apply share_bounds.
  - apply distribution_count_sum.
  - apply StronglySorted_merge_sort; apply _.
Qed.

Lemma known_severities_sorted : StronglySorted label_order known_severities.
Proof.
  unfold known_severities.
  repeat (constructor; [|repeat constructor; by vm_compute]). constructor.
Qed.

Lemma label_order_antisym (s t : string) :
  s ∈ known_severities → t ∈ known_severities →
  label_order s t → label_order t s → s = t.
Proof.
  unfold known_severities. rewrite !elem_of_cons, !elem_of_nil.
  intros [->|[->|[->|[->|[]]]]] [->|[->|[->|[->|[]]]]]; try done;
    vm_compute; lia.
Qed.

Lemma distribution_labels_known (events : list security_event) :
  (∀ e, e ∈ events → severity e ∈ known_severities) →
  ∀ s, s ∈ d_severity <$> get_severity_distribution events
       ↔ s ∈ filter (λ s, s ∈ severity <$> events) known_severities.
Proof.
  intros Hknown s. rewrite distribution_labels, elem_of_remove_dups.
  rewrite list_elem_of_filter. split; [|tauto].
  intros Hs. split; [done|].
  apply list_elem_of_fmap in Hs as (e & -> & He). by apply Hknown.
Qed.

Lemma distribution_labels_sorted (events : list security_event) :
  StronglySorted label_order (d_severity <$> get_severity_distribution events).
Proof.
  apply (StronglySorted_fmap _ by_case); [done|].
  apply StronglySorted_merge_sort; apply _.
Qed.

(** X2 ([get_severity_distribution], order): when every event carries one
    of the four labels of the [CASE] expression, the rows come in the
    order critical, high, medium, low, a label without events being left
    out. *)
Theorem severity_distribution_order (events : list security_event) :
  (∀ e, e ∈ events → severity e ∈ known_severities) →
  d_severity <$> get_severity_distribution events
  = filter (λ s, s ∈ severity <$> events) known_severities.
Proof.
  intros Hknown.
  apply (StronglySorted_unique_strong label_order).
  - intros s t Hs Ht. apply (distribution_labels_known _ Hknown) in Hs.
    apply list_elem_of_filter in Hs as [_ Hs].
    apply list_elem_of_filter in Ht as [_ Ht].
    by apply label_order_antisym.
  - apply distribution_labels_sorted.
  - apply strongly_sorted_filter, known_severities_sorted.
  - apply NoDup_Permutation.
    + rewrite distribution_labels. apply NoDup_remove_dups.
    + apply NoDup_filter. unfold known_severities.
      by apply (bool_decide_eq_true_1 (NoDup _)).
    + intros s. by apply distribution_labels_known.
Qed.

Lemma severity_distribution_order_witness :
  (∀ e, e ∈ sample_events → severity e ∈ known_severities)
  ∧ d_severity <$> get_severity_distribution sample_events
    = ["critical"; "high"; "low"].
Proof.
  assert (∀ e, e ∈ sample_events → severity e ∈ known_severities) as H.
  { apply Forall_forall. by apply (bool_decide_eq_true_1 (Forall _ _)). }
  split; [exact H|].
  exact (eq_trans (severity_distribution_order sample_events H) eq_refl).
Defined.

End DistributionFacts.

(** ** Severity trend: counts, the window of buckets, the scan order *)

Module TrendInvariants.
Import Numeric Window Relational Trend Samples.
Import NumericFacts SortFacts GroupFacts TrendFacts.

Lemma length_filter_pos {A} (P : A → Prop) `{∀ x, Decision (P x)}
    (l : list A) (x : A) :
  x ∈ l → P x → 1 ≤ length (filter P l).
Proof.
  intros Hin HP. apply list_elem_of_In, in_split in Hin as (l1 & l2 & ->).
  rewrite filter_app, filter_cons, decide_True by done.
  rewrite length_app. simpl. lia.
Qed.

Lemma MAX_perm (l1 l2 : list Z) : l1 ≡ₚ l2 → MAX l1 = MAX l2.
Proof.
  intros Hp. destruct (MAX l1) as [m1|] eqn:H1, (MAX l2) as [m2|] eqn:H2.
  - apply MAX_Some in H1 as [Hin1 Hmax1], H2 as [Hin2 Hmax2]. f_equal.
    rewrite Hp in Hin1. rewrite <- Hp in Hin2.
    specialize (Hmax1 _ Hin2). specialize (Hmax2 _ Hin1). lia.
  - apply MAX_None in H2 as ->. apply Permutation_nil_r in Hp as ->. done.
  - apply MAX_None in H1 as ->. symmetry in Hp.
    apply Permutation_nil_r in Hp as ->. done.
  - done.
Qed.

Lemma date_trunc_hour_multiple (t : Z) :
  date_trunc_hour t = (t `div` HOUR * HOUR)%Z.
Proof. reflexivity. Qed.

Lemma trend_row_bucket (sev_le : relation string) `{!RelDecision sev_le}
    (events : list security_event) (limit : Z) (r : trend_row) :
  r ∈ get_severity_trend sev_le events limit →
  ∃ m e, max_bucket events m
         ∧ e ∈ events ∧ bucket_key e = tr_key r
         ∧ (m - limit * HOUR ≤ hour_bucket r ≤ m)%Z.
Proof.
  intros Hr.
  assert (tr_key r ∈ tr_key <$> get_severity_trend sev_le events limit)
    as Hk by (apply list_elem_of_fmap; eauto).
  rewrite trend_keys, list_elem_of_filter, elem_of_remove_dups in Hk.
  destruct Hk as [Hc Hk].
  apply key_at_or_after_cutoff in Hc as (m & Hm & Hlo).
  apply list_elem_of_fmap in Hk as (e & He & Hin).
  exists m, e. split; [done|]. split; [done|]. split; [done|].
  split; [done|]. destruct Hm as [_ Hmax].
  specialize (Hmax e Hin). unfold bucket_key, tr_key in He.
  injection He as Hb _. lia.
Qed.

(** X3 ([get_severity_trend], counts): a returned row counts at least one
    event, since a bucket without events of a severity has no row; its
    running total is at least its own count and at most the number of
    events of its severity. *)
Theorem trend_counts_positive (sev_le : relation string)
    `{!RelDecision sev_le} (events : list security_event) (limit : Z)
    (r : trend_row) :
  r ∈ get_severity_trend sev_le events limit →
  1 ≤ event_count r
  ∧ event_count r ≤ running_total r
  ∧ running_total r
    ≤ length (filter (λ e, severity e = tr_severity r) events).
Proof.
  intros (h & Hh & -> & _)%trend_elem.
  destruct (hourly_counts_elem events h Hh) as [Hk Hc].
  simpl. rewrite cumulative_count_events, Hc. unfold group.
  apply list_elem_of_fmap in Hk as (e & He & Hin).
  split; [|split].
  - by apply (length_filter_pos _ _ e).
  - apply length_filter_mono. intros x _ Hx. unfold bucket_key, hc_key in Hx.
    injection Hx as Hb Hs. split; [done|]. lia.
  - apply length_filter_mono. intros x _ [Hs _]. done.
Qed.

Lemma trend_counts_positive_witness :
  sample_last_row ∈ get_severity_trend text_le sample_events 5
  ∧ 1 ≤ event_count sample_last_row
  ∧ event_count sample_last_row ≤ running_total sample_last_row.
Proof.
  assert (sample_last_row ∈ get_severity_trend text_le sample_events 5) as H
    by elem_of_computed.
  split; [exact H|].
  pose proof (trend_counts_positive text_le sample_events 5 sample_last_row H)
    as (H1 & H2 & _).
  exact (conj H1 H2).
Defined.

(** X4 ([get_severity_trend], widening the window): with a larger
    [limit] the endpoint returns the rows it returned with the smaller
    one, unchanged, and besides them only rows of buckets before the
    smaller window. *)
Theorem trend_lookback_monotone (sev_le : relation string)
    `{!RelDecision sev_le} (events : list security_event) (l1 l2 : Z)
    (r : trend_row) :
  (l1 ≤ l2)%Z →
  r ∈ get_severity_trend sev_le events l1
  ↔ r ∈ get_severity_trend sev_le events l2
    ∧ at_or_after (cutoff (hourly_counts events) l1) r.
Proof.
  intros Hl. rewrite !trend_elem. split.
  - intros (h & Hh & -> & Hc). split; [|done]. exists h.
    split; [done|]. split; [done|].
    unfold cutoff in *. destruct (MAX _) as [m|]; simpl in *; [|done].
    unfold HOUR in *. lia.
  - intros [(h & Hh & -> & _) Hc]. eauto.
Qed.

Lemma trend_lookback_monotone_witness :
  (5 ≤ 168)%Z
  ∧ sample_last_row ∈ get_severity_trend text_le sample_events 5
  ∧ sample_last_row ∈ get_severity_trend text_le sample_events 168.
Proof.
  assert (5 ≤ 168)%Z as Hl by lia.
  assert (sample_last_row ∈ get_severity_trend text_le sample_events 5) as H
    by elem_of_computed.
  split; [exact Hl|]. split; [exact H|].
  exact (proj1 (proj1 (trend_lookback_monotone text_le sample_events 5 168
                         sample_last_row Hl) H)).
Defined.

(** X5 ([get_severity_trend], the window of buckets): the buckets of the
    returned rows lie within [limit] hours before the latest bucket, the
    latest included, so they are at most [limit + 1] distinct buckets; the
    latest bucket is returned for any [limit] that is not negative; a
    negative [limit] returns no row. *)
Theorem trend_bucket_span (sev_le : relation string)
    `{!RelDecision sev_le} (events : list security_event) (limit : Z) :
  let out := get_severity_trend sev_le events limit in
  (∀ r, r ∈ out →
        ∃ m, max_bucket events m
             ∧ (m - limit * HOUR ≤ hour_bucket r ≤ m)%Z)
  ∧ length (remove_dups (hour_bucket <$> out)) ≤ Z.to_nat (limit + 1)
  ∧ ((limit < 0)%Z → out = [])
  ∧ ((0 ≤ limit)%Z →
     ∀ e, e ∈ events → max_bucket events (date_trunc_hour (timestamp e)) →
          bucket_key e ∈ tr_key <$> out).
Proof.
  intros out. subst out.
  assert ((limit < 0)%Z → get_severity_trend sev_le events limit = [])
    as Hneg.
  { intros Hl. apply elem_of_nil_inv. intros r Hr.
    apply trend_row_bucket in Hr as (m & e & _ & _ & _ & Hb).
    unfold HOUR in Hb. lia. }
  split; [|split; [|split; [done|]]].
  - intros r (m & e & Hm & _ & _ & Hb)%trend_row_bucket. eauto.
  - destruct (get_severity_trend sev_le events limit) as [|r0 out'] eqn:Hout;
      [simpl; lia|].
    rewrite <- Hout.
    assert (r0 ∈ get_severity_trend sev_le events limit) as Hr0
      by (rewrite Hout; left).
    apply trend_row_bucket in Hr0 as (m & e0 & Hm & _ & _ & _).
    set (ks := (λ k : nat, (m - Z.of_nat k * HOUR)%Z)
                 <$> seq 0 (Z.to_nat (limit + 1))).
    assert (∀ b, b ∈ remove_dups
                       (hour_bucket <$> get_severity_trend sev_le events limit)
                 → b ∈ ks) as Hsub.
    { intros b Hb. rewrite elem_of_remove_dups in Hb.
      apply list_elem_of_fmap in Hb as (r & -> & Hr).
      apply trend_row_bucket in Hr as (m' & e & Hm' & He & Hk & Hb).
      assert (m' = m) as ->.
      { destruct Hm as [(x & Hx & <-) Hmax], Hm' as [(x' & Hx' & <-) Hmax'].
        specialize (Hmax _ Hx'). specialize (Hmax' _ Hx). lia. }
      destruct Hm as [(x & Hx & Hxm) _].
      assert (hour_bucket r = date_trunc_hour (timestamp e)) as Hbr.
      { unfold bucket_key, tr_key in Hk. by injection Hk as <- _. }
      rewrite Hbr in *. unfold ks. subst m. unfold date_trunc_hour in *.
      set (km := (timestamp x `div` HOUR)%Z) in *.
      set (kb := (timestamp e `div` HOUR)%Z) in *.
      apply (list_elem_of_fmap_2'
               (λ k : nat, (km * HOUR - Z.of_nat k * HOUR)%Z)
               _ (Z.to_nat (km - kb))).
      * apply elem_of_seq. unfold HOUR in Hb. lia.
      * unfold HOUR in *. lia. }
    etrans; [apply submseteq_length, NoDup_submseteq;
             [apply NoDup_remove_dups|exact Hsub]|].
    unfold ks. by rewrite length_fmap, length_seq.
  - intros Hl e He Hmax.
    rewrite trend_keys, list_elem_of_filter, elem_of_remove_dups.
    split; [|apply list_elem_of_fmap; eauto].
    apply key_at_or_after_cutoff. eexists. split; [exact Hmax|].
    simpl. unfold HOUR. lia.
Qed.

Lemma hourly_counts_perm (e1 e2 : list security_event) :
  e1 ≡ₚ e2 → hourly_counts e1 ≡ₚ hourly_counts e2.
Proof.
  intros Hp. unfold hourly_counts.
  assert (remove_dups (bucket_key <$> e1) ≡ₚ remove_dups (bucket_key <$> e2))
    as Hk.
  { apply NoDup_Permutation; [apply NoDup_remove_dups..|].
    intros k. by rewrite !elem_of_remove_dups, Hp. }
  erewrite list_fmap_ext; [by rewrite Hk|].
  intros _ k _. simpl. f_equal. by rewrite Hp.
Qed.

Lemma trend_row_of_perm (hc1 hc2 : list hourly_count) (h : hourly_count) :
  NoDup (hc_key <$> hc1) → hc1 ≡ₚ hc2 →
  trend_row_of hc1 h = trend_row_of hc2 h.
Proof.
  intros Hnd Hp. unfold trend_row_of. f_equal.
  - unfold cumulative_count. by rewrite Hp.
  - f_equal. unfold trailing_window. f_equal.
    apply (StronglySorted_unique_strong by_hour_bucket).
    + intros x1 x2 Hx1 Hx2 H12 H21.
      rewrite merge_sort_Permutation, list_elem_of_filter in Hx1, Hx2.
      destruct Hx1 as [[Hs1 _] Hx1], Hx2 as [[Hs2 _] Hx2].
      rewrite <- Hp in Hx2.
      apply (same_bucket_same_row hc1 Hnd (hc_severity h)); try done.
      unfold by_hour_bucket in *. lia.
    + apply StronglySorted_merge_sort; apply _.
    + apply StronglySorted_merge_sort; apply _.
    + by rewrite !merge_sort_Permutation, Hp.
Qed.

Lemma trend_NoDup (sev_le : relation string) `{!RelDecision sev_le}
    (events : list security_event) (limit : Z) :
  NoDup (tr_key <$> get_severity_trend sev_le events limit).
Proof. rewrite trend_keys. apply NoDup_filter, NoDup_remove_dups. Qed.

(** X6 ([get_severity_trend], scan order): under an order of the severity
    column that is total, transitive and antisymmetric, the response does
    not depend on the order in which the table is scanned. *)
Theorem trend_scan_independent (sev_le : relation string)
    `{!RelDecision sev_le, !Total sev_le, !Transitive sev_le,
      !AntiSymm (=) sev_le}
    (events1 events2 : list security_event) (limit : Z) :
  events1 ≡ₚ events2 →
  get_severity_trend sev_le events1 limit
  = get_severity_trend sev_le events2 limit.
Proof.
  intros Hp. pose proof (hourly_counts_perm _ _ Hp) as Hhc.
  assert (get_severity_trend sev_le events1 limit
          ≡ₚ get_severity_trend sev_le events2 limit) as Hperm.
  { apply NoDup_Permutation.
    - eapply NoDup_fmap_1, trend_NoDup.
    - eapply NoDup_fmap_1, trend_NoDup.
    - intros r. rewrite !trend_elem.
      assert (cutoff (hourly_counts events1) limit
              = cutoff (hourly_counts events2) limit) as ->.
      { unfold cutoff. f_equal. apply MAX_perm. by rewrite Hhc. }
      split; intros (h & Hh & -> & Hc); exists h.
      + split; [by rewrite <- Hhc|]. split; [|done].
        apply trend_row_of_perm; [apply hourly_counts_NoDup|done].
      + split; [by rewrite Hhc|]. split; [|done]. symmetry.
        apply trend_row_of_perm; [apply hourly_counts_NoDup|done]. }
  apply (StronglySorted_unique_strong (trend_order sev_le)); [| | |done].
  - intros x1 x2 Hx1 Hx2 H12 H21. rewrite <- Hperm in Hx2.
    apply (NoDup_fmap_inj_in tr_key _ _ _
             (trend_NoDup sev_le events1 limit) Hx1 Hx2).
    unfold tr_key. unfold trend_order in H12, H21.
    destruct H12 as [?|[Hb H12]]; destruct H21 as [?|[Hb' H21]]; try lia.
    rewrite Hb. f_equal. by apply (anti_symm sev_le).
  - apply StronglySorted_merge_sort; apply _.
  - apply StronglySorted_merge_sort; apply _.
Qed.

Global Instance text_le_antisym : AntiSymm (=) text_le.
Proof. intros s1 s2. unfold text_le. apply String.leb_antisym. Qed.

Lemma trend_scan_independent_witness :
  reverse sample_events ≡ₚ sample_events
  ∧ get_severity_trend text_le (reverse sample_events) 5
    = get_severity_trend text_le sample_events 5.
Proof.
  pose proof (reverse_Permutation sample_events) as Hp.
  split; [exact Hp|].
  exact (trend_scan_independent text_le (reverse sample_events)
           sample_events 5 Hp).
Defined.

End TrendInvariants.

(** ** Top attackers: the aggregates, the shares, the limit *)

Module RankingInvariants.
Import Numeric Window Relational Ranking Samples.
Import NumericFacts SortFacts GroupFacts RankingFacts.

Lemma MIN_Some (l : list Z) (m : Z) :
  MIN l = Some m ↔ m ∈ l ∧ ∀ x, x ∈ l → (m ≤ x)%Z.
Proof.
  destruct l as [|a l]; simpl.
  { split; [done|]. intros [H _]. by apply elem_of_nil in H. }
  assert (foldr Z.min a l ∈ a :: l ∧ ∀ x, x ∈ a :: l → (foldr Z.min a l ≤ x)%Z)
    as [Hin Hlb].
  { induction l as [|b l [IHin IHlb]]; simpl.
    - split; [left|]. intros x ->%list_elem_of_singleton. lia.
    - split.
      + destruct (Z.min_spec b (foldr Z.min a l)) as [[_ ->]|[_ ->]].
        * right; left.
        * apply elem_of_cons in IHin as [->|?]; [left|right; by right].
      + intros x Hx.
        assert (x = b ∨ x ∈ a :: l) as [->|Hx'].
        { apply elem_of_cons in Hx as [->|Hx]; [right; left|].
          apply elem_of_cons in Hx as [->|Hx]; [by left|right; by right]. }
        * lia.
        * specialize (IHlb x Hx'). lia. }
  split.
  - by intros [= <-].
  - intros [Hm Hall]. f_equal.
    specialize (Hlb m Hm). specialize (Hall _ Hin). lia.
Qed.

Lemma length_remove_dups_le {A} `{EqDecision A} (l : list A) :
  length (remove_dups l) ≤ length l.
Proof.
  apply submseteq_length, NoDup_submseteq; [apply NoDup_remove_dups|].
  intros x. by rewrite elem_of_remove_dups.
Qed.

Lemma length_filter_lt {A} (P : A → Prop) `{∀ x, Decision (P x)}
    (l : list A) (x : A) :
  x ∈ l → ¬ P x → length (filter P l) < length l.
Proof.
  intros Hin HP. apply list_elem_of_In, in_split in Hin as (l1 & l2 & ->).
  rewrite filter_app, filter_cons, decide_False by done.
  rewrite !length_app. simpl.
  pose proof (length_filter P l1). pose proof (length_filter P l2). lia.
Qed.

Lemma attacker_stats_sum (events : list security_event) :
  SUM (total_events <$> attacker_stats events) = length events.
Proof.
  unfold attacker_stats. rewrite <- list_fmap_compose, SUM_fmap.
  etrans; [|etrans; [apply (sum_selected_groups source_ip (λ _, True) events)|]].
  - rewrite filter_all by done. by apply sum_list_with_ext.
  - by rewrite filter_all.
Qed.

(** X7 ([attacker_stats]): the totals of the entities add up to the
    number of events; every entity has at least one event; its critical
    and high events together are at most its total; it shows between one
    and [total_events] attack types; and [first_seen] and [last_seen] are
    the earliest and the latest timestamp of its events, neither being
    NULL. *)
Theorem attacker_stats_consistent (events : list security_event) :
  let stats := attacker_stats events in
  SUM (total_events <$> stats) = length events
  ∧ ∀ x, x ∈ stats →
      1 ≤ total_events x
      ∧ critical_events x + high_events x ≤ total_events x
      ∧ 1 ≤ unique_attack_types x ≤ total_events x
      ∧ ∃ lo hi,
          first_seen x = Some lo ∧ last_seen x = Some hi ∧ (lo ≤ hi)%Z
          ∧ ∀ e, e ∈ events → source_ip e = st_source_ip x →
                 (lo ≤ timestamp e ≤ hi)%Z.
Proof.
  intros stats. subst stats. split; [apply attacker_stats_sum|].
  intros x (ip & -> & Hip)%list_elem_of_fmap. simpl.
  rewrite elem_of_remove_dups in Hip.
  apply list_elem_of_fmap in Hip as (e0 & -> & He0).
  set (g := filter (λ e, source_ip e = source_ip e0) events).
  assert (e0 ∈ g) as Hg by (by apply list_elem_of_filter).
  split; [|split; [|split]].
  - destruct g; [by apply elem_of_nil in Hg|simpl; lia].
  - rewrite <- length_app.
    rewrite (filter_disjoint_app (λ e, severity e = "critical")
               (λ e, severity e = "high")).
    + apply length_filter.
    + intros e H1 H2. by rewrite H1 in H2.
  - split; [|rewrite <- (length_fmap event_type g);
             apply length_remove_dups_le].
    assert (event_type e0 ∈ remove_dups (event_type <$> g)) as Ht.
    { rewrite elem_of_remove_dups. apply list_elem_of_fmap. eauto. }
    destruct (remove_dups _); [by apply elem_of_nil in Ht|simpl; lia].
  - destruct (MIN (timestamp <$> g)) as [lo|] eqn:Hlo;
      [|destruct g; [by apply elem_of_nil in Hg|done]].
    destruct (MAX (timestamp <$> g)) as [hi|] eqn:Hhi;
      [|destruct g; [by apply elem_of_nil in Hg|done]].
    apply MIN_Some in Hlo as [_ Hlo]. apply MAX_Some in Hhi as [_ Hhi].
    exists lo, hi. split; [done|]. split; [done|].
    assert (∀ e, e ∈ events → source_ip e = source_ip e0 →
                 (lo ≤ timestamp e ≤ hi)%Z) as Hall.
    { intros e He Hip.
      assert (timestamp e ∈ timestamp <$> g) as Ht.
      { apply list_elem_of_fmap. exists e. split; [done|].
        by apply list_elem_of_filter. }
      specialize (Hlo _ Ht). specialize (Hhi _ Ht). lia. }
    split; [|done]. specialize (Hall e0 He0 eq_refl). lia.
Qed.

Lemma ratio_bounds (a b : Z) :
  (0 ≤ a ≤ b)%Z →
  (0 <= inject_Z a / inject_Z b)%Q ∧ (inject_Z a / inject_Z b <= inject_Z 1)%Q.
Proof.
  intros Hab. destruct (decide (b = 0%Z)) as [->|Hb].
  - assert (a = 0)%Z as -> by lia. by vm_compute.
  - assert (0 < inject_Z b)%Q as Hpos.
    { change 0%Q with (inject_Z 0). rewrite <- Zlt_Qlt. lia. }
    split.
    + apply Qle_shift_div_l; [done|]. rewrite Qmult_0_l.
      change 0%Q with (inject_Z 0). rewrite <- Zle_Qle. lia.
    + apply Qle_shift_div_r; [done|].
      change (inject_Z 1) with 1%Q. rewrite Qmult_1_l.
      rewrite <- Zle_Qle. lia.
Qed.

Lemma attack_rank_bounds (stats : list attacker_stat) (r : ranked_row) :
  r ∈ ranked stats → 1 ≤ attack_rank r ≤ length stats.
Proof.
  intros Hr. rewrite (attack_rank_higher _ _ Hr).
  pose proof (ranked_stat_elem _ _ Hr) as Hx.
  assert (higher stats (total_events (stat r)) < length stats).
  { apply (length_filter_lt _ _ (stat r)); [done|lia]. }
  lia.
Qed.

Lemma percent_rank_bounds (n l : nat) :
  l < n →
  (0 <= ROUND (if decide (n = 1%nat) then 0%Q
               else (inject_Z (Z.of_nat (S l) - 1)
                     / inject_Z (Z.of_nat n - 1))%Q) 4)%Q
  ∧ (ROUND (if decide (n = 1%nat) then 0%Q
            else (inject_Z (Z.of_nat (S l) - 1)
                  / inject_Z (Z.of_nat n - 1))%Q) 4 <= inject_Z 1)%Q.
Proof.
  intros Hl. case_decide; [by vm_compute|].
  apply ROUND_bounds; apply ratio_bounds; lia.
Qed.

(** X8 ([ranked], the window columns): for every entity, [pct_of_total]
    is the share of its total in the number of events of the table, as a
    percentage rounded to four decimals, and lies between 0 and 100; the
    percentile lies between 0 and 1; and the rank lies between 1 and the
    number of entities. *)
Theorem ranked_shares (events : list security_event) (r : ranked_row) :
  r ∈ ranked (attacker_stats events) →
  pct_of_total r
  = ROUND (inject_Z (Z.of_nat (total_events (stat r)))
           / inject_Z (Z.of_nat (length events)) * 100)%Q 4
  ∧ (0 <= pct_of_total r)%Q ∧ (pct_of_total r <= inject_Z 100)%Q
  ∧ (0 <= percentile r)%Q ∧ (percentile r <= inject_Z 1)%Q
  ∧ 1 ≤ attack_rank r ≤ length (attacker_stats events).
Proof.
  intros (x & Hx & ->)%ranked_elem. simpl.
  rewrite attacker_stats_sum.
  assert (total_events x ≤ length events) as Hle.
  { destruct (attacker_stats_total events x Hx) as [-> _]. apply length_filter. }
  split; [done|].
  destruct (DistributionFacts.share_bounds _ _ Hle) as [Hs0 Hs1].
  destruct (ROUND_bounds _ _ 4 Hs0 Hs1) as [Hp0 Hp1].
  split; [done|]. split; [done|].
  assert (lower (attacker_stats events) (total_events x)
          < length (attacker_stats events)) as Hlow.
  { apply (length_filter_lt _ _ x); [done|lia]. }
  assert (higher (attacker_stats events) (total_events x)
          < length (attacker_stats events)) as Hhigh.
  { apply (length_filter_lt _ _ x); [done|lia]. }
  rewrite (PERCENT_RANK_lower _ x Hx), (RANK_desc _ x Hx).
  destruct (percent_rank_bounds _ _ Hlow) as [Hq0 Hq1].
  split; [done|]. split; [done|]. lia.
Qed.

Lemma ranked_shares_witness :
  sample_third_row ∈ ranked (attacker_stats sample_events)
  ∧ (0 <= pct_of_total sample_third_row)%Q
  ∧ (pct_of_total sample_third_row <= inject_Z 100)%Q.
Proof.
  assert (sample_third_row ∈ ranked (attacker_stats sample_events)) as H
    by elem_of_computed.
  split; [exact H|].
  pose proof (ranked_shares sample_events sample_third_row H)
    as (_ & H1 & H2 & _).
  exact (conj H1 H2).
Defined.

(** In descending order of total, the row in position [i] has at most
    [i] rows with a greater total. *)
Lemma higher_at_position (stats : list attacker_stat) (i : nat)
    (x : attacker_stat) :
  merge_sort by_total_desc stats !! i = Some x →
  higher stats (total_events x) ≤ i.
Proof.
  intros Hi. unfold higher.
  rewrite <- (merge_sort_Permutation by_total_desc stats).
  pose proof (StronglySorted_merge_sort by_total_desc stats) as Hs.
  set (desc := merge_sort by_total_desc stats) in *.
  rewrite <- (take_drop i desc) in Hs |- *.
  apply StronglySorted_app_1_r in Hs.
  rewrite (drop_S _ _ _ Hi) in Hs |- *.
  apply StronglySorted_inv in Hs as [_ Hall].
  rewrite filter_app, length_app.
  rewrite (filter_none _ (x :: _)).
  - simpl. etrans; [rewrite Nat.add_0_r; apply length_filter|].
    rewrite length_take. lia.
  - intros y [->|Hy]%elem_of_cons; [lia|].
    rewrite Forall_forall in Hall. specialize (Hall y Hy).
    unfold by_total_desc in Hall. lia.
Qed.

Lemma top_attackers_length (events : list security_event) (limit : Z) :
  (Z.min limit (Z.of_nat (length (attacker_stats events)))
   ≤ Z.of_nat (length (get_top_attackers events limit)))%Z.
Proof.
  set (stats := attacker_stats events).
  destruct (decide (limit ≤ 0)%Z) as [|Hl]; [lia|].
  unfold get_top_attackers. fold stats.
  rewrite merge_sort_Permutation, ranked_fmap, filter_fmap, length_fmap.
  rewrite <- (merge_sort_Permutation by_total_desc stats) at 2.
  set (desc := merge_sort by_total_desc stats).
  assert (length desc = length stats) as Hlen
    by (unfold desc; by rewrite merge_sort_Permutation).
  rewrite <- (take_drop (Z.to_nat limit) desc) at 1.
  rewrite filter_app, length_app, filter_all.
  - rewrite length_take. lia.
  - intros x Hx. apply list_elem_of_lookup in Hx as [i Hi].
    apply lookup_take_Some in Hi as [Hi Hlt]. simpl.
    rewrite RANK_desc.
    + pose proof (higher_at_position stats i x Hi). lia.
    + apply list_elem_of_lookup_2 in Hi. unfold desc in Hi.
      by rewrite merge_sort_Permutation in Hi.
Qed.

(** X9 ([get_top_attackers], the limit): a [limit] of zero or less
    returns no row; a [limit] of at least the number of entities returns
    every entity; in between the endpoint returns at least [limit] rows,
    ties at the boundary adding to them; and on a table that is not empty,
    with a [limit] of at least one, the first row has rank 1. *)
Theorem top_attackers_limit_edges (events : list security_event)
    (limit : Z) :
  let stats := attacker_stats events in
  let out := get_top_attackers events limit in
  ((limit ≤ 0)%Z → out = [])
  ∧ ((Z.of_nat (length stats) ≤ limit)%Z → out ≡ₚ ranked stats)
  ∧ (Z.min limit (Z.of_nat (length stats)) ≤ Z.of_nat (length out))%Z
  ∧ (events ≠ [] → (1 ≤ limit)%Z →
     ∃ r, head out = Some r ∧ attack_rank r = 1).
Proof.
  intros stats out. subst stats out.
  split; [|split; [|split; [apply top_attackers_length|]]].
  - intros Hl. apply elem_of_nil_inv. intros r [Hr Hle]%top_attackers_elem.
    rewrite (attack_rank_higher _ _ Hr) in Hle. lia.
  - intros Hl. unfold get_top_attackers.
    rewrite merge_sort_Permutation, filter_all; [done|].
    intros r Hr. pose proof (attack_rank_bounds _ r Hr). lia.
  - intros Hne Hl.
    pose proof (top_attackers_length events limit) as Hlen.
    pose proof (StronglySorted_merge_sort by_rank
      (filter (λ r, (Z.of_nat (attack_rank r) ≤ limit)%Z)
         (ranked (attacker_stats events)))) as Hs.
    fold (get_top_attackers events limit) in Hs.
    assert (attacker_stats events ≠ []) as Hst.
    { destruct events as [|e events]; [done|].
      intros Hnil. pose proof (attacker_stats_sum (e :: events)) as Hsum.
      rewrite Hnil in Hsum. done. }
    destruct (merge_sort by_total_desc (attacker_stats events))
      as [|x0 desc'] eqn:Hdesc.
    { apply (f_equal length) in Hdesc.
      rewrite merge_sort_Permutation in Hdesc.
      destruct (attacker_stats events); done. }
    assert (x0 ∈ attacker_stats events) as Hx0.
    { rewrite <- (merge_sort_Permutation by_total_desc), Hdesc. left. }
    assert (higher (attacker_stats events) (total_events x0) ≤ 0) as H0.
    { apply higher_at_position. by rewrite Hdesc. }
    assert (ranked_row_of (attacker_stats events) x0
              ∈ get_top_attackers events limit) as Hin.
    { apply top_attackers_elem. split; [apply ranked_elem; eauto|].
      simpl. rewrite RANK_desc by done. lia. }
    destruct (get_top_attackers events limit) as [|r out'] eqn:Hout;
      [by apply elem_of_nil in Hin|].
    exists r. split; [done|].
    assert (r ∈ get_top_attackers events limit) as Hr by (rewrite Hout; left).
    apply top_attackers_elem in Hr as [Hr _].
    rewrite (attack_rank_higher _ _ Hr).
    apply StronglySorted_inv in Hs as [_ Hall].
    apply elem_of_cons in Hin as [<-|Hin].
    + simpl. lia.
    + rewrite Forall_forall in Hall. specialize (Hall _ Hin).
      unfold by_rank in Hall. simpl in Hall.
      rewrite RANK_desc in Hall by done.
      rewrite (attack_rank_higher _ _ Hr) in Hall. lia.
Qed.

Lemma MIN_perm (l1 l2 : list Z) : l1 ≡ₚ l2 → MIN l1 = MIN l2.
Proof.
  intros Hp. destruct (MIN l1) as [m1|] eqn:H1, (MIN l2) as [m2|] eqn:H2.
  - apply MIN_Some in H1 as [Hin1 Hmin1], H2 as [Hin2 Hmin2]. f_equal.
    rewrite Hp in Hin1. rewrite <- Hp in Hin2.
    specialize (Hmin1 _ Hin2). specialize (Hmin2 _ Hin1). lia.
  - destruct l2; [|done]. apply Permutation_nil_r in Hp as ->. done.
  - destruct l1; [|done]. symmetry in Hp.
    apply Permutation_nil_r in Hp as ->. done.
  - done.
Qed.

Lemma remove_dups_perm {A} `{EqDecision A} (l1 l2 : list A) :
  l1 ≡ₚ l2 → remove_dups l1 ≡ₚ remove_dups l2.
Proof.
  intros Hp. apply NoDup_Permutation; [apply NoDup_remove_dups..|].
  intros x. by rewrite !elem_of_remove_dups, Hp.
Qed.

Lemma attacker_stats_perm (e1 e2 : list security_event) :
  e1 ≡ₚ e2 → attacker_stats e1 ≡ₚ attacker_stats e2.
Proof.
  intros Hp. unfold attacker_stats.
  erewrite list_fmap_ext;
    [by rewrite (remove_dups_perm _ _ (fmap_Permutation source_ip _ _ Hp))|].
  intros _ ip _. simpl.
  assert (filter (λ e, source_ip e = ip) e1
          ≡ₚ filter (λ e, source_ip e = ip) e2) as Hg by (by rewrite Hp).
  f_equal.
  - by rewrite Hg.
  - by rewrite Hg.
  - by rewrite Hg.
  - apply Permutation_length, remove_dups_perm. by rewrite Hg.
  - apply MIN_perm. by rewrite Hg.
  - apply TrendInvariants.MAX_perm. by rewrite Hg.
Qed.

Lemma ranked_perm (stats1 stats2 : list attacker_stat) :
  stats1 ≡ₚ stats2 → ranked stats1 ≡ₚ ranked stats2.
Proof.
  intros Hp. rewrite !ranked_fmap.
  erewrite list_fmap_ext; [by rewrite Hp|].
  intros i x Hx. apply list_elem_of_lookup_2 in Hx.
  assert (x ∈ stats2) as Hx2 by (by rewrite <- Hp).
  unfold ranked_row_of. f_equal.
  - rewrite !RANK_desc by done. unfold higher. by rewrite Hp.
  - f_equal. rewrite !PERCENT_RANK_lower by done.
    assert (length stats1 = length stats2) as -> by (by rewrite Hp).
    assert (lower stats1 (total_events x) = lower stats2 (total_events x))
      as -> by (unfold lower; by rewrite Hp).
    done.
  - assert (SUM (total_events <$> stats1) = SUM (total_events <$> stats2))
      as -> by (rewrite !SUM_fmap; by rewrite Hp).
    done.
Qed.

(** X10 ([get_top_attackers], scan order): the rows returned, each with
    its aggregates, rank, percentile and share, do not depend on the order
    in which the table is scanned; only the order among rows of one rank
    may. *)
Theorem top_attackers_scan_independent (events1 events2 : list security_event)
    (limit : Z) :
  events1 ≡ₚ events2 →
  get_top_attackers events1 limit ≡ₚ get_top_attackers events2 limit
  ∧ attack_rank <$> get_top_attackers events1 limit
    = attack_rank <$> get_top_attackers events2 limit.
Proof.
  intros Hp.
  assert (get_top_attackers events1 limit ≡ₚ get_top_attackers events2 limit)
    as Hperm.
  { unfold get_top_attackers. rewrite !merge_sort_Permutation.
    by rewrite (ranked_perm _ _ (attacker_stats_perm _ _ Hp)). }
  split; [done|].
  apply (StronglySorted_unique le).
  - apply (StronglySorted_fmap _ by_rank); [done|].
    apply StronglySorted_merge_sort; apply _.
  - apply (StronglySorted_fmap _ by_rank); [done|].
    apply StronglySorted_merge_sort; apply _.
  - by rewrite Hperm.
Qed.

Lemma top_attackers_scan_independent_witness :
  reverse sample_events ≡ₚ sample_events
  ∧ get_top_attackers (reverse sample_events) 2
    ≡ₚ get_top_attackers sample_events 2.
Proof.
  pose proof (reverse_Permutation sample_events) as Hp.
  split; [exact Hp|].
  exact (proj1 (top_attackers_scan_independent (reverse sample_events)
                  sample_events 2 Hp)).
Defined.

End RankingInvariants.

(** ** Paginated events: the size of a page, the filters *)

Module PaginationEdges.
Import Pagination Samples SortFacts PaginationFacts.





End PaginationEdges.

(** ** The connection pool: outcomes, errors, the idle connections *)

Module PoolBehaviour.
Import Pool Main PoolFacts.

(** What releasing the connection raises replaces what the body returned
    or raised; when releasing raises nothing, the outcome is the
    body's. *)
Lemma helper_outcome {A} (d : driver) (body : conn → M A) (s s1 : state)
    (c : conn) :
  get_connection d s = (inr c, s1) →
  (∀ c s', (body c s').2 = s') →
  ((c ← get_connection d; try_finally (body c) (release_connection d c)) s).1
  = match (release_connection d c s1).1 with
    | inl e => inl e
    | inr _ => (body c s1).1
    end.
Proof.
  intros Hget Hbody. unfold mbind, M_bind, bind. rewrite Hget.
  unfold try_finally. pose proof (Hbody c s1) as Hs.
  destruct (body c s1) as [r s1'] eqn:Hb. simpl in Hs. subst s1'.
  by destruct (release_connection d c s1) as [[e|[]] s2].
Qed.

(** X13 ([execute_query], [execute_scalar], outcomes): when the pool
    hands out a connection, releasing it raises nothing if its rollback
    and its close raise nothing; an error raised by the release is what
    the helper raises, whatever its body did; and when the release
    raises nothing the helper returns what its body produced on that
    connection: an exception of the driver is raised to the caller and
    not turned into an empty result; a statement that leaves no
    description makes [execute_query] raise [TypeError] and
    [execute_scalar] raise [ProgrammingError]; with [fetch_all] every
    fetched row becomes one dictionary, in order; and over a result set
    [execute_scalar] returns the first column of the first row, or
    [None] when there is no row. *)
Theorem helpers_return_body_outcome (d : driver) (s s1 : state) (c : conn)
    (query : string) (params : option (list value)) :
  pool_inv s → get_connection d s = (inr c, s1) →
  (conn_rollback d c = None → conn_close d c = None →
   (release_connection d c s1).1 = inr ())
  ∧ (∀ e, (release_connection d c s1).1 = inl e →
          (∀ fetch_all, (execute_query d query params fetch_all s).1 = inl e)
          ∧ (execute_scalar d query params s).1 = inl e)
  ∧ ((release_connection d c s1).1 = inr () →
     (∀ fetch_all,
        (execute_query d query params fetch_all s).1
        = (query_body d c query params fetch_all s1).1)
     ∧ (execute_scalar d query params s).1
       = (scalar_body d c query params s1).1
     ∧ (∀ e, execute d c query params = Raises e →
             (∀ fetch_all,
                (execute_query d query params fetch_all s).1 = inl e)
             ∧ (execute_scalar d query params s).1 = inl e)
     ∧ (∀ rows, execute d c query params = Executed None rows →
                ∀ fetch_all,
                  (execute_query d query params fetch_all s).1
                  = inl (TypeError "'NoneType' object is not iterable"))
     ∧ (∀ rows, execute d c query params = Executed None rows →
                (execute_scalar d query params s).1
                = inl (ProgrammingError "no results to fetch"))
     ∧ (∀ columns rows,
          execute d c query params = Executed (Some columns) rows →
          (execute_query d query params true s).1
          = inr (Rows (dict_zip columns <$> rows)))
     ∧ (∀ columns rows,
          execute d c query params = Executed (Some columns) rows →
          (execute_scalar d query params s).1 = inr (head rows ≫= head))).
Proof.
  intros Hinv Hget.
  assert (∀ fetch_all,
            (execute_query d query params fetch_all s).1
            = match (release_connection d c s1).1 with
              | inl e => inl e
              | inr _ => (query_body d c query params fetch_all s1).1
              end) as Hq.
  { intros fetch_all.
    apply (helper_outcome d (λ c, query_body d c query params fetch_all));
      [done|]. intros. apply query_body_state. }
  assert ((execute_scalar d query params s).1
          = match (release_connection d c s1).1 with
            | inl e => inl e
            | inr _ => (scalar_body d c query params s1).1
            end) as Hs.
  { apply (helper_outcome d (λ c, scalar_body d c query params)); [done|].
    intros. apply scalar_body_state. }
  split; [|split].
  - intros Hrollback Hclose.
    by destruct (release_after_get d s s1 c Hinv Hget Hrollback Hclose)
      as (s2 & -> & _).
  - intros e He. split; [intros fetch_all; rewrite Hq|rewrite Hs];
      by rewrite He.
  - intros Hrel. rewrite Hrel in Hq, Hs.
    split; [done|]. split; [done|].
    split; [|split; [|split; [|split]]].
    + intros e He. split; [intros fetch_all; rewrite Hq|rewrite Hs].
      * unfold query_body. by rewrite He.
      * unfold scalar_body. by rewrite He.
    + intros rows He fetch_all. rewrite Hq. unfold query_body.
      by rewrite He.
    + intros rows He. rewrite Hs. unfold scalar_body. by rewrite He.
    + intros columns rows He. rewrite Hq. unfold query_body. by rewrite He.
    + intros columns rows He. rewrite Hs. unfold scalar_body. rewrite He.
      by destruct rows as [|[|v row] rows].
Qed.

Lemma sample_state_inv : pool_inv sample_state.
Proof.
  unfold sample_state, pool_inv. simpl.
  intros k c Hk. rewrite lookup_empty in Hk. discriminate.
Qed.

(** The theorem over the pool [init_pool()] leaves: with the sample
    driver the count comes back; with the driver whose rollback raises,
    that error is what the helper raises. *)
Lemma helpers_return_body_outcome_witness :
  pool_inv sample_state
  ∧ get_connection sample_driver sample_state
    = (inr 1, (get_connection sample_driver sample_state).2)
  ∧ (execute_scalar sample_driver "SELECT COUNT(1) FROM security_events"
       None sample_state).1
    = inr (Some (VInt 25))
  ∧ get_connection lossy_driver sample_state
    = (inr 1, (get_connection lossy_driver sample_state).2)
  ∧ (execute_scalar lossy_driver "SELECT COUNT(1) FROM security_events"
       None sample_state).1
    = inl (DriverError "server closed the connection unexpectedly").
Proof.
  pose proof sample_state_inv as Hinv.
  assert (get_connection sample_driver sample_state
          = (inr 1, (get_connection sample_driver sample_state).2)) as Hget
    by (by vm_compute).
  assert (get_connection lossy_driver sample_state
          = (inr 1, (get_connection lossy_driver sample_state).2)) as Hlossy
    by (by vm_compute).
  split; [exact Hinv|]. split; [exact Hget|]. split; [|split].
  - exact (proj2 (proj2 (proj2 (proj2 (proj2 (proj2
             (proj2 (proj2 (helpers_return_body_outcome sample_driver
                              sample_state _ 1
                              "SELECT COUNT(1) FROM security_events" None
                              Hinv Hget)) eq_refl))))))
             ["count"] [[VInt 25]] eq_refl).
  - exact Hlossy.
  - exact (proj2 (proj1 (proj2 (helpers_return_body_outcome lossy_driver
                                  sample_state _ 1
                                  "SELECT COUNT(1) FROM security_events" None
                                  Hinv Hlossy))
                    (DriverError "server closed the connection unexpectedly")
                    eq_refl)).
Defined.

(** X14 ([get_connection], [release_connection], [close_pool], the
    helpers; errors of the life cycle): before [init_pool] the helpers
    raise [RuntimeError] and change nothing, while [release_connection]
    and [close_pool] do nothing; once an open pool is closed by
    [close_pool], the pool object stays in place, so the helpers raise
    the pool's own error and not [RuntimeError]. *)
Theorem pool_lifecycle_errors (d : driver) (query : string)
    (params : option (list value)) (fetch_all : bool) (c fresh : conn)
    (p : connection_pool) :
  let s0 := {| _connection_pool := None; next_conn := fresh |} in
  let s1 := (close_pool {| _connection_pool := Some p;
                           next_conn := fresh |}).2 in
  execute_query d query params fetch_all s0
  = (inl (RuntimeError "Connection pool not initialized"), s0)
  ∧ execute_scalar d query params s0
    = (inl (RuntimeError "Connection pool not initialized"), s0)
  ∧ release_connection d c s0 = (inr (), s0)
  ∧ close_pool s0 = (inr (), s0)
  ∧ execute_query d query params fetch_all s1
    = (inl (PoolError "connection pool is closed"), s1)
  ∧ execute_scalar d query params s1
    = (inl (PoolError "connection pool is closed"), s1)
  ∧ (release_connection d c s1).1
    = inl (PoolError "connection pool is closed").
Proof.
  intros s0 s1. do 4 (split; [reflexivity|]).
  subst s1. unfold close_pool. simpl.
  destruct (closed p) eqn:Hclosed; simpl; [|repeat split].
  unfold execute_query, execute_scalar, mbind, M_bind, bind, get_connection,
    release_connection, getconn, putconn.
  simpl. rewrite Hclosed. repeat split.
Qed.

Lemma get_connection_inv (d : driver) (s : state) :
  pool_inv s → pool_inv (get_connection d s).2.
Proof.
  intros Hinv. unfold get_connection, pool_inv in *.
  destruct (_connection_pool s) as [p|] eqn:Hp; simpl; [|by rewrite Hp].
  destruct (getconn d p (next_conn s)) as [[r p'] fresh] eqn:Hget.
  apply getconn_used in Hget as [Hkeys Hget]; [|done]. simpl.
  destruct r as [e|c].
  - rewrite Hget. intros k c Hk. apply Hinv in Hk. lia.
  - destruct Hget as (_ & _ & -> & _ & ->). intros k c' Hk.
    apply lookup_insert_Some in Hk as [[<- _]|[_ Hk]]; [lia|].
    apply Hinv in Hk. lia.
Qed.

(** X15 ([get_connection] through the helpers, exhaustion): when no
    connection is idle and [maxconn] connections are checked out, the
    helpers raise the pool's exhaustion error at once; they open no
    connection and leave the checked-out connections as they were. *)
Theorem pool_exhausted (d : driver) (s : state) (p : connection_pool)
    (query : string) (params : option (list value)) (fetch_all : bool) :
  _connection_pool s = Some p → closed p = false → _pool p = [] →
  size (_used p) = maxconn p → pool_inv s →
  (execute_query d query params fetch_all s).1
  = inl (PoolError "connection pool exhausted")
  ∧ (execute_scalar d query params s).1
    = inl (PoolError "connection pool exhausted")
  ∧ checked_out (execute_query d query params fetch_all s).2 = checked_out s
  ∧ next_conn (execute_query d query params fetch_all s).2 = next_conn s.
Proof.
  intros Hp Hopen Hidle Hfull Hinv.
  assert (get_connection d s
          = (inl (PoolError "connection pool exhausted"),
             {| _connection_pool :=
                  Some {| closed := closed p; minconn := minconn p;
                          maxconn := maxconn p; _pool := _pool p;
                          _used := _used p; _rused := _rused p;
                          _keys := S (_keys p) |};
                next_conn := next_conn s |})) as Hget.
  { unfold get_connection, getconn. rewrite Hp, Hopen. simpl.
    unfold pool_inv in Hinv. rewrite Hp in Hinv.
    destruct (_used p !! S (_keys p)) as [c|] eqn:Hk;
      [apply Hinv in Hk; lia|].
    rewrite Hidle. simpl. by rewrite decide_True. }
  unfold execute_query, execute_scalar, mbind, M_bind, bind.
  rewrite Hget. unfold checked_out. simpl. by rewrite Hp.
Qed.

Lemma pool_exhausted_witness :
  (∃ p, _connection_pool exhausted_state = Some p
        ∧ closed p = false ∧ _pool p = [] ∧ size (_used p) = maxconn p)
  ∧ pool_inv exhausted_state
  ∧ (execute_scalar sample_driver "SELECT COUNT(1) FROM security_events"
       None exhausted_state).1
    = inl (PoolError "connection pool exhausted").
Proof.
  destruct (_connection_pool exhausted_state) as [p|] eqn:Hp;
    [|by vm_compute in Hp].
  assert (closed p = false ∧ _pool p = [] ∧ size (_used p) = maxconn p)
    as (Hopen & Hidle & Hfull).
  { vm_compute in Hp. injection Hp as <-. by vm_compute. }
  assert (pool_inv exhausted_state) as Hinv.
  { apply get_connection_inv.
    by apply (init_pool_inv sample_driver 0 1 empty_state). }
  split; [exists p; done|]. split; [exact Hinv|].
  exact (proj1 (proj2 (pool_exhausted sample_driver exhausted_state p
                         "SELECT COUNT(1) FROM security_events" None true
                         Hp Hopen Hidle Hfull Hinv))).
Defined.

Lemma open_connections_all (d : driver) (n : nat) (p : connection_pool)
    (fresh : conn) :
  (∀ i, i < n → connect d (fresh + i) = None) →
  open_connections d n p fresh
  = (inr (),
     {| closed := closed p; minconn := minconn p; maxconn := maxconn p;
        _pool := _pool p ++ seq fresh n;
        _used := _used p; _rused := _rused p; _keys := _keys p |},
     fresh + n).
Proof.
  revert p fresh. induction n as [|n IH]; intros p fresh Hc; simpl.
  { rewrite app_nil_r, Nat.add_0_r. by destruct p. }
  unfold _connect. pose proof (Hc 0 ltac:(lia)) as H0.
  rewrite Nat.add_0_r in H0. rewrite H0, IH.
  - simpl. rewrite <- app_assoc. simpl. do 2 f_equal. lia.
  - intros i Hi. replace (S fresh + i) with (fresh + S i) by lia.
    apply Hc. lia.
Qed.

Lemma open_connections_first_failure (d : driver) (n i : nat)
    (p : connection_pool) (fresh : conn) (e : exn) :
  i < n → (∀ j, j < i → connect d (fresh + j) = None) →
  connect d (fresh + i) = Some e →
  ∃ p', open_connections d n p fresh = (inl e, p', fresh + i).
Proof.
  revert n p fresh. induction i as [|i IH]; intros n p fresh Hi Hc He.
  - destruct n as [|n]; [lia|]. simpl. unfold _connect.
    rewrite Nat.add_0_r in He. rewrite He, Nat.add_0_r. eauto.
  - destruct n as [|n]; [lia|]. simpl. unfold _connect.
    pose proof (Hc 0 ltac:(lia)) as H0.
    rewrite Nat.add_0_r in H0. rewrite H0.
    replace (fresh + S i) with (S fresh + i) in * by lia.
    apply IH; [lia| |done].
    intros j Hj. replace (S fresh + j) with (fresh + S j) by lia.
    apply Hc. lia.
Qed.

(** X16 ([init_pool]): when the first [minconn] connections open, the
    global pool is a new open pool holding exactly these connections,
    idle, with none checked out; when one of them fails, [init_pool]
    raises the error of the first that fails and the global pool stays
    what it was. *)
Theorem init_pool_outcome (d : driver) (minconn maxconn : nat) (s : state) :
  ((∀ i, i < minconn → connect d (next_conn s + i) = None) →
   init_pool d minconn maxconn s
   = (inr (),
      {| _connection_pool :=
           Some {| closed := false; minconn := minconn; maxconn := maxconn;
                   _pool := seq (next_conn s) minconn;
                   _used := ∅; _rused := ∅; _keys := 0 |};
         next_conn := next_conn s + minconn |}))
  ∧ (∀ i e, i < minconn →
            (∀ j, j < i → connect d (next_conn s + j) = None) →
            connect d (next_conn s + i) = Some e →
            init_pool d minconn maxconn s
            = (inl e, {| _connection_pool := _connection_pool s;
                         next_conn := next_conn s + i |}))
  ∧ (∀ e s', init_pool d minconn maxconn s = (inl e, s') →
             _connection_pool s' = _connection_pool s).
Proof.
  split; [|split].
  - intros Hc. unfold init_pool. by rewrite open_connections_all.
  - intros i e Hi Hc He. unfold init_pool.
    edestruct open_connections_first_failure as [p' ->]; done.
  - intros e s'. unfold init_pool.
    destruct (open_connections _ _ _ _) as [[[e'|[]] p] fresh]; [|done].
    by intros [= _ <-].
Qed.

(** X17 ([execute_query], [execute_scalar]; the idle connections): with
    an idle connection in an open pool that holds at most [minconn] of
    them, a helper takes the connection idle last and opens none.  When
    the body is done the pool puts the connection away: a closed
    connection is dropped, one of unknown status is closed and dropped,
    an idle one is idle in the pool again, and any other is rolled back
    and idle in the pool again; the helper then returns what its body
    produced, with the connections checked out as before.  When the
    close or the rollback raises, the helper raises that error and the
    connection stays checked out, under the key it was handed out
    with. *)
Theorem idle_connection_reused (d : driver) (s : state)
    (p : connection_pool) (idle : list conn) (c : conn) (query : string)
    (params : option (list value)) (fetch_all : bool) :
  _connection_pool s = Some p → closed p = false → pool_inv s →
  _pool p = idle ++ [c] → length (_pool p) ≤ minconn p →
  let s' := (execute_query d query params fetch_all s).2 in
  next_conn s' = next_conn s
  ∧ ∃ p', _connection_pool s' = Some p'
          ∧ closed p' = false
          ∧ let back (kept : list conn) :=
              (execute_query d query params fetch_all s).1
              = (query_body d c query params fetch_all s).1
              ∧ _used p' = _used p
              ∧ _pool p' = kept in
            let stays (e : exn) :=
              (execute_query d query params fetch_all s).1 = inl e
              ∧ _used p' = <[S (_keys p) := c]> (_used p)
              ∧ _pool p' = idle in
            if conn_closed d c then back idle
            else match transaction_status d c with
                 | STATUS_UNKNOWN =>
                     match conn_close d c with
                     | Some e => stays e
                     | None => back idle
                     end
                 | STATUS_IDLE => back (idle ++ [c])
                 | _ =>
                     match conn_rollback d c with
                     | Some e => stays e
                     | None => back (idle ++ [c])
                     end
                 end.
Proof.
  intros Hp Hopen Hinv Hidle Hmin s'. subst s'.
  assert (_used p !! S (_keys p) = None) as Hfree.
  { unfold pool_inv in Hinv. rewrite Hp in Hinv.
    destruct (_used p !! S (_keys p)) as [c'|] eqn:Hk; [|done].
    apply Hinv in Hk. lia. }
  unfold execute_query, mbind, M_bind, bind, get_connection, getconn.
  rewrite Hp, Hopen. simpl. rewrite Hfree, Hidle, last_snoc.
  unfold try_finally.
  match goal with
  | |- context [query_body d c query params fetch_all ?s1] =>
      pose proof (query_body_state d c query params fetch_all s1) as Hb;
      destruct (query_body d c query params fetch_all s1) as [r s1'] eqn:Hq
  end.
  simpl in Hb. subst s1'.
  assert ((query_body d c query params fetch_all s).1 = r) as Hr.
  { revert Hq. unfold query_body.
    destruct (execute d c query params) as [e|[description|] rows];
      [by intros [= <-]| |by intros [= <-]].
    destruct fetch_all; [by intros [= <-]|].
    destruct rows as [|[|v row] rows]; by intros [= <-]. }
  unfold release_connection, putconn. simpl.
  rewrite !lookup_insert_eq, removelast_last.
  rewrite decide_True by (rewrite Hidle, length_app in Hmin; simpl in Hmin; lia).
  rewrite Hr.
  destruct (conn_closed d c);
    [|destruct (transaction_status d c);
      [|destruct (conn_rollback d c)..|destruct (conn_close d c)]];
    simpl; (split; [done|]); eexists; (split; [reflexivity|]); simpl;
    (split; [done|]); rewrite ?delete_insert_eq, ?delete_id by done; done.
Qed.

(** The theorem at the pool [init_pool()] leaves, whose two connections
    are idle: over the sample driver the connection 1 is rolled back and
    idle again; over the driver whose rollback raises it stays checked
    out. *)
Lemma idle_connection_reused_witness :
  (∃ p, _connection_pool sample_state = Some p ∧ closed p = false
        ∧ _pool p = [0] ++ [1] ∧ length (_pool p) ≤ minconn p)
  ∧ pool_inv sample_state
  ∧ next_conn (execute_query sample_driver
                 "SELECT COUNT(1) FROM security_events" None true
                 sample_state).2
    = next_conn sample_state
  ∧ next_conn (execute_query lossy_driver
                 "SELECT COUNT(1) FROM security_events" None true
                 sample_state).2
    = next_conn sample_state.
Proof.
  destruct (_connection_pool sample_state) as [p|] eqn:Hp;
    [|by vm_compute in Hp].
  assert (closed p = false ∧ _pool p = [0] ++ [1]
          ∧ length (_pool p) ≤ minconn p) as (Hopen & Hidle & Hmin).
  { vm_compute in Hp. injection Hp as <-. simpl. repeat split. lia. }
  pose proof sample_state_inv as Hinv.
  split; [exists p; done|]. split; [exact Hinv|]. split.
  - exact (proj1 (idle_connection_reused sample_driver sample_state p [0] 1
                    "SELECT COUNT(1) FROM security_events" None true
                    Hp Hopen Hinv Hidle Hmin)).
  - exact (proj1 (idle_connection_reused lossy_driver sample_state p [0] 1
                    "SELECT COUNT(1) FROM security_events" None true
                    Hp Hopen Hinv Hidle Hmin)).
Defined.

Lemma zip_keys_NoDup {A B} (l : list A) (k : list B) :
  NoDup l → NoDup (zip l k).*1.
Proof.
  intros Hnd. revert k. induction Hnd as [|x l Hx Hnd IH]; intros k.
  { constructor. }
  destruct k as [|y k]; simpl; [constructor|].
  constructor; [|apply IH].
  intros Hin. apply Hx. apply list_elem_of_fmap in Hin as ([a b] & -> & Hin).
  simpl. by apply elem_of_zip_l in Hin.
Qed.

(** X18 ([execute_query], the dictionaries): when the column names of
    the result are distinct, the dictionary of a row maps the name of
    each column the row has a value for to that value, and has no other
    key. *)
Theorem dict_zip_lookup (columns : list string) (row : list value)
    (name : string) (v : value) :
  NoDup columns →
  dict_zip columns row !! name = Some v
  ↔ ∃ i, columns !! i = Some name ∧ row !! i = Some v.
Proof.
  intros Hnd. unfold dict_zip.
  rewrite <- elem_of_list_to_map.
  - rewrite elem_of_reverse, list_elem_of_lookup.
    split; intros [i Hi]; exists i.
    + by apply lookup_zip_with_Some in Hi as (x & y & [= <- <-] & ? & ?).
    + destruct Hi as [Hc Hr]. apply lookup_zip_with_Some. eauto.
  - rewrite fmap_reverse, reverse_Permutation. by apply zip_keys_NoDup.
Qed.

Lemma dict_zip_lookup_witness :
  NoDup ["severity"; "count"]
  ∧ dict_zip ["severity"; "count"] [VText "high"; VInt 10] !! "count"
    = Some (VInt 10).
Proof.
  assert (NoDup ["severity"; "count"]) as Hnd
    by (by apply (bool_decide_eq_true_1 (NoDup _))).
  split; [exact Hnd|].
  refine (proj2 (dict_zip_lookup ["severity"; "count"]
                   [VText "high"; VInt 10] "count" (VInt 10) Hnd) _).
  exists 1. split; reflexivity.
Defined.

(** X19 ([execute_query], columns of one name): the value of the last
    column of a result is the one the dictionary holds under its name,
    whatever columns of the same name come before it. *)
Theorem dict_zip_later_column_wins (columns : list string)
    (row : list value) (name : string) (v : value) :
  length columns = length row →
  dict_zip (columns ++ [name]) (row ++ [v]) !! name = Some v.
Proof.
  intros Hlen. unfold dict_zip.
  rewrite zip_with_app by done. simpl.
  rewrite reverse_snoc. simpl. apply lookup_insert_eq.
Qed.

Lemma dict_zip_later_column_wins_witness :
  length ["id"] = length [VInt 1]
  ∧ dict_zip (["id"] ++ ["id"]) ([VInt 1] ++ [VInt 2]) !! "id"
    = Some (VInt 2).
Proof.
  assert (length ["id"] = length [VInt 1]) as Hlen by reflexivity.
  split; [exact Hlen|].
  exact (dict_zip_later_column_wins ["id"] [VInt 1] "id" (VInt 2) Hlen).
Defined.

(** X20 ([lifespan] with the pool and the helpers): when the two
    connections of [init_pool()] open and the serving in between returns
    with the pool in place and open, [lifespan] returns what the serving
    returned and leaves the pool closed, with the connections the serving
    left checked out still recorded as such, so that a helper called
    afterwards raises the pool's error. *)
Theorem lifespan_closes_pool {A} (d : driver) (serve : M A)
    (s0 s1 s2 : state) (a : A) (p2 : connection_pool) :
  init_pool d 2 10 s0 = (inr (), s1) →
  serve s1 = (inr a, s2) →
  _connection_pool s2 = Some p2 → closed p2 = false →
  (lifespan d serve s0).1 = inr a
  ∧ (∃ p3, _connection_pool (lifespan d serve s0).2 = Some p3
           ∧ closed p3 = true ∧ _used p3 = _used p2)
  ∧ ∀ query params fetch_all,
      (execute_query d query params fetch_all (lifespan d serve s0).2).1
      = inl (PoolError "connection pool is closed").
Proof.
  intros Hinit Hserve Hp2 Hopen.
  unfold lifespan, mbind, M_bind, bind. rewrite Hinit, Hserve.
  unfold close_pool. rewrite Hp2, Hopen. simpl.
  split; [done|]. split; [eauto|]. done.
Qed.

Lemma lifespan_closes_pool_witness :
  init_pool sample_driver 2 10 empty_state = (inr (), sample_state)
  ∧ (lifespan sample_driver
       (execute_scalar sample_driver "SELECT COUNT(1) FROM security_events"
          None) empty_state).1
    = inr (Some (VInt 25)).
Proof.
  assert (init_pool sample_driver 2 10 empty_state = (inr (), sample_state))
    as Hinit by reflexivity.
  assert (∃ s2 p2,
            execute_scalar sample_driver
              "SELECT COUNT(1) FROM security_events" None sample_state
            = (inr (Some (VInt 25)), s2)
            ∧ _connection_pool s2 = Some p2
            ∧ closed p2 = false) as (s2 & p2 & Hserve & Hp2 & Hopen).
  { eexists _, _. split; [by vm_compute|]. split; by vm_compute. }
  split; [exact Hinit|].
  exact (proj1 (lifespan_closes_pool sample_driver _ empty_state sample_state
                  s2 (Some (VInt 25)) p2 Hinit Hserve Hp2 Hopen)).
Defined.

End PoolBehaviour.

(** ** The seed script *)

Module SeedingFacts.
Import Seed Seeding Distribution SeedFacts SortFacts DistributionFacts.

Lemma randint_eq (a b : Z) (g : rng) :
  (a ≤ b)%Z →
  ∃ r, (a ≤ r ≤ b)%Z
       ∧ randint a b g
         = Some (r, {| entropy := entropy g; cursor := S (cursor g) |}).
Proof.
  intros Hab. unfold randint. rewrite decide_False by lia.
  unfold _randbelow, mbind, G_bind, draw, mret, G_ret.
  eexists. split; [|reflexivity].
  pose proof (Z.mod_pos_bound (Z.of_N (entropy g (cursor g))) (b - a + 1)).
  lia.
Qed.

Ltac step_randint r Hr :=
  match goal with
  | |- context [(randint ?a ?b ≫= _) ?g] =>
      let Er := fresh "Er" in
      destruct (randint_eq a b g ltac:(lia)) as (r & Hr & Er);
      rewrite (bind_eq _ _ _ _ _ Er); clear Er
  end.

Lemma ip_pool_loop_spec (count : nat) (internal : bool) (ips : list string)
    (g : rng) :
  ∃ new g', ip_pool_loop count internal ips g = Some (ips ++ new, g')
            ∧ length new = count
            ∧ Forall (pool_address internal) new.
Proof.
  revert ips g. induction count as [|count IH]; intros ips g; simpl.
  { exists [], g. rewrite app_nil_r. done. }
  destruct internal.
  - step_randint b Hb. step_randint c Hc. step_randint d Hd.
    edestruct IH as (new & g' & -> & Hlen & Hall).
    eexists (_ :: new), g'. rewrite <- app_assoc. split; [done|].
    split; [simpl; by rewrite Hlen|]. constructor; [|done].
    exists 10%Z, b, c, d. done.
  - step_randint a Ha. step_randint b Hb. step_randint c Hc.
    step_randint d Hd.
    edestruct IH as (new & g' & -> & Hlen & Hall).
    eexists (_ :: new), g'. rewrite <- app_assoc. split; [done|].
    split; [simpl; by rewrite Hlen|]. constructor; [|done].
    exists a, b, c, d. done.
Qed.

(** X21 ([generate_ip_pool]): the function never raises; it returns
    [count] addresses, none for a negative [count]; each is four numbers
    joined by dots, the first being 10 for an internal pool and between 1
    and 223 otherwise, the second and third between 0 and 255, and the
    last between 1 and 254. *)
Theorem ip_pool_well_formed (count : Z) (internal : bool) (g : rng) :
  ∃ ips g', generate_ip_pool count internal g = Some (ips, g')
            ∧ length ips = Z.to_nat count
            ∧ ∀ ip, ip ∈ ips → pool_address internal ip.
Proof.
  unfold generate_ip_pool.
  destruct (ip_pool_loop_spec (Z.to_nat count) internal [] g)
    as (new & g' & H & Hlen & Hall).
  exists new, g'. rewrite Forall_forall in Hall. done.
Qed.

Lemma descriptions_cover (event_type : string) :
  event_type ∈ EVENT_TYPES →
  (event_type,
   dict_get DESCRIPTIONS event_type "Security event detected from {src}")
    ∈ DESCRIPTIONS.
Proof.
  revert event_type. apply Forall_forall.
  by apply (bool_decide_eq_true_1 (Forall _ _)).
Qed.

(** The draws of [generate_event], one after the other, from the
    equation [H] of a run that returned. *)
Ltac generate_event_draws H :=
  unfold generate_event in H;
  apply bind_Some in H as ([[?label ?lo] ?hi] & ?g & ?Hsev & H);
  apply bind_Some in H as (?score & ?g & ?Hscore & H);
  apply bind_Some in H as (?ety & ?g & ?Hety & H);
  apply bind_Some in H as (?src & ?g & ?Hsrc & H);
  apply bind_Some in H as (?dst & ?g & ?Hdst & H);
  apply bind_Some in H as (?sport & ?g & ?Hsport & H);
  apply bind_Some in H as (?dport & ?g & ?Hdport & H);
  apply bind_Some in H as (?proto & ?g & ?Hproto & H);
  apply bind_Some in H as (?secs & ?g & ?Hsecs & H);
  cbv zeta in H;
  apply bind_Some in H as (?rate & ?g & ?Hrate & H);
  apply bind_Some in H as (?cnt & ?g & ?Hcount & H);
  destruct (format _ _) as [?description|] eqn:?Hfmt; [|done];
  apply bind_Some in H as (?cat & ?g & ?Hcat & H);
  apply bind_Some in H as (?act & ?g & ?Hact & H);
  apply bind_Some in H as (?ua & ?g & ?Hua & H);
  apply bind_Some in H as (?country & ?g & ?Hcountry & H);
  injection H as <- _;
  apply choices1_elem in Hsev; apply randint_range in Hscore;
  apply choice_elem in Hety, Hsrc, Hdst, Hdport, Hproto, Hcat, Hact, Hua,
    Hcountry;
  apply randint_range in Hsport, Hsecs, Hrate, Hcount.

(** What the draws give for each field. *)
Ltac well_formed_from_draws :=
  split; [done|]; unfold well_formed_event; simpl;
  repeat (split; [done|]);
  split; [by eapply severities_in_tier|];
  split; [by eexists|];
  repeat (split; [done|]);
  eexists (dict_get DESCRIPTIONS _ "Security event detected from {src}"), _, _;
  split; [by apply descriptions_cover|]; done.

Lemma generate_event_inv (EXTERNAL_IPS INTERNAL_IPS : list string)
    (uuid4 : string) (base_time time_range : Z) (g g' : rng)
    (e : generated_event) :
  generate_event EXTERNAL_IPS INTERNAL_IPS uuid4 base_time time_range g
  = Some (e, g') →
  g_event_id e = uuid4
  ∧ well_formed_event EXTERNAL_IPS INTERNAL_IPS base_time time_range e.
Proof. intros H. generate_event_draws H. well_formed_from_draws. Qed.

Lemma generate_event_total (EXTERNAL_IPS INTERNAL_IPS : list string)
    (uuid4 : string) (base_time time_range : Z) (g : rng) :
  EXTERNAL_IPS ≠ [] → INTERNAL_IPS ≠ [] → (0 ≤ time_range)%Z →
  ∃ e g', generate_event EXTERNAL_IPS INTERNAL_IPS uuid4 base_time
            time_range g = Some (e, g').
Proof.
  intros Hext Hint Hrange. unfold generate_event.
  destruct (choices1_severity_Some g) as ([[label lo] hi] & g1 & H1).
  rewrite (bind_eq _ _ _ _ _ H1).
  pose proof (choices1_elem _ _ _ _ _ H1) as Hin.
  assert (lo ≤ hi)%Z as Hlohi.
  { unfold SEVERITIES in Hin. set_unfold in Hin.
    destruct Hin as [[= -> -> ->]|[[= -> -> ->]|[[= -> -> ->]|[[= -> -> ->]|[]]]]];
      lia. }
  destruct (randint_Some lo hi g1 Hlohi) as (score & g2 & H2).
  rewrite (bind_eq _ _ _ _ _ H2).
  destruct (choice_Some EVENT_TYPES g2 ltac:(done)) as (ety & g3 & H3).
  rewrite (bind_eq _ _ _ _ _ H3).
  destruct (choice_Some EXTERNAL_IPS g3 Hext) as (src & g4 & H4).
  rewrite (bind_eq _ _ _ _ _ H4).
  destruct (choice_Some INTERNAL_IPS g4 Hint) as (dst & g5 & H5).
  rewrite (bind_eq _ _ _ _ _ H5).
  destruct (randint_Some 1024 65535 g5 ltac:(lia)) as (sport & g6 & H6).
  rewrite (bind_eq _ _ _ _ _ H6).
  destruct (choice_Some DESTINATION_PORTS g6 ltac:(done)) as (dport & g7 & H7).
  rewrite (bind_eq _ _ _ _ _ H7).
  destruct (choice_Some PROTOCOLS g7 ltac:(done)) as (proto & g8 & H8).
  rewrite (bind_eq _ _ _ _ _ H8).
  destruct (randint_Some 0 time_range g8 Hrange) as (secs & g9 & H9).
  rewrite (bind_eq _ _ _ _ _ H9). cbv zeta.
  destruct (randint_Some 1000 100000 g9 ltac:(lia)) as (rate & g10 & H10).
  rewrite (bind_eq _ _ _ _ _ H10).
  destruct (randint_Some 5 5000 g10 ltac:(lia)) as (count & g11 & H11).
  rewrite (bind_eq _ _ _ _ _ H11).
  destruct (format_go_Some
              (dict_get DESCRIPTIONS ety "Security event detected from {src}")
              None
              [("src", src); ("dst", dst); ("port", pretty dport);
               ("rate", pretty rate); ("count", pretty count)])
    as [description Hd].
  { apply descriptions_formattable. by eapply choice_elem. }
  unfold format. rewrite Hd.
  destruct (choice_Some THREAT_CATEGORIES g11 ltac:(done)) as (cat & g12 & H12).
  rewrite (bind_eq _ _ _ _ _ H12).
  destruct (choice_Some ACTIONS g12 ltac:(done)) as (act & g13 & H13).
  rewrite (bind_eq _ _ _ _ _ H13).
  destruct (choice_Some USER_AGENTS g13 ltac:(done)) as (ua & g14 & H14).
  rewrite (bind_eq _ _ _ _ _ H14).
  destruct (choice_Some COUNTRIES g14 ltac:(done)) as (country & g15 & H15).
  rewrite (bind_eq _ _ _ _ _ H15).
  eauto.
Qed.

(** X22 ([generate_event], the fields): an event the generator produces
    carries the identifier it was given; its addresses come from the two
    pools; its source port lies between 1024 and 65535 and its
    destination port is one of the eleven listed; protocol, event type,
    threat category, action, user agent and country come from their
    lists; its score lies in the range of its severity; its timestamp is
    a whole number of seconds, at most [time_range], after [base_time];
    the raw log repeats the addresses, the event type and the score; and
    the description is the template of the event type, never the
    default, filled in. *)
Theorem generated_event_fields (EXTERNAL_IPS INTERNAL_IPS : list string)
    (uuid4 : string) (base_time time_range : Z) (g g' : rng)
    (e : generated_event) :
  generate_event EXTERNAL_IPS INTERNAL_IPS uuid4 base_time time_range g
  = Some (e, g') →
  g_event_id e = uuid4
  ∧ well_formed_event EXTERNAL_IPS INTERNAL_IPS base_time time_range e.
Proof.
  intros H. generate_event_draws H.
  split; [done|]. unfold well_formed_event. simpl.
  split; [done|]. split; [done|]. split; [done|]. split; [done|].
  split; [done|]. split; [done|].
  split; [by apply (severities_in_tier label lo hi)|].
  split; [by exists secs|].
  split; [done|]. split; [done|]. split; [done|]. split; [done|].
  split; [done|].
  exists (dict_get DESCRIPTIONS ety "Security event detected from {src}"),
    rate, cnt.
  split; [by apply descriptions_cover|]. done.
Qed.

Lemma generated_event_fields_witness :
  ∃ e g',
    generate_event ["8.8.8.8"; "9.9.9.9"] ["10.0.0.1"] "uuid" 0 100
      sample_rng = Some (e, g')
    ∧ well_formed_event ["8.8.8.8"; "9.9.9.9"] ["10.0.0.1"] 0 100 e.
Proof.
  destruct (generate_event_total ["8.8.8.8"; "9.9.9.9"] ["10.0.0.1"] "uuid"
              0 100 sample_rng ltac:(discriminate) ltac:(discriminate)
              ltac:(lia)) as (e & g' & Heq).
  exists e, g'. split; [exact Heq|].
  exact (proj2 (generated_event_fields _ _ _ _ _ _ _ _ Heq)).
Defined.




Lemma generate_batch_spec (EXTERNAL_IPS INTERNAL_IPS : list string)
    (uuid4 : nat → string) (base_time time_range : Z)
    (first batch_count : nat) (g : rng) :
  EXTERNAL_IPS ≠ [] → INTERNAL_IPS ≠ [] → (0 ≤ time_range)%Z →
  ∃ batch g',
    generate_batch EXTERNAL_IPS INTERNAL_IPS uuid4 base_time time_range
      first batch_count g = Some (batch, g')
    ∧ length batch = batch_count
    ∧ g_event_id <$> batch = uuid4 <$> seq first batch_count
    ∧ Forall (well_formed_event EXTERNAL_IPS INTERNAL_IPS base_time
                time_range) batch.
Proof.
  intros Hext Hint Hrange. revert first g.
  induction batch_count as [|n IH]; intros first g; simpl.
  { exists [], g. done. }
  destruct (generate_event_total EXTERNAL_IPS INTERNAL_IPS (uuid4 first)
              base_time time_range g Hext Hint Hrange) as (e & g1 & He).
  rewrite (bind_eq _ _ _ _ _ He).
  destruct (IH (S first) g1) as (batch & g' & Hb & Hlen & Hids & Hall).
  rewrite (bind_eq _ _ _ _ _ Hb).
  apply generate_event_inv in He as [Hid Hwf].
  exists (e :: batch), g'. split; [done|]. split; [simpl; by rewrite Hlen|].
  split; [rewrite fmap_cons, Hid, Hids; done|]. by constructor.
Qed.

Lemma range_batches (total_events batch_size : Z) :
  (0 < batch_size)%Z → (0 ≤ total_events)%Z →
  ∃ n : nat,
    range 0 total_events batch_size
    = Some ((λ k : nat, (0 + Z.of_nat k * batch_size)%Z) <$> seq 0 n)
    ∧ (total_events ≤ Z.of_nat n * batch_size)%Z
    ∧ (((Z.of_nat n - 1) * batch_size < total_events)%Z ∨ n = 0).
Proof.
  intros Hb Ht. unfold range.
  rewrite decide_False by lia. rewrite decide_True by lia.
  exists (Z.to_nat ((total_events - 0 + batch_size - 1) `div` batch_size)).
  split; [done|].
  pose proof (Z.div_mod (total_events - 0 + batch_size - 1) batch_size
                ltac:(lia)) as Hdm.
  pose proof (Z.mod_pos_bound (total_events - 0 + batch_size - 1) batch_size
                Hb) as Hmod.
  assert (0 ≤ (total_events - 0 + batch_size - 1) `div` batch_size)%Z
    by (apply Z.div_pos; lia).
  rewrite Z2Nat.id by done. split; [nia|]. left. nia.
Qed.

Lemma seed_loop_spec (EXTERNAL_IPS INTERNAL_IPS : list string)
    (uuid4 : nat → string) (base_time time_range : Z)
    (total_events batch_size : Z) (k m : nat)
    (table : list generated_event) (g : rng) :
  EXTERNAL_IPS ≠ [] → INTERNAL_IPS ≠ [] → (0 ≤ time_range)%Z →
  (0 < batch_size)%Z → (0 ≤ total_events)%Z →
  (total_events ≤ Z.of_nat (k + m) * batch_size)%Z →
  (((Z.of_nat (k + m) - 1) * batch_size < total_events)%Z ∨ m = 0) →
  let inserted := (total_events `min` (Z.of_nat k * batch_size))%Z in
  ∃ new g',
    seed_loop EXTERNAL_IPS INTERNAL_IPS uuid4 base_time time_range
      total_events batch_size
      ((λ j : nat, (0 + Z.of_nat j * batch_size)%Z) <$> seq k m)
      table inserted g
    = Some ((table ++ new, total_events), g')
    ∧ Z.of_nat (length new) = (total_events - inserted)%Z
    ∧ g_event_id <$> new
      = uuid4 <$> seq (Z.to_nat inserted) (length new)
    ∧ Forall (well_formed_event EXTERNAL_IPS INTERNAL_IPS base_time
                time_range) new.
Proof.
  intros Hext Hint Hrange Hb Ht. revert k table g.
  induction m as [|m IH]; intros k table g Hup Hlow inserted; subst inserted.
  { simpl. exists [], g. rewrite app_nil_r.
    replace (total_events `min` (Z.of_nat k * batch_size))%Z
      with total_events by lia.
    split; [done|]. split; [simpl; lia|]. done. }
  cbn [seq fmap list_fmap seed_loop].
  assert (Z.of_nat k * batch_size < total_events)%Z as Hk by nia.
  replace (total_events `min` (Z.of_nat k * batch_size))%Z
    with (Z.of_nat k * batch_size)%Z by lia.
  cbv zeta.
  set (batch_count :=
         (batch_size `min` (total_events - (0 + Z.of_nat k * batch_size)))%Z).
  destruct (generate_batch_spec EXTERNAL_IPS INTERNAL_IPS uuid4 base_time
              time_range (Z.to_nat (Z.of_nat k * batch_size))
              (Z.to_nat batch_count) g Hext Hint Hrange)
    as (batch & g1 & Hbatch & Hlen & Hids & Hall).
  rewrite (bind_eq _ _ _ _ _ Hbatch).
  assert ((Z.of_nat k * batch_size + batch_count)%Z
          = (total_events `min` (Z.of_nat (S k) * batch_size))%Z) as Hnext
    by (unfold batch_count; lia).
  rewrite Hnext.
  destruct (IH (S k) (table ++ batch) g1) as (new & g' & Hloop & Hn & Hi & Ha).
  { replace (S k + m) with (k + S m) by lia. done. }
  { replace (S k + m) with (k + S m) by lia.
    destruct Hlow as [?|?]; [by left|lia]. }
  rewrite Hloop. exists (batch ++ new), g'.
  rewrite <- app_assoc. split; [done|].
  assert (Z.of_nat (length batch) = batch_count) as Hlb
    by (rewrite Hlen; unfold batch_count; lia).
  split; [rewrite length_app; lia|].
  split; [|by apply Forall_app].
  rewrite fmap_app, length_app, seq_app, fmap_app, Hids, Hi, Hlen.
  do 3 f_equal. unfold batch_count. lia.
Qed.

(** X24 (the loop of [seed_database], for any totals): for a batch
    size that is positive and a total that is not negative, with pools
    that are not empty, the loop raises nothing; it ends with
    [total_inserted] equal to the total and exactly that many events
    added to the table, after the rows it held; the events carry the
    identifiers of the successive calls of [generate_event], and each has
    the fields [generate_event] guarantees. *)
Theorem seed_loop_inserts_total (EXTERNAL_IPS INTERNAL_IPS : list string)
    (uuid4 : nat → string) (base_time time_range : Z)
    (total_events batch_size : Z) (table : list generated_event) (g : rng) :
  EXTERNAL_IPS ≠ [] → INTERNAL_IPS ≠ [] → (0 ≤ time_range)%Z →
  (0 < batch_size)%Z → (0 ≤ total_events)%Z →
  ∃ batch_nums new g',
    range 0 total_events batch_size = Some batch_nums
    ∧ seed_loop EXTERNAL_IPS INTERNAL_IPS uuid4 base_time time_range
        total_events batch_size batch_nums table 0 g
      = Some ((table ++ new, total_events), g')
    ∧ length new = Z.to_nat total_events
    ∧ g_event_id <$> new = uuid4 <$> seq 0 (length new)
    ∧ ∀ e, e ∈ new →
           well_formed_event EXTERNAL_IPS INTERNAL_IPS base_time time_range e.
Proof.
  intros Hext Hint Hrange Hb Ht.
  destruct (range_batches total_events batch_size Hb Ht)
    as (n & Hr & Hup & Hlow).
  destruct (seed_loop_spec EXTERNAL_IPS INTERNAL_IPS uuid4 base_time
              time_range total_events batch_size 0 n table g
              Hext Hint Hrange Hb Ht Hup Hlow)
    as (new & g' & Hloop & Hlen & Hids & Hall).
  replace (total_events `min` (Z.of_nat 0 * batch_size))%Z with 0%Z
    in * by lia.
  eexists _, new, g'. split; [exact Hr|]. split; [exact Hloop|].
  split; [lia|]. split; [done|]. by apply Forall_forall.
Qed.

Lemma seed_loop_inserts_total_witness :
  ∃ batch_nums new g',
    range 0 25 10 = Some batch_nums
    ∧ seed_loop ["8.8.8.8"] ["10.0.0.1"] pretty 0 100 25 10 batch_nums []
        0 sample_rng
      = Some (([] ++ new, 25%Z), g')
    ∧ length new = 25.
Proof.
  destruct (seed_loop_inserts_total ["8.8.8.8"] ["10.0.0.1"] pretty 0 100
              25 10 [] sample_rng ltac:(discriminate) ltac:(discriminate)
              ltac:(lia) ltac:(lia) ltac:(lia))
    as (batch_nums & new & g' & Hr & Hloop & Hlen & _).
  exists batch_nums, new, g'. split; [exact Hr|]. split; [exact Hloop|].
  exact Hlen.
Defined.

Lemma wait_loop_spec (connect : nat → connect_outcome) (delay : nat)
    (attempt retries slept : nat) :
  (∀ k, k < retries → connect (attempt + k) = Connected →
        (∀ i, i < k → connect (attempt + i) = OperationalError) →
        wait_loop connect delay attempt retries slept
        = (inr true, slept + k * delay))
  ∧ ((∀ i, i < retries → connect (attempt + i) = OperationalError) →
     wait_loop connect delay attempt retries slept
     = (inr false, slept + retries * delay))
  ∧ (wait_loop connect delay attempt retries slept).2
    ≤ slept + retries * delay
  ∧ ((wait_loop connect delay attempt retries slept).1 = inr true →
     ∃ k, k < retries ∧ connect (attempt + k) = Connected)
  ∧ (∀ e, (wait_loop connect delay attempt retries slept).1 = inl e →
          ∃ k, k < retries ∧ connect (attempt + k) = OtherError e).
Proof.
  revert attempt slept.
  induction retries as [|n IH]; intros attempt slept; simpl.
  { split; [intros; lia|]. split; [intros; f_equal; lia|].
    split; [lia|]. split; [done|]. done. }
  destruct (IH (S attempt) (slept + delay)) as (IH1 & IH2 & IH3 & IH4 & IH5).
  split; [|split; [|split; [|split]]].
  - intros [|k] Hk Hc Hbefore.
    + rewrite Nat.add_0_r in Hc. rewrite Hc. f_equal. lia.
    + pose proof (Hbefore 0 ltac:(lia)) as H0.
      rewrite Nat.add_0_r in H0. rewrite H0.
      rewrite (IH1 k); [f_equal; lia|lia| |].
      * by replace (S attempt + k) with (attempt + S k) by lia.
      * intros i Hi. replace (S attempt + i) with (attempt + S i) by lia.
        apply Hbefore. lia.
  - intros Hall. pose proof (Hall 0 ltac:(lia)) as H0.
    rewrite Nat.add_0_r in H0. rewrite H0, IH2; [f_equal; lia|].
    intros i Hi. replace (S attempt + i) with (attempt + S i) by lia.
    apply Hall. lia.
  - destruct (connect attempt); simpl; lia.
  - destruct (connect attempt) eqn:Hc; simpl; [|intros Hr|done].
    + intros _. exists 0. rewrite Nat.add_0_r. split; [lia|done].
    + destruct (IH4 Hr) as (k & Hk & Hck). exists (S k).
      replace (attempt + S k) with (S attempt + k) by lia. split; [lia|done].
  - intros e. destruct (connect attempt) eqn:Hc; simpl; [done|intros Hr|].
    + destruct (IH5 e Hr) as (k & Hk & Hck). exists (S k).
      replace (attempt + S k) with (S attempt + k) by lia. split; [lia|done].
    + intros [= ->]. exists 0. rewrite Nat.add_0_r. split; [lia|done].
Qed.

Lemma wait_for_db_spec_false (connect : nat → connect_outcome) :
  (∀ i, i < 30 → connect i = OperationalError) →
  (wait_for_db connect 30 2).1 = inr false.
Proof.
  intros Hdown. unfold wait_for_db.
  destruct (wait_loop_spec connect 2 0 30 0) as (_ & H2 & _).
  by rewrite H2.
Qed.

(** X25 ([wait_for_db]): the function returns [True] at the first
    attempt that connects, having slept [delay] seconds after each
    attempt before it; it returns [False] when all [max_retries] attempts
    raise [OperationalError], having slept [max_retries * delay] seconds,
    the last of them after the last attempt; it never sleeps longer; and
    an exception other than [OperationalError] is raised to the
    caller. *)
Theorem wait_for_db_outcome (connect : nat → connect_outcome)
    (max_retries delay : nat) :
  (∀ k, k < max_retries → connect k = Connected →
        (∀ i, i < k → connect i = OperationalError) →
        wait_for_db connect max_retries delay = (inr true, k * delay))
  ∧ ((∀ i, i < max_retries → connect i = OperationalError) →
     wait_for_db connect max_retries delay
     = (inr false, max_retries * delay))
  ∧ (wait_for_db connect max_retries delay).2 ≤ max_retries * delay
  ∧ ((wait_for_db connect max_retries delay).1 = inr true →
     ∃ k, k < max_retries ∧ connect k = Connected)
  ∧ (∀ e, (wait_for_db connect max_retries delay).1 = inl e →
          ∃ k, k < max_retries ∧ connect k = OtherError e).
Proof.
  unfold wait_for_db.
  destruct (wait_loop_spec connect delay 0 max_retries 0)
    as (H1 & H2 & H3 & H4 & H5).
  split; [|split; [|split; [|split]]]; done.
Qed.

(** A database that accepts connections from the third attempt on is
    waited for during four seconds. *)
Example wait_for_late_database :
  wait_for_db late_database 30 2 = (inr true, 4).
Proof. reflexivity. Qed.

(** X26 ([seed_database]): when the database does not come up within
    the 30 attempts the script exits with status 1; when the table
    already holds [TOTAL_EVENTS] rows or more the script inserts nothing;
    otherwise, even when the table holds some rows already, it inserts
    exactly [TOTAL_EVENTS] events, the loop running over the 20 offsets
    0, [BATCH_SIZE], ..., each event well formed and dated within the 30
    days before the run. *)
Theorem seed_database_outcome (connect : nat → connect_outcome)
    (count : option Z) (EXTERNAL_IPS INTERNAL_IPS : list string)
    (uuid4 : nat → string) (now : Z) (table : list generated_event)
    (g : rng) :
  let run := seed_database connect count EXTERNAL_IPS INTERNAL_IPS uuid4 now
               table g in
  ((∀ i, i < 30 → connect i = OperationalError) → run = Some (Exit 1, g))
  ∧ ((wait_for_db connect 30 2).1 = inr true →
     (∀ c, count = Some c → (TOTAL_EVENTS ≤ c)%Z → run = Some (Skipped, g))
     ∧ (EXTERNAL_IPS ≠ [] → INTERNAL_IPS ≠ [] →
        (∀ c, count = Some c → (c < TOTAL_EVENTS)%Z) →
        range 0 TOTAL_EVENTS BATCH_SIZE
        = Some ((λ k : nat, (Z.of_nat k * BATCH_SIZE)%Z) <$> seq 0 20)
        ∧ ∃ new g',
            run = Some (Seeded (table ++ new) TOTAL_EVENTS, g')
            ∧ length new = Z.to_nat TOTAL_EVENTS
            ∧ ∀ e, e ∈ new →
                   well_formed_event EXTERNAL_IPS INTERNAL_IPS
                     (now - 30 * DAY * 1000000) (30 * DAY) e
                   ∧ (now - 30 * DAY * 1000000 ≤ g_timestamp e ≤ now)%Z)).
Proof.
  intros run. subst run. unfold seed_database. split.
  - intros Hdown.
    by rewrite (wait_for_db_spec_false connect Hdown).
  - intros ->. split.
    + intros c -> Hc. unfold check_already_seeded.
      by rewrite bool_decide_eq_true_2.
    + intros Hext Hint Hcount.
      assert (check_already_seeded count = false) as ->.
      { destruct count as [c|]; [|done]. unfold check_already_seeded.
        apply bool_decide_eq_false_2. specialize (Hcount c eq_refl). lia. }
      split; [done|].
      destruct (range_batches TOTAL_EVENTS BATCH_SIZE) as (n & Hr & Hup & Hlow);
        [done..|].
      rewrite Hr.
      destruct (seed_loop_spec EXTERNAL_IPS INTERNAL_IPS uuid4
                  (now - 30 * DAY * 1000000) (30 * DAY) TOTAL_EVENTS
                  BATCH_SIZE 0 n table g Hext Hint ltac:(done) ltac:(done)
                  ltac:(done) Hup Hlow)
        as (new & g' & Hloop & Hlen & _ & Hall).
      replace (TOTAL_EVENTS `min` (Z.of_nat 0 * BATCH_SIZE))%Z with 0%Z
        in * by done.
      rewrite (bind_eq _ _ _ _ _ Hloop). exists new, g'.
      split; [done|]. split; [lia|].
      rewrite Forall_forall in Hall. intros e He. specialize (Hall e He).
      split; [done|].
      destruct Hall as (_&_&_&_&_&_&_&(secs & Hsecs & ->)&_).
      unfold DAY in *. lia.
Qed.

Lemma execute_values_elem (dumps : list (string * json) → string)
    (nextval : nat → Z) (batch : list generated_event)
    (row : security_event) :
  row ∈ execute_values dumps nextval [] batch →
  ∃ i e, batch !! i = Some e ∧ row = inserted_row dumps (nextval i) e.
Proof.
  unfold execute_values. simpl.
  intros (i & e & -> & He)%elem_of_lookup_imap. eauto.
Qed.

Lemma tier_label_known (label : string) (score : Z) :
  score_in_tier label score → label ∈ known_severities.
Proof.
  unfold score_in_tier, known_severities.
  intros [[-> _]|[[-> _]|[[-> _]|[-> _]]]]; set_solver.
Qed.

(** X27 (the [INSERT] of [seed_database] with
    [get_severity_distribution]): a table filled from nothing with a
    batch of events that [generate_event] produced holds one row per
    event, in order; every row keeps its score within the range of its
    severity and carries one of the four labels; so the severity
    distribution of the seeded table lists its labels in the order
    critical, high, medium, low and has no row for another label. *)
Theorem seeded_table_distribution (dumps : list (string * json) → string)
    (nextval : nat → Z) (EXTERNAL_IPS INTERNAL_IPS : list string)
    (base_time time_range : Z) (batch : list generated_event) :
  Forall (well_formed_event EXTERNAL_IPS INTERNAL_IPS base_time time_range)
    batch →
  let table := execute_values dumps nextval [] batch in
  length table = length batch
  ∧ event_id <$> table = g_event_id <$> batch
  ∧ (∀ row, row ∈ table →
            score_in_tier (severity row) (severity_score row)
            ∧ severity row ∈ known_severities
            ∧ source_ip row ∈ EXTERNAL_IPS
            ∧ destination_ip row ∈ INTERNAL_IPS
            ∧ (base_time ≤ timestamp row ≤ base_time + time_range * 1000000)%Z)
  ∧ d_severity <$> get_severity_distribution table
    = filter (λ s, s ∈ severity <$> table) known_severities.
Proof.
  intros Hwf table. subst table.
  assert (∀ row, row ∈ execute_values dumps nextval [] batch →
                 score_in_tier (severity row) (severity_score row)
                 ∧ severity row ∈ known_severities
                 ∧ source_ip row ∈ EXTERNAL_IPS
                 ∧ destination_ip row ∈ INTERNAL_IPS
                 ∧ (base_time ≤ timestamp row
                    ≤ base_time + time_range * 1000000)%Z) as Hrows.
  { intros row (i & e & He & ->)%execute_values_elem.
    rewrite Forall_forall in Hwf.
    destruct (Hwf e (list_elem_of_lookup_2 _ _ _ He))
      as (Hs & Hd & _ & _ & _ & _ & Ht & (secs & Hsecs & Hts) & _).
    simpl. split; [done|]. split; [by eapply tier_label_known|].
    split; [done|]. split; [done|]. rewrite Hts. lia. }
  split; [|split; [|split; [done|]]].
  - unfold execute_values. simpl. by rewrite length_imap.
  - unfold execute_values. simpl. rewrite fmap_imap.
    exact (imap_const g_event_id batch).
  - assert (∀ e, e ∈ execute_values dumps nextval [] batch →
                 severity e ∈ known_severities) as Hknown
      by (intros e He; by apply Hrows).
    apply (StronglySorted_unique_strong label_order).
    + intros s t Hs Ht. apply (distribution_labels_known _ Hknown) in Hs.
      apply list_elem_of_filter in Hs as [_ Hs].
      apply list_elem_of_filter in Ht as [_ Ht].
      by apply label_order_antisym.
    + apply distribution_labels_sorted.
    + apply strongly_sorted_filter, known_severities_sorted.
    + apply NoDup_Permutation.
      * rewrite distribution_labels. apply NoDup_remove_dups.
      * apply NoDup_filter. unfold known_severities.
        by apply (bool_decide_eq_true_1 (NoDup _)).
      * intros s. by apply distribution_labels_known.
Qed.

Lemma seeded_table_distribution_witness :
  ∃ batch,
    Forall (well_formed_event ["8.8.8.8"; "9.9.9.9"] ["10.0.0.1"] 0 100) batch
    ∧ length (execute_values (λ _, "{}") Z.of_nat [] batch) = 3.
Proof.
  destruct (generate_batch_spec ["8.8.8.8"; "9.9.9.9"] ["10.0.0.1"] pretty
              0 100 0 3 sample_rng ltac:(discriminate) ltac:(discriminate)
              ltac:(lia)) as (batch & g' & _ & Hlen & _ & Hwf).
  exists batch. split; [exact Hwf|].
  exact (eq_trans
           (proj1 (seeded_table_distribution (λ _, "{}") Z.of_nat _ _ 0 100
                     batch Hwf)) Hlen).
Defined.

End SeedingFacts.

(** ** [serialize_row] *)

Module SerializeFacts.
Import Serialize.

Section builtins.
Context (isoformat : Z → string) (float : Q → Q) (str : pyvalue → string).

Lemma serialize_row_fmap (row : gmap string pyvalue) :
  serialize_row isoformat float str row
  = serialize_value isoformat float str <$> row.
Proof.
  unfold serialize_row.
  induction row as [|key value row Hkey Hfold IH] using map_first_key_ind.
  { by rewrite map_fold_empty, fmap_empty. }
  rewrite map_fold_insert_first_key by done.
  by rewrite IH, fmap_insert.
Qed.

Lemma serialize_value_converted (v : pyvalue) :
  converted (serialize_value isoformat float str v).
Proof.
  destruct v; simpl; try done.
  apply Forall_fmap, Forall_forall. intros x _. simpl.
  by destruct (is_primitive x) eqn:Hx.
Qed.

Lemma serialize_value_idemp (v : pyvalue) :
  serialize_value isoformat float str (serialize_value isoformat float str v)
  = serialize_value isoformat float str v.
Proof.
  destruct v; simpl; try done. f_equal.
  rewrite <- list_fmap_compose. apply list_fmap_ext. intros _ x _. simpl.
  by destruct (is_primitive x) eqn:Hx; simpl; rewrite ?Hx.
Qed.

End builtins.

(** X28 ([serialize_row]): whatever [isoformat], [float] and [str]
    return, the result has the keys of the row; each value is the value
    of the row under that key, converted; a converted value is no
    [datetime], [Decimal] or address, and a list in it holds JSON-native
    values only; a JSON-native value is left as it is; and serializing
    the result again changes nothing. *)
Theorem serialize_row_converts (isoformat : Z → string) (float : Q → Q)
    (str : pyvalue → string) (row : gmap string pyvalue) :
  let out := serialize_row isoformat float str row in
  dom out = dom row
  ∧ (∀ key, out !! key = serialize_value isoformat float str <$> row !! key)
  ∧ (∀ key v, out !! key = Some v → converted v)
  ∧ (∀ key v, row !! key = Some v → is_primitive v = true →
              out !! key = Some v)
  ∧ serialize_row isoformat float str out = out.
Proof.
  intros out. subst out. rewrite !serialize_row_fmap.
  split; [apply dom_fmap_L|]. split; [intros; apply lookup_fmap|].
  split; [|split].
  - intros key v. rewrite lookup_fmap.
    destruct (row !! key) as [w|]; [|done]. intros [= <-].
    apply serialize_value_converted.
  - intros key v Hv Hp. rewrite lookup_fmap, Hv. simpl. by destruct v.
  - rewrite <- map_fmap_compose. apply map_fmap_ext.
    intros key v _. apply serialize_value_idemp.
Qed.

End SerializeFacts.

(** ** The shares of a whole, rounded, add up to about 100 *)

Module ShareSums.
Import Numeric Distribution Ranking Shares Samples.
Import NumericFacts DistributionFacts RankingFacts.

(** Rounding to [d] decimals moves a value by at most half a unit of the
    last decimal. *)
Lemma ROUND_error (x : Q) (d : nat) :
  (0 <= x)%Q →
  (x - (1 # 2) / inject_Z (10 ^ Z.of_nat d) <= ROUND x d)%Q
  ∧ (ROUND x d <= x + (1 # 2) / inject_Z (10 ^ Z.of_nat d))%Q.
Proof.
  intros Hx. pose proof (pow10_pos d) as Hp.
  set (P := inject_Z (10 ^ Z.of_nat d)).
  assert (0 < P)%Q as HP.
  { unfold P. change 0%Q with (inject_Z 0). rewrite <- Zlt_Qlt. lia. }
  assert (0 < / P)%Q as Hinv by (by apply Qinv_lt_0_compat).
  assert (0 <= x * P)%Q as Hy.
  { apply Qmult_le_0_compat; [done|]. by apply Qlt_le_weak. }
  unfold ROUND. rewrite Qmake_pow10. fold P.
  rewrite round_half_away_nonneg by done.
  pose proof (Qfloor_le (x * P + (1 # 2))) as Hlo.
  pose proof (Qlt_floor (x * P + (1 # 2))) as Hhi.
  set (z := Qfloor (x * P + (1 # 2))) in *.
  rewrite inject_Z_plus in Hhi.
  unfold Qdiv. split.
  - apply Qle_trans with ((x * P - (1 # 2)) * / P)%Q.
    + apply Qle_lteq. right. field. lra.
    + apply Qmult_le_compat_r; [|by apply Qlt_le_weak].
      change (inject_Z 1) with 1%Q in Hhi. lra.
  - apply Qle_trans with ((x * P + (1 # 2)) * / P)%Q.
    + apply Qmult_le_compat_r; [|by apply Qlt_le_weak]. lra.
    + apply Qle_lteq. right. field. lra.
Qed.

Lemma Qsum_shares (l : list nat) (N : Q) :
  (Qsum ((λ n, inject_Z (Z.of_nat n) / N * 100) <$> l)
   == inject_Z (Z.of_nat (sum_list l)) / N * 100)%Q.
Proof.
  induction l as [|n l IH].
  { change (0 == 0 / N * 100)%Q. unfold Qdiv. ring. }
  rewrite fmap_cons. cbn [Qsum foldr sum_list sum_list_with].
  fold (Qsum ((λ n, inject_Z (Z.of_nat n) / N * 100)%Q <$> l)).
  rewrite IH, Nat2Z.inj_add, inject_Z_plus. change (id n) with n.
  unfold Qdiv. ring.
Qed.

Lemma Qsum_error {A} (f g : A → Q) (e : Q) (l : list A) :
  (∀ a, a ∈ l → (g a - e <= f a)%Q ∧ (f a <= g a + e)%Q) →
  (Qsum (g <$> l) - inject_Z (Z.of_nat (length l)) * e <= Qsum (f <$> l))%Q
  ∧ (Qsum (f <$> l) <= Qsum (g <$> l) + inject_Z (Z.of_nat (length l)) * e)%Q.
Proof.
  induction l as [|a l IH]; intros Hall.
  { change ((0 - 0 * e <= 0)%Q ∧ (0 <= 0 + 0 * e)%Q). split; lra. }
  destruct IH as [IH1 IH2].
  { intros b Hb. apply Hall. by right. }
  destruct (Hall a) as [H1 H2]; [left|].
  rewrite !fmap_cons. cbn [Qsum foldr length].
  fold (Qsum (f <$> l)). fold (Qsum (g <$> l)).
  rewrite Nat2Z.inj_succ. unfold Z.succ. rewrite inject_Z_plus.
  change (inject_Z 1) with 1%Q. split; lra.
Qed.

Lemma elem_le_sum_list (l : list nat) (n : nat) : n ∈ l → n ≤ sum_list l.
Proof.
  induction l as [|m l IH]; [by intros ?%elem_of_nil|].
  intros [->|Hn]%elem_of_cons; simpl; [lia|]. specialize (IH Hn). lia.
Qed.

(** The shares of the parts of a whole, each a percentage rounded to [d]
    decimals, add up to 100 within half a unit of the last decimal per
    part. *)
Lemma shares_sum_error (d : nat) (l : list nat) :
  sum_list l ≠ 0 →
  let share := λ n : nat,
    ROUND (inject_Z (Z.of_nat n) / inject_Z (Z.of_nat (sum_list l)) * 100) d in
  let e := ((1 # 2) / inject_Z (10 ^ Z.of_nat d))%Q in
  (100 - inject_Z (Z.of_nat (length l)) * e <= Qsum (share <$> l))%Q
  ∧ (Qsum (share <$> l) <= 100 + inject_Z (Z.of_nat (length l)) * e)%Q.
Proof.
  intros HN share e.
  destruct (Qsum_error share
              (λ n, inject_Z (Z.of_nat n)
                    / inject_Z (Z.of_nat (sum_list l)) * 100)%Q e l)
    as [H1 H2].
  { intros n Hn. apply ROUND_error.
    by apply share_bounds, elem_le_sum_list. }
  rewrite Qsum_shares in H1, H2.
  assert (inject_Z (Z.of_nat (sum_list l)) / inject_Z (Z.of_nat (sum_list l))
          * 100 == 100)%Q as Hall.
  { field. change 0%Q with (inject_Z 0). rewrite inject_Z_injective. lia. }
  rewrite Hall in H1, H2. done.
Qed.

(** X29 ([get_severity_distribution], the percentages together): on a
    table that is not empty the percentages of the rows add up to 100
    within 0.005 per row. *)
Theorem severity_percentages_sum (events : list security_event) :
  events ≠ [] →
  let out := get_severity_distribution events in
  let slack := (inject_Z (Z.of_nat (length out)) * (1 # 200))%Q in
  (100 - slack <= Qsum (percentage <$> out))%Q
  ∧ (Qsum (percentage <$> out) <= 100 + slack)%Q.
Proof.
  intros Hne out slack. subst out slack.
  set (out := get_severity_distribution events).
  assert (sum_list (count <$> out) = length events) as Hsum
    by apply distribution_count_sum.
  assert (percentage <$> out
          = (λ n : nat,
               ROUND (inject_Z (Z.of_nat n)
                      / inject_Z (Z.of_nat (sum_list (count <$> out))) * 100)
                     2) <$> (count <$> out)) as ->.
  { rewrite <- list_fmap_compose. apply list_fmap_ext.
    intros i r Hr%list_elem_of_lookup_2. simpl. rewrite Hsum.
    by apply distribution_elem in Hr as (_ & _ & ->). }
  destruct (shares_sum_error 2 (count <$> out)) as [H1 H2].
  { rewrite Hsum. by destruct events. }
  rewrite length_fmap in H1, H2.
  assert ((1 # 2) / inject_Z (10 ^ Z.of_nat 2) == 1 # 200)%Q as He
    by reflexivity.
  rewrite He in H1, H2. done.
Qed.

(** Three labels with one event each: the percentages add up to 99.99,
    within the bound. *)
Lemma severity_percentages_sum_witness :
  three_events ≠ []
  ∧ (Qsum (percentage <$> get_severity_distribution three_events)
     == 9999 # 100)%Q
  ∧ (100 - inject_Z (Z.of_nat
               (length (get_severity_distribution three_events)))
           * (1 # 200)
     <= Qsum (percentage <$> get_severity_distribution three_events))%Q.
Proof.
  assert (three_events ≠ []) as Hne by discriminate.
  split; [exact Hne|]. split; [by vm_compute|].
  exact (proj1 (severity_percentages_sum three_events Hne)).
Defined.

(** X30 ([ranked], the shares together): on a table that is not empty
    the values of [pct_of_total] over all the entities add up to 100
    within 0.00005 per entity. *)
Theorem attacker_shares_sum (events : list security_event) :
  events ≠ [] →
  let rows := ranked (attacker_stats events) in
  let slack := (inject_Z (Z.of_nat (length rows)) * (1 # 20000))%Q in
  (100 - slack <= Qsum (pct_of_total <$> rows))%Q
  ∧ (Qsum (pct_of_total <$> rows) <= 100 + slack)%Q.
Proof.
  intros Hne rows slack. subst rows slack.
  set (stats := attacker_stats events).
  assert (sum_list (total_events <$> stats) = length events) as Hsum
    by apply RankingInvariants.attacker_stats_sum.
  assert (pct_of_total <$> ranked stats
          = (λ n : nat,
               ROUND (inject_Z (Z.of_nat n)
                      / inject_Z (Z.of_nat (sum_list (total_events <$> stats)))
                      * 100) 4) <$> (total_events <$> stats)) as ->.
  { rewrite ranked_fmap, <- !list_fmap_compose. by apply list_fmap_ext. }
  destruct (shares_sum_error 4 (total_events <$> stats)) as [H1 H2].
  { rewrite Hsum. by destruct events. }
  rewrite ranked_fmap, !length_fmap in *.
  assert ((1 # 2) / inject_Z (10 ^ Z.of_nat 4) == 1 # 20000)%Q as He
    by reflexivity.
  rewrite He in H1, H2. done.
Qed.

Lemma attacker_shares_sum_witness :
  sample_events ≠ []
  ∧ (Qsum (pct_of_total <$> ranked (attacker_stats sample_events)) == 100)%Q
  ∧ (Qsum (pct_of_total <$> ranked (attacker_stats sample_events))
     <= 100 + inject_Z (Z.of_nat (length (ranked (attacker_stats
                                                    sample_events))))
              * (1 # 20000))%Q.
Proof.
  assert (sample_events ≠ []) as Hne by discriminate.
  split; [exact Hne|]. split; [by vm_compute|].
  exact (proj2 (attacker_shares_sum sample_events Hne)).
Defined.

End ShareSums.
